(** * Audio buffer transformations and serializers of the studio front-end

    A shallow embedding of the audio core of the application:
    [bufferToWave] (App.tsx), the silence remover, normalizer and speed
    change of the toolkit (AudioToolkit.tsx), the two merge handlers
    (Merger.handleMerge, ClipList.handleMergeSelected) and the PCM
    quantization of the MP3 branch of the converter; then the handlers
    around them: the block loop that feeds the MP3 encoder, clip creation
    (WaveformEditor.handleCreateClip), the drag-and-drop reordering of the
    Merger, the selection of clips, the file names of the downloads and
    the state of the clipper (App.tsx).

    Numbers.  Samples live in [Float32Array]s: every entry is a dyadic
    rational, NaN or an infinity.  The serializers only compare samples,
    clamp them and multiply them by 32767 or 32768; on Float32 inputs all
    of these are exact in IEEE double arithmetic, so a finite number is
    modelled by a rational and the special values by constructors of
    their own.  Signed zeros are not distinguished (no operation below
    observes the sign of a zero).  A division ([length / playbackSpeed],
    [1.0 / maxAmp]) is rounded to the nearest double, as IEEE 754
    prescribes; in [Math.floor(0.1 * sampleRate)] the model multiplies
    exactly: for an integer sample rate the double product
    [0.1 * sampleRate] has the integer part of a tenth of the rate.

    Lengths and offsets are natural numbers, sample rates and header
    values integers; a value written into a 16- or 32-bit field is reduced
    modulo the width of the field, as [DataView] does.

    Platform calls (typed arrays, [DataView], [AudioBuffer], the offline
    audio graph) are modelled by their documented behaviour, exceptions
    included; the resampler behind the offline rendering, [Math.pow] and
    the MP3 encoder are parameters.  A region of the waveform is given by
    its two frame indices, and what a handler awaits (the decoding of a
    file) by its outcome. *)

From Stdlib Require Import ZArith QArith Qround Qabs Qpower Lia List Ascii String.
From stdpp Require Import base option list.

Local Open Scope Z_scope.

(** ** JavaScript numbers *)

Inductive number : Type :=
| Fin (q : Q)
| PInf
| NInf
| NaN.

Definition Qltb (x y : Q) : bool := Qnum x * QDen y <? Qnum y * QDen x.
Definition Qeqb (x y : Q) : bool := Qnum x * QDen y =? Qnum y * QDen x.

(** [a < b] on numbers: false as soon as one side is NaN. *)
Definition num_lt (a b : number) : bool :=
  match a, b with
  | NaN, _ | _, NaN => false
  | Fin x, Fin y => Qltb x y
  | NInf, NInf => false
  | NInf, _ => true
  | _, NInf => false
  | PInf, _ => false
  | Fin _, PInf => true
  end.

Definition num_gt (a b : number) : bool := num_lt b a.

(** [a !== b] and [a === b]. *)
Definition num_eq (a b : number) : bool :=
  match a, b with
  | Fin x, Fin y => Qeqb x y
  | PInf, PInf | NInf, NInf => true
  | _, _ => false
  end.

Definition Math_max (a b : number) : number :=
  match a, b with
  | NaN, _ | _, NaN => NaN
  | _, _ => if num_lt a b then b else a
  end.

Definition Math_min (a b : number) : number :=
  match a, b with
  | NaN, _ | _, NaN => NaN
  | _, _ => if num_lt b a then b else a
  end.

Definition Math_abs (a : number) : number :=
  match a with
  | Fin q => Fin (Qabs q)
  | PInf | NInf => PInf
  | NaN => NaN
  end.

Definition num_add (a b : number) : number :=
  match a, b with
  | NaN, _ | _, NaN => NaN
  | Fin x, Fin y => Fin (x + y)
  | PInf, NInf | NInf, PInf => NaN
  | PInf, _ | _, PInf => PInf
  | NInf, _ | _, NInf => NInf
  end.

(** The sign of a non-NaN number: -1, 0 or 1. *)
Definition num_sgn (a : number) : Z :=
  match a with
  | Fin q => Z.sgn (Qnum q)
  | PInf => 1
  | NInf => -1
  | NaN => 0
  end.

Definition num_mul (a b : number) : number :=
  match a, b with
  | NaN, _ | _, NaN => NaN
  | Fin x, Fin y => Fin (x * y)
  | _, _ =>
      match num_sgn a * num_sgn b with
      | Z0 => NaN
      | Zpos _ => PInf
      | Zneg _ => NInf
      end
  end.

(** Rounding to the nearest integer, a tie going to the even one. *)
Definition Qround_half_even (x : Q) : Z :=
  let f := Qfloor x in
  match (x - inject_Z f ?= 1 # 2)%Q with
  | Lt => f
  | Gt => f + 1
  | Eq => if Z.even f then f else f + 1
  end.

(** The exponent [e] of a positive rational: [2 ^ e <= q < 2 ^ (e + 1)].
    The difference of the binary logarithms of numerator and denominator
    is [e] or [e + 1]. *)
Definition binade (q : Q) : Z :=
  let e := Z.log2 (Qnum q) - Z.log2 (Zpos (Qden q)) in
  if Qle_bool (2 ^ e) q then e else e - 1.

(** IEEE 754 binary64 rounding (to nearest, ties to even) of a positive
    rational: 53 significant bits, the unit in the last place no smaller
    than 2^-1074, overflow to infinity from 2^1024 on. *)
Definition round_double_pos (q : Q) : number :=
  let ulp := (2 ^ Z.max (binade q - 52) (-1074))%Q in
  let value := (inject_Z (Qround_half_even (q / ulp)) * ulp)%Q in
  if Qle_bool (2 ^ 1024) value then PInf else Fin value.

Definition round_double (q : Q) : number :=
  match Qnum q with
  | Z0 => Fin 0
  | Zpos _ => round_double_pos q
  | Zneg _ =>
      match round_double_pos (- q) with
      | Fin v => Fin (- v)
      | _ => NInf
      end
  end.

(** [a / b] on doubles: the quotient is rounded to the nearest double. *)
Definition num_div (a b : number) : number :=
  match a, b with
  | NaN, _ | _, NaN => NaN
  | Fin x, Fin y =>
      if Qeqb y 0 then
        match Z.sgn (Qnum x) with
        | Z0 => NaN
        | Zpos _ => PInf
        | Zneg _ => NInf
        end
      else round_double (x / y)
  | Fin _, _ => Fin 0
  | _, Fin y =>
      match num_sgn a * (if Qltb y 0 then -1 else 1) with
      | Zneg _ => NInf
      | _ => PInf
      end
  | _, _ => NaN
  end.

Definition of_Z (z : Z) : number := Fin (inject_Z z).

(** Truncation toward zero of a rational. *)
Definition Qtrunc (q : Q) : Z := Z.quot (Qnum q) (Zpos (Qden q)).

(** Two's-complement reading of the low [w] bits of [z]. *)
Definition wrap_signed (w : Z) (z : Z) : Z :=
  (z + 2 ^ (w - 1)) mod 2 ^ w - 2 ^ (w - 1).

(** ECMAScript ToInt32, ToInt16 and ToUint32 on a number. *)
Definition ToInt32 (x : number) : Z :=
  match x with Fin q => wrap_signed 32 (Qtrunc q) | _ => 0 end.

Definition ToInt16 (x : number) : Z :=
  match x with Fin q => wrap_signed 16 (Qtrunc q) | _ => 0 end.

Definition ToUint32 (x : number) : Z :=
  match x with Fin q => Qtrunc q mod 2 ^ 32 | _ => 0 end.

(** [v || 0] where [v] is the result of an indexed read of a typed array:
    [undefined] (index out of range), NaN and 0 are falsy. *)
Definition or_zero (v : option number) : number :=
  match v with
  | None => Fin 0
  | Some NaN => Fin 0
  | Some (Fin q) => if Qeqb q 0 then Fin 0 else Fin q
  | Some x => x
  end.

(** [Math.floor] of a finite number, and [Math.ceil]. *)
Definition Math_floor (q : Q) : Z := Qfloor q.

(** ToNumber of the result of an indexed read: [undefined] becomes NaN. *)
Definition read_number (v : option number) : number :=
  match v with
  | Some x => x
  | None => NaN
  end.

(** ** Exceptions *)

Inductive exn : Type :=
| RangeError
| TypeError
| IndexSizeError
| InvalidAccessError
| NotSupportedError
| Error (msg : string).

Inductive result (A : Type) : Type :=
| Ok (a : A)
| Throw (e : exn).
Arguments Ok {A} a.
Arguments Throw {A} e.

#[global] Instance result_ret : MRet result := fun _ a => Ok a.
#[global] Instance result_bind : MBind result := fun _ _ f m =>
  match m with
  | Ok a => f a
  | Throw e => Throw e
  end.

(** Left-to-right monadic iteration of a loop body over a list of indices. *)
Fixpoint for_each {A St : Type} (body : St -> A -> result St) (xs : list A) (s : St)
  : result St :=
  match xs with
  | [] => Ok s
  | x :: xs' => s' ← body s x; for_each body xs' s'
  end.

(** A [while] loop.  [None] means that the loop did not finish within
    [fuel] iterations; a thrown exception ends the loop. *)
Fixpoint while_loop {St : Type} (fuel : nat) (cond : St -> bool)
    (body : St -> result St) (s : St) : option (result St) :=
  match fuel with
  | O => None
  | S fuel' =>
      if cond s then
        match body s with
        | Ok s' => while_loop fuel' cond body s'
        | Throw e => Some (Throw e)
        end
      else Some (Ok s)
  end.

(** ** Web Audio buffers *)

Module AudioBuffer.
Record t : Type := mk {
  sampleRate : Z;
  length : nat;
  channelData : list (list number)
}.
End AudioBuffer.

Abbreviation AudioBuffer := AudioBuffer.t.

Definition numberOfChannels (b : AudioBuffer) : nat :=
  length (AudioBuffer.channelData b).

(** [abuffer.getChannelData(i)]: IndexSizeError when [i] is not a channel. *)
Definition getChannelData (b : AudioBuffer) (i : nat) : result (list number) :=
  match AudioBuffer.channelData b !! i with
  | Some ch => Ok ch
  | None => Throw IndexSizeError
  end.

(** [audioContext.createBuffer(numberOfChannels, length, sampleRate)]:
    zero-initialised; NotSupportedError when an argument is zero or
    negative. *)
Definition createBuffer (numOfChan len : nat) (rate : Z) : result AudioBuffer :=
  if decide (numOfChan = 0%nat \/ len = 0%nat \/ rate <= 0) then Throw NotSupportedError
  else Ok (AudioBuffer.mk rate len (replicate numOfChan (replicate len (Fin 0)))).

(** The PcmBuffer invariant: at least one channel, every channel array as
    long as the buffer, a positive sample rate. *)
Definition wf_buffer (b : AudioBuffer) : Prop :=
  (1 <= numberOfChannels b)%nat /\
  (1 <= AudioBuffer.length b)%nat /\
  0 < AudioBuffer.sampleRate b /\
  Forall (fun ch => length ch = AudioBuffer.length b) (AudioBuffer.channelData b).

(** [target.set(source, offset)] on typed arrays: RangeError when the
    source does not fit. *)
Definition TypedArray_set {A : Type} (target source : list A) (offset : nat)
  : result (list A) :=
  if decide (offset + length source <= length target)%nat then
    Ok (take offset target ++ source ++ drop (offset + length source) target)
  else Throw RangeError.

(** ** DataView stores (always little-endian in this program) *)

Fixpoint store_le (n : nat) (v : Z) (byteOffset : nat) (view : list Z) : list Z :=
  match n with
  | O => view
  | S n' =>
      store_le n' (Z.shiftr v 8) (S byteOffset) (<[byteOffset := Z.land v 255]> view)
  end.

Definition DataView_set (n : nat) (view : list Z) (byteOffset : nat) (value : Z)
  : result (list Z) :=
  if decide (byteOffset + n <= length view)%nat then
    Ok (store_le n (value mod 2 ^ (8 * Z.of_nat n)) byteOffset view)
  else Throw RangeError.

Definition DataView_setUint16 := DataView_set 2.
Definition DataView_setUint32 := DataView_set 4.
(** [setInt16] stores the two's complement of ToInt16(value): the same
    bytes as the value reduced modulo 2^16. *)
Definition DataView_setInt16 := DataView_set 2.

(** ** bufferToWave (App.tsx) *)

Record wav_state : Type := {
  view : list Z;
  pos : nat;
  offset : nat
}.

Definition setUint16 (data : Z) (s : wav_state) : result wav_state :=
  v ← DataView_setUint16 (view s) (pos s) data;
  Ok {| view := v; pos := pos s + 2; offset := offset s |}.

Definition setUint32 (data : Z) (s : wav_state) : result wav_state :=
  v ← DataView_setUint32 (view s) (pos s) data;
  Ok {| view := v; pos := pos s + 4; offset := offset s |}.

(** Lines 65-66: clamp, scale and truncate one sample read of a channel. *)
Definition quantize_sample (read : option number) : Z :=
  let sample := Math_max (of_Z (-1)) (Math_min (of_Z 1) (or_zero read)) in
  ToInt32 (if num_lt (num_add (Fin (1 # 2)) sample) (of_Z 0)
           then num_mul sample (of_Z 32768)
           else num_mul sample (of_Z 32767)).

Definition write_header (numOfChan : nat) (rate : Z) (length : nat)
    (s : wav_state) : result wav_state :=
  s ← setUint32 0x46464952 s;
  s ← setUint32 (Z.of_nat length + 36) s;
  s ← setUint32 0x45564157 s;
  s ← setUint32 0x20746d66 s;
  s ← setUint32 16 s;
  s ← setUint16 1 s;
  s ← setUint16 (Z.of_nat numOfChan) s;
  s ← setUint32 rate s;
  s ← setUint32 (rate * 2 * Z.of_nat numOfChan) s;
  s ← setUint16 (Z.of_nat numOfChan * 2) s;
  s ← setUint16 16 s;
  s ← setUint32 0x61746164 s;
  setUint32 (Z.of_nat length) s.

(** The body of the inner [for] loop over the channels. *)
Definition write_sample (channels : list (list number)) (s : wav_state) (i : nat)
  : result wav_state :=
  let sample := quantize_sample (channels !! i ≫= (fun ch => ch !! offset s)) in
  v ← DataView_setInt16 (view s) (pos s) sample;
  Ok {| view := v; pos := pos s + 2; offset := offset s |}.

Definition write_frame (channels : list (list number)) (numOfChan : nat)
    (s : wav_state) : result wav_state :=
  s ← for_each (write_sample channels) (seq 0 numOfChan) s;
  Ok {| view := view s; pos := pos s; offset := S (offset s) |}.

Definition bufferToWave_fuel (fuel : nat) (abuffer : AudioBuffer) (len : nat)
  : option (result (list Z)) :=
  let numOfChan := numberOfChannels abuffer in
  let length := (len * numOfChan * 2)%nat in
  let s := {| view := replicate (44 + length) 0; pos := 0; offset := 0 |} in
  match write_header numOfChan (AudioBuffer.sampleRate abuffer) length s with
  | Throw e => Some (Throw e)
  | Ok s =>
      match for_each (fun chans i => ch ← getChannelData abuffer i; Ok (chans ++ [ch]))
                     (seq 0 (numberOfChannels abuffer)) [] with
      | Throw e => Some (Throw e)
      | Ok channels =>
          r ← while_loop fuel (fun s => Nat.ltb (pos s) (44 + length))
                (write_frame channels numOfChan) s;
          Some (s ← r; Ok (view s))
      end
  end.

(** The loop runs once per frame, so [len + 1] iterations of fuel are
    enough (see [bufferToWave_fuel_enough]). *)
Definition bufferToWave (abuffer : AudioBuffer) (len : nat) : result (list Z) :=
  match bufferToWave_fuel (S len) abuffer len with
  | Some r => r
  | None => Throw (Error "bufferToWave: loop did not finish")
  end.

(** ** The Web Audio graph used by the toolkit

    Every node belongs to the context that created it.  The program has
    one realtime context ([getAudioContext]) and the offline contexts it
    constructs for rendering; an offline context is identified by the
    arguments of its constructor (no handler holds two at a time). *)

Inductive BaseAudioContext : Type :=
| RealtimeContext
| OfflineContext (numOfChan len : nat) (rate : Z).

#[global] Instance BaseAudioContext_eq_dec : EqDecision BaseAudioContext.
Proof. solve_decision. Defined.

Inductive AudioNode : Type :=
| BufferSourceNode (ctx : BaseAudioContext) (buffer : AudioBuffer) (playbackRate : Q)
| GainNode (ctx : BaseAudioContext) (gain : number)
| DestinationNode (ctx : BaseAudioContext).

Definition node_context (n : AudioNode) : BaseAudioContext :=
  match n with
  | BufferSourceNode ctx _ _ | GainNode ctx _ | DestinationNode ctx => ctx
  end.

(** [new OfflineAudioContext(numberOfChannels, length, sampleRate)]: the
    length is an [unsigned long], so the argument is reduced to 32 bits
    first; NotSupportedError unless all three are positive. *)
Definition new_OfflineAudioContext (numOfChan : nat) (len : number) (rate : Z)
  : result BaseAudioContext :=
  let len := ToUint32 len in
  if decide (numOfChan = 0%nat \/ len = 0 \/ rate <= 0)
  then Throw NotSupportedError
  else Ok (OfflineContext numOfChan (Z.to_nat len) rate).

(** [source.connect(destination)]: the Web Audio API requires an
    InvalidAccessError when the destination node was created by another
    context. *)
Definition connect (source destination : AudioNode) : result unit :=
  if decide (node_context source = node_context destination) then Ok ()
  else Throw InvalidAccessError.

(** [param.setValueAtTime(value, 0)]: the value is converted to the IDL
    type [float], which throws a TypeError for NaN, for an infinity and
    for a value that rounds to magnitude 2^128 in single precision, that
    is from 2^128 - 2^103 on. *)
Definition fits_float (value : number) : bool :=
  match value with
  | Fin q => Qltb (Qabs q) (inject_Z (2 ^ 128 - 2 ^ 103))
  | _ => false
  end.

Definition AudioParam_setValueAtTime (value : number) : result unit :=
  if fits_float value then Ok () else Throw TypeError.

Section Toolkit.

(** [Math.pow(10, x)]. *)
Variable pow10 : Q -> Q.

(** The platform's resampler: the value of output frame [i] when a channel
    is played at the given rate. *)
Variable resample : Q -> list number -> nat -> number.

(** [offlineCtx.startRendering()] for a source played through a chain of
    gains into the destination: a buffer with the shape of the context. *)
Definition startRendering (ctx : BaseAudioContext) (source : AudioBuffer)
    (playbackRate : Q) (gains : list number) : result AudioBuffer :=
  match ctx with
  | RealtimeContext => Throw (Error "not an offline context")
  | OfflineContext numOfChan len rate =>
      Ok (AudioBuffer.mk rate len
            (map (fun c =>
                    map (fun i =>
                           fold_left num_mul gains
                             (resample playbackRate
                                (default [] (AudioBuffer.channelData source !! c)) i))
                        (seq 0 len))
                 (seq 0 numOfChan)))
  end.

(** *** Silence removal (processAudio, lines 78-135) *)

Record Segment : Type := {
  start : Z;
  end_ : Z
}.

Definition paddingSamples (sampleRate : Z) : Z :=
  Math_floor ((1 # 10) * inject_Z sampleRate).

(** One iteration of the scan; the state is [segmentStart] and the list
    [nonSilentSegments]. *)
Definition scan_step (channelData : list number) (linearThreshold : number)
    (padding : Z) (st : Z * list Segment) (i : nat) : Z * list Segment :=
  let '(segmentStart, nonSilentSegments) := st in
  let amplitude := Math_abs (read_number (channelData !! i)) in
  if num_gt amplitude linearThreshold && (segmentStart =? -1) then
    (Z.of_nat i, nonSilentSegments)
  else if num_lt amplitude linearThreshold && negb (segmentStart =? -1) then
    let segmentEnd := Z.of_nat i in
    (-1, nonSilentSegments ++
         [{| start := Z.max 0 (segmentStart - padding);
             end_ := Z.min (Z.of_nat (length channelData)) (segmentEnd + padding) |}])
  else st.

Definition detectSegments (channelData : list number) (linearThreshold : number)
    (padding : Z) : list Segment :=
  let '(segmentStart, nonSilentSegments) :=
    fold_left (scan_step channelData linearThreshold padding)
              (seq 0 (length channelData)) (-1, []) in
  if negb (segmentStart =? -1) then
    nonSilentSegments ++
      [{| start := segmentStart; end_ := Z.of_nat (length channelData) |}]
  else nonSilentSegments.

(** Lines 105-114.  [mergedSegments] is never empty; it is kept as the
    pair of its front and of its last element, the one the loop mutates. *)
Definition merge_step (merged : list Segment * Segment) (segment : Segment)
  : list Segment * Segment :=
  let '(front, last) := merged in
  if start segment <? end_ last then
    (front, {| start := start last; end_ := Z.max (end_ last) (end_ segment) |})
  else (front ++ [last], segment).

Definition mergeOverlapping (nonSilentSegments : list Segment) : list Segment :=
  match nonSilentSegments with
  | [] => []
  | first :: rest =>
      let '(front, last) := fold_left merge_step rest ([], first) in
      front ++ [last]
  end.

Definition totalLength (mergedSegments : list Segment) : Z :=
  fold_left (fun sum seg => sum + (end_ seg - start seg)) mergedSegments 0.

(** [array.subarray(begin, end)] with integer arguments: a negative index
    counts from the end. *)
Definition rel_index (len : nat) (i : Z) : nat :=
  if i <? 0 then Z.to_nat (Z.max 0 (Z.of_nat len + i))
  else Z.to_nat (Z.min i (Z.of_nat len)).

Definition subarray {A : Type} (l : list A) (begin_ end' : Z) : list A :=
  take (rel_index (length l) end' - rel_index (length l) begin_)
       (drop (rel_index (length l) begin_) l).

(** [dst.getChannelData(c).set(data, offset)]. *)
Definition set_channel (dst : AudioBuffer) (c : nat) (data : list number)
    (offset : nat) : result AudioBuffer :=
  target ← getChannelData dst c;
  written ← TypedArray_set target data offset;
  Ok (AudioBuffer.mk (AudioBuffer.sampleRate dst) (AudioBuffer.length dst)
        (<[c := written]> (AudioBuffer.channelData dst))).

Definition copy_segment (currentBuffer : AudioBuffer) (numOfChan : nat)
    (st : AudioBuffer * Z) (seg : Segment) : result (AudioBuffer * Z) :=
  let '(newBuffer, offset) := st in
  newBuffer ← for_each (fun newBuffer c =>
      originalChannel ← getChannelData currentBuffer c;
      let segmentData := subarray originalChannel (start seg) (end_ seg) in
      set_channel newBuffer c segmentData (Z.to_nat offset))
    (seq 0 numOfChan) newBuffer;
  Ok (newBuffer, offset + (end_ seg - start seg)).

Definition removeSilence (silenceThreshold : Z) (currentBuffer : AudioBuffer)
  : result AudioBuffer :=
  let sampleRate := AudioBuffer.sampleRate currentBuffer in
  let numOfChan := numberOfChannels currentBuffer in
  channelData ← getChannelData currentBuffer 0;
  let linearThreshold := Fin (pow10 (inject_Z silenceThreshold / 20)) in
  let nonSilentSegments :=
    detectSegments channelData linearThreshold (paddingSamples sampleRate) in
  if (0 <? length nonSilentSegments)%nat then
    let mergedSegments := mergeOverlapping nonSilentSegments in
    if 0 <? totalLength mergedSegments then
      newBuffer ← createBuffer numOfChan (Z.to_nat (totalLength mergedSegments)) sampleRate;
      r ← for_each (copy_segment currentBuffer numOfChan) mergedSegments (newBuffer, 0);
      Ok r.1
    else createBuffer numOfChan 1 sampleRate
  else createBuffer numOfChan 1 sampleRate.

(** *** Normalization (processAudio, lines 137-159) *)

Definition maxAmp (b : AudioBuffer) : number :=
  fold_left (fun m channelData =>
               fold_left (fun m x => Math_max m (Math_abs x)) channelData m)
            (AudioBuffer.channelData b) (of_Z 0).

Definition normalize (audioContext : BaseAudioContext) (currentBuffer : AudioBuffer)
  : result AudioBuffer :=
  let maxAmp := maxAmp currentBuffer in
  if num_gt maxAmp (of_Z 0) && num_lt maxAmp (of_Z 1) then
    let gain := num_div (of_Z 1) maxAmp in
    let gainNode := GainNode audioContext gain in
    _ ← AudioParam_setValueAtTime gain;
    offlineCtx ← new_OfflineAudioContext (numberOfChannels currentBuffer)
                   (of_Z (Z.of_nat (AudioBuffer.length currentBuffer)))
                   (AudioBuffer.sampleRate currentBuffer);
    let source := BufferSourceNode offlineCtx currentBuffer 1 in
    _ ← connect source gainNode;
    _ ← connect gainNode (DestinationNode offlineCtx);
    startRendering offlineCtx currentBuffer 1 [gain]
  else Ok currentBuffer.

Record ToolkitSettings : Type := {
  playbackSpeed : Q;
  shouldNormalize : bool;
  shouldRemoveSilence : bool;
  silenceThreshold : Z
}.

Definition processAudio (settings : ToolkitSettings) (sourceBuffer : option AudioBuffer)
  : result AudioBuffer :=
  match sourceBuffer with
  | None => Throw (Error "Source buffer is not available.")
  | Some currentBuffer =>
      let audioContext := RealtimeContext in
      currentBuffer ←
        (if shouldRemoveSilence settings
         then removeSilence (silenceThreshold settings) currentBuffer
         else Ok currentBuffer);
      if shouldNormalize settings then normalize audioContext currentBuffer
      else Ok currentBuffer
  end.

(** *** Speed change (handleApplyAndDownload, lines 170-181) *)



End Toolkit.

(** ** The two merge entry points *)

Inductive merge_error : Type :=
| TooFewClips
| DifferentFormat (index : nat)
| MergeFailed (e : exn).

Inductive merge_outcome : Type :=
| ErrorShown (err : merge_error)
| Downloaded (fileName : string) (wav : list Z).

(** The [catch] around the body of a handler. *)
Definition try_merge (fileName : string) (body : result (list Z)) : merge_outcome :=
  match body with
  | Ok wav => Downloaded fileName wav
  | Throw e => ErrorShown (MergeFailed e)
  end.

Definition total_frames (buffers : list AudioBuffer) : nat :=
  fold_left (fun acc buffer => (acc + AudioBuffer.length buffer)%nat) buffers 0%nat.

(** [newBuffer.getChannelData(channel).set(buffer.getChannelData(channel), offset)]. *)
Definition copy_channel (buffer : AudioBuffer) (offset : nat)
    (newBuffer : AudioBuffer) (channel : nat) : result AudioBuffer :=
  target ← getChannelData newBuffer channel;
  source ← getChannelData buffer channel;
  written ← TypedArray_set target source offset;
  Ok (AudioBuffer.mk (AudioBuffer.sampleRate newBuffer)
        (AudioBuffer.length newBuffer)
        (<[channel := written]> (AudioBuffer.channelData newBuffer))).

(** The copy loop of both handlers: every buffer is written at the running
    offset, channel by channel; [channelsOf] is the bound of the inner
    loop. *)
Definition copy_buffer (channelsOf : AudioBuffer -> nat)
    (st : AudioBuffer * nat) (buffer : AudioBuffer) : result (AudioBuffer * nat) :=
  let '(newBuffer, offset) := st in
  newBuffer ← for_each (copy_channel buffer offset)
                (seq 0 (channelsOf buffer)) newBuffer;
  Ok (newBuffer, (offset + AudioBuffer.length buffer)%nat).

(** Merger.handleMerge, lines 111-117: the index of the first buffer, from
    index [i] on, whose format differs from the first buffer's. *)
Fixpoint first_mismatch (numOfChan : nat) (sampleRate : Z) (i : nat)
    (buffers : list AudioBuffer) : option nat :=
  match buffers with
  | [] => None
  | buffer :: rest =>
      if negb (numberOfChannels buffer =? numOfChan)%nat
         || negb (AudioBuffer.sampleRate buffer =? sampleRate)
      then Some i
      else first_mismatch numOfChan sampleRate (S i) rest
  end.

(** Merger.handleMerge on the decoded files. *)
Definition handleMerge (buffers : list AudioBuffer) : merge_outcome :=
  if (length buffers <? 2)%nat then ErrorShown TooFewClips
  else
    match buffers with
    | [] => ErrorShown TooFewClips
    | firstBuffer :: others =>
        let numOfChan := numberOfChannels firstBuffer in
        let sampleRate := AudioBuffer.sampleRate firstBuffer in
        match first_mismatch numOfChan sampleRate 1 others with
        | Some i => ErrorShown (DifferentFormat i)
        | None =>
            try_merge "merged_output.wav"
              (newBuffer ← createBuffer numOfChan (total_frames buffers) sampleRate;
               r ← for_each (copy_buffer (fun _ => numOfChan)) buffers (newBuffer, 0%nat);
               bufferToWave r.1 (AudioBuffer.length r.1))
        end
    end.

(** ClipList.handleMergeSelected on the buffers of the selected clips. *)
Definition handleMergeSelected (originalFileName : string)
    (buffersToMerge : list AudioBuffer) : merge_outcome :=
  if (length buffersToMerge <? 2)%nat then ErrorShown TooFewClips
  else
    match buffersToMerge with
    | [] => ErrorShown TooFewClips
    | firstBuffer :: _ =>
        try_merge (originalFileName ++ "_merged_clip.wav")
          (newBuffer ← createBuffer (numberOfChannels firstBuffer)
                         (total_frames buffersToMerge)
                         (AudioBuffer.sampleRate firstBuffer);
           r ← for_each (copy_buffer numberOfChannels) buffersToMerge (newBuffer, 0%nat);
           bufferToWave r.1 (AudioBuffer.length r.1))
    end.

(** ** PCM conversion in the MP3 branch of Converter.handleConvert *)

(** An assignment [pcm[i] = Math.max(-1, Math.min(1, x)) * 32767] into an
    [Int16Array]: the stored element is ToInt16 of the product. *)
Definition mp3_sample (read : option number) : Z :=
  ToInt16 (num_mul (Math_max (of_Z (-1)) (Math_min (of_Z 1) (read_number read)))
                   (of_Z 32767)).

(** Lines 191-196, the stereo branch; the arrays are then handed to the
    encoder in blocks of 1152 samples.  A store beyond the end of a typed
    array is ignored. *)
Definition mp3_pcm_stereo (left right : list number) : list Z * list Z :=
  fold_left (fun '(pcmLeft, pcmRight) i =>
               (<[i := mp3_sample (left !! i)]> pcmLeft,
                <[i := mp3_sample (right !! i)]> pcmRight))
            (seq 0 (length left))
            (replicate (length left) 0, replicate (length right) 0).

(** Lines 207-211, the mono branch. *)
Definition mp3_pcm_mono (audioBuffer : AudioBuffer) (channelData : list number) : list Z :=
  fold_left (fun pcm i => <[i := mp3_sample (channelData !! i)]> pcm)
            (seq 0 (length channelData))
            (replicate (AudioBuffer.length audioBuffer) 0).

(** Lines 187-211: the integer samples handed to the encoder, the left (or
    only) array first, with the right array of a two-channel buffer. *)
Definition mp3_pcm (audioBuffer : AudioBuffer) : result (list Z * option (list Z)) :=
  if (numberOfChannels audioBuffer =? 2)%nat then
    leftData ← getChannelData audioBuffer 0;
    rightData ← getChannelData audioBuffer 1;
    let '(pcmLeft, pcmRight) := mp3_pcm_stereo leftData rightData in
    Ok (pcmLeft, Some pcmRight)
  else
    channelData ← getChannelData audioBuffer 0;
    Ok (mp3_pcm_mono audioBuffer channelData, None).

(** ** The block loop of the MP3 branch (Converter.handleConvert, lines 183-227) *)

Section Mp3Encoder.

(** The lamejs encoder, assumed loaded: the type of its states, its
    constructor, [encodeBuffer] on a left (or only) chunk and the right
    chunk of a stereo buffer, and [flush]; the last two return the bytes
    they produce. *)
Variable Mp3Encoder : Type.
Variable new_Mp3Encoder : nat -> Z -> Z -> Mp3Encoder.
Variable encodeBuffer : Mp3Encoder -> list Z -> option (list Z) -> Mp3Encoder * list Z.
Variable flush : Mp3Encoder -> Mp3Encoder * list Z.

Definition sampleBlockSize : nat := 1152.

(** [if (mp3buf.length > 0) mp3Data.push(mp3buf)]. *)
Definition push_chunk (mp3Data : list (list Z)) (mp3buf : list Z) : list (list Z) :=
  if (0 <? length mp3buf)%nat then mp3Data ++ [mp3buf] else mp3Data.

(** The body of the two block loops (lines 198-205 and 213-219); the state
    is the index [i], the encoder and [mp3Data]. *)
Definition encode_block (pcmLeft : list Z) (pcmRight : option (list Z))
    (st : nat * Mp3Encoder * list (list Z))
  : result (nat * Mp3Encoder * list (list Z)) :=
  let '(i, mp3encoder, mp3Data) := st in
  let leftChunk :=
    subarray pcmLeft (Z.of_nat i) (Z.of_nat (i + sampleBlockSize)) in
  let rightChunk :=
    (fun pcmRight => subarray pcmRight (Z.of_nat i) (Z.of_nat (i + sampleBlockSize)))
      <$> pcmRight in
  let '(mp3encoder, mp3buf) := encodeBuffer mp3encoder leftChunk rightChunk in
  Ok ((i + sampleBlockSize)%nat, mp3encoder, push_chunk mp3Data mp3buf).

Definition encode_blocks_fuel (fuel : nat) (pcmLeft : list Z) (pcmRight : option (list Z))
    (mp3encoder : Mp3Encoder) : option (result (nat * Mp3Encoder * list (list Z))) :=
  while_loop fuel (fun '(i, _, _) => (i <? length pcmLeft)%nat)
    (encode_block pcmLeft pcmRight) (0%nat, mp3encoder, []).

(** The bytes of the blob of line 227.  The index grows with every block,
    so one iteration per sample and one more are enough fuel. *)
Definition encode_mp3 (audioBuffer : AudioBuffer) (bitrate : Z) : result (list Z) :=
  let mp3encoder :=
    new_Mp3Encoder (numberOfChannels audioBuffer) (AudioBuffer.sampleRate audioBuffer)
      bitrate in
  '(pcmLeft, pcmRight) ← mp3_pcm audioBuffer;
  match encode_blocks_fuel (S (length pcmLeft)) pcmLeft pcmRight mp3encoder with
  | None => Throw (Error "encode_mp3: loop did not finish")
  | Some r =>
      '(_, mp3encoder, mp3Data) ← r;
      let '(_, mp3buf) := flush mp3encoder in
      Ok (concat (push_chunk mp3Data mp3buf))
  end.

End Mp3Encoder.

(** ** Clip creation (WaveformEditor.handleCreateClip, lines 81-115) *)

(** A clip: the bytes of the WAV blob behind its object URL, and its
    buffer. *)
Module Clip.
Record t : Type := mk {
  url : list Z;
  buffer : AudioBuffer
}.
End Clip.

Abbreviation Clip := Clip.t.

(** Line 104: channel [i] of the new buffer receives the region of channel
    [i] of the decoded buffer. *)
Definition copy_region (originalBuffer : AudioBuffer) (startIndex endIndex : Z)
    (newClipBuffer : AudioBuffer) (i : nat) : result AudioBuffer :=
  target ← getChannelData newClipBuffer i;
  source ← getChannelData originalBuffer i;
  written ← TypedArray_set target (subarray source startIndex endIndex) 0;
  Ok (AudioBuffer.mk (AudioBuffer.sampleRate newClipBuffer)
        (AudioBuffer.length newClipBuffer)
        (<[i := written]> (AudioBuffer.channelData newClipBuffer))).

(** The handler on the list of clips.  The active region is given by its
    two frame indices, the integers of lines 91-92; [decodedData] is the
    result of [getDecodedData()].  A thrown exception leaves the handler
    before [setClips]. *)
Definition handleCreateClip (activeRegion : option (Z * Z))
    (decodedData : option AudioBuffer) (clips : list Clip) : result (list Clip) :=
  match activeRegion, decodedData with
  | Some (startIndex, endIndex), Some originalBuffer =>
      let frameCount := endIndex - startIndex in
      if frameCount <=? 0 then Ok clips
      else
        newClipBuffer ← createBuffer (numberOfChannels originalBuffer)
                          (Z.to_nat frameCount) (AudioBuffer.sampleRate originalBuffer);
        newClipBuffer ← for_each (copy_region originalBuffer startIndex endIndex)
                          (seq 0 (numberOfChannels originalBuffer)) newClipBuffer;
        wavBlob ← bufferToWave newClipBuffer (Z.to_nat frameCount);
        Ok (clips ++ [Clip.mk wavBlob newClipBuffer])
  | _, _ => Ok clips
  end.

(** ** Reordering the files of the Merger (handleDrop, Loader.tsx lines 72-89) *)

Section Merger.

(** The items of the list, and the value read at an index that is not in
    the array. *)
Variable FileItem : Type.
Variable undefined : FileItem.

(** [array.splice(index, 1)] and [array.splice(index, 0, item)] for a
    non-negative index: an index past the end removes nothing, and inserts
    at the end. *)
Definition splice_remove (array : list FileItem) (index : nat) : list FileItem :=
  take index array ++ drop (S index) array.

Definition splice_insert (array : list FileItem) (index : nat) (item : FileItem)
  : list FileItem :=
  take index array ++ item :: drop index array.

(** The state of the component that the drag handlers touch. *)
Record MergerState : Type := {
  files : list FileItem;
  dragItem : option nat;
  dragOverItem : option nat
}.

Definition handleDragStart (position : nat) (s : MergerState) : MergerState :=
  {| files := files s; dragItem := Some position; dragOverItem := dragOverItem s |}.

Definition handleDragEnter (position : nat) (s : MergerState) : MergerState :=
  {| files := files s; dragItem := dragItem s; dragOverItem := Some position |}.

Definition handleDrop (s : MergerState) : MergerState :=
  match dragItem s, dragOverItem s with
  | Some dragItem, Some dragOverItem =>
      let newFiles := files s in
      let dragItemContent := default undefined (newFiles !! dragItem) in
      let newFiles := splice_remove newFiles dragItem in
      let newFiles := splice_insert newFiles dragOverItem dragItemContent in
      {| files := newFiles; dragItem := None; dragOverItem := None |}
  | _, _ => s
  end.

End Merger.

(** ** File names

    [name.replace(/\.[^/.]+$/, ...)] with the empty string as replacement
    (App.tsx line 107, AudioToolkit.tsx line 187, Converter lines 131 and
    172).  A name is a string of 8-bit characters here; the expression
    only tells the dot and the slash from the other characters. *)

(** [[^/.]]. *)
Definition extension_char (c : ascii) : bool :=
  negb (c =? ".")%char && negb (c =? "/")%char.

(** [[^/.]+$]: one character or more of the class, up to the end of the
    string. *)
Fixpoint extension_tail (s : string) : bool :=
  match s with
  | EmptyString => false
  | String c s' =>
      extension_char c
      && match s' with
         | EmptyString => true
         | String _ _ => extension_tail s'
         end
  end.

(** The expression matches at the head of [s]. *)
Definition extension_here (s : string) : bool :=
  match s with
  | EmptyString => false
  | String c s' => (c =? ".")%char && extension_tail s'
  end.

(** The leftmost match is replaced by the empty string; it extends to the
    end of the name. *)
Fixpoint remove_extension (name : string) : string :=
  match name with
  | EmptyString => EmptyString
  | String c name' =>
      if extension_here (String c name') then EmptyString
      else String c (remove_extension name')
  end.

(** ** Clip selection (ClipList.tsx, lines 103-122) *)

Definition allClipsSelected (selectedClips : list nat) (clips : nat) : bool :=
  (length selectedClips =? clips)%nat && (0 <? clips)%nat.

(** [prevSelected.includes(index)], then [filter] or the spread with
    [index] appended. *)
Definition toggleClipSelection (index : nat) (prevSelected : list nat) : list nat :=
  if existsb (fun item => (item =? index)%nat) prevSelected
  then List.filter (fun item => negb (item =? index)%nat) prevSelected
  else prevSelected ++ [index].

(** [clips] is the number of clips in the list. *)
Definition toggleSelectAll (selectedClips : list nat) (clips : nat) : list nat :=
  if allClipsSelected selectedClips clips then []
  else seq 0 clips.

(** ** The clipper's state (App.tsx, lines 77-163) *)

Inductive AppState : Type := IDLE | PROCESSING | EDITING.

Inductive Mode : Type := clipper | merger | converter | toolkit.

Module File.
Record t : Type := mk {
  name : string;
  type : string
}.
End File.

Module App.
Record t : Type := mk {
  mode : Mode;
  appState : AppState;
  error : option string;
  sourceBuffer : option AudioBuffer;
  originalFileName : string
}.
End App.

(** The state of the first render. *)
Definition initialApp : App.t := App.mk clipper IDLE None None "".

Definition resetApp (s : App.t) : App.t :=
  App.mk (App.mode s) IDLE None None "".

(** [handleFile] up to its first [await]: a file that is not audio only
    sets the error, and the handler returns ([false]). *)
Definition handleFile_begin (file : File.t) (s : App.t) : App.t * bool :=
  if negb (String.prefix "audio/" (File.type file)) then
    (App.mk (App.mode s) (App.appState s) (Some "Please upload a valid audio file."%string)
       (App.sourceBuffer s) (App.originalFileName s), false)
  else
    (App.mk (App.mode s) PROCESSING None (App.sourceBuffer s)
       (remove_extension (File.name file)), true).

(** [handleFile] after decoding: [decoded] is the buffer, or [None] when
    reading or decoding the file threw. *)
Definition handleFile_end (decoded : option AudioBuffer) (s : App.t) : App.t :=
  match decoded with
  | Some audioBuffer =>
      App.mk (App.mode s) EDITING (App.error s) (Some audioBuffer)
        (App.originalFileName s)
  | None =>
      App.mk (App.mode s) IDLE
        (Some "Could not process the audio file. It may be corrupted or in an unsupported format."%string)
        (App.sourceBuffer s) (App.originalFileName s)
  end.

(** What happens to the component: a file is handed to [handleFile], a
    pending decoding ends, the user starts over, the user changes mode. *)
Inductive AppEvent : Type :=
| FileSelected (file : File.t)
| DecodingEnded (decoded : option AudioBuffer)
| ResetClicked
| ModeClicked (m : Mode).

Definition app_step (s : App.t) (ev : AppEvent) : App.t :=
  match ev with
  | FileSelected file => (handleFile_begin file s).1
  | DecodingEnded decoded => handleFile_end decoded s
  | ResetClicked => resetApp s
  | ModeClicked m =>
      App.mk m (App.appState s) (App.error s) (App.sourceBuffer s)
        (App.originalFileName s)
  end.

(** What [renderContent] shows. *)
Inductive View : Type :=
| MergerView
| ConverterView
| AudioToolkitView
| LoaderView
| WaveformEditorView (buffer : AudioBuffer) (originalFileName : string)
| UploaderView (error : option string).

Definition renderContent (s : App.t) : View :=
  match App.mode s with
  | merger => MergerView
  | converter => ConverterView
  | toolkit => AudioToolkitView
  | clipper =>
      match App.appState s with
      | PROCESSING => LoaderView
      | EDITING =>
          match App.sourceBuffer s with
          | Some sourceBuffer => WaveformEditorView sourceBuffer (App.originalFileName s)
          | None => UploaderView (Some "An unexpected error occurred. Please try again."%string)
          end
      | IDLE => UploaderView (App.error s)
      end
  end.

(** * Reference definitions for the statements

    Byte strings and the layouts the theorems compare the output with. *)

(** The [n] low base-256 digits of [v], least significant first. *)
Fixpoint le_bytes (n : nat) (v : Z) : list Z :=
  match n with
  | O => []
  | S n' => v mod 256 :: le_bytes n' (v / 256)
  end.

(** The number a little-endian byte string denotes. *)
Fixpoint le_decode (bs : list Z) : Z :=
  match bs with
  | [] => 0
  | b :: bs' => b + 256 * le_decode bs'
  end.

(** The canonical 44-byte header for [c] channels, rate [r], [n] frames. *)
Definition riff_header (c : nat) (r : Z) (n : nat) : list Z :=
  [82; 73; 70; 70] ++ le_bytes 4 (36 + Z.of_nat n * Z.of_nat c * 2)
  ++ [87; 65; 86; 69]
  ++ [102; 109; 116; 32] ++ le_bytes 4 16
  ++ le_bytes 2 1 ++ le_bytes 2 (Z.of_nat c) ++ le_bytes 4 r
  ++ le_bytes 4 (r * Z.of_nat c * 2) ++ le_bytes 2 (Z.of_nat c * 2)
  ++ le_bytes 2 16
  ++ [100; 97; 116; 97] ++ le_bytes 4 (Z.of_nat n * Z.of_nat c * 2).

(** The bytes of frame [k]: one 16-bit little-endian sample per channel,
    channel 0 first. *)
Definition frame_bytes (channels : list (list number)) (k : nat) : list Z :=
  flat_map (fun ch => le_bytes 2 (quantize_sample (ch !! k))) channels.

(** The data chunk: frame 0, then frame 1, ... *)
Definition wav_data (channels : list (list number)) (n : nat) : list Z :=
  flat_map (frame_bytes channels) (seq 0 n).

(** The ASCII codes of a tag. *)
Definition ascii_bytes (s : string) : list Z :=
  map (fun a => Z.of_nat (Ascii.nat_of_ascii a)) (list_ascii_of_string s).

(** The [len] bytes at offset [off]. *)
Definition field (off len : nat) (bytes : list Z) : list Z :=
  take len (drop off bytes).

(** The 16-bit word of frame [k], channel [i] in a WAV stream of [c]
    channels. *)
Definition sample_word (bytes : list Z) (c k i : nat) : list Z :=
  field (44 + (k * c + i) * 2) 2 bytes.

(** The quantization rule in the words of the specification (section 4.2):
    clamp to [-1,1]; a negative clamped value is scaled by 32768, any other
    by 32767; truncate toward zero to a 16-bit signed integer. *)
Definition spec_quantize (x : number) : Z :=
  let clamped := Math_max (of_Z (-1)) (Math_min (of_Z 1) x) in
  ToInt16 (if num_lt clamped (of_Z 0)
           then num_mul clamped (of_Z 32768)
           else num_mul clamped (of_Z 32767)).

(** The canonical layout: a 44-byte header whose fields are read back
    little-endian, then the frames in order, each with one 16-bit sample
    per channel, channel 0 first. *)
Definition canonical_wav (b : AudioBuffer) (n : nat) (header data : list Z) : Prop :=
  let c := Z.of_nat (numberOfChannels b) in
  let r := AudioBuffer.sampleRate b in
  let dataBytes := Z.of_nat n * c * 2 in
  length header = 44%nat /\
  Forall (fun x => 0 <= x < 256) (header ++ data) /\
  field 0 4 header = ascii_bytes "RIFF" /\
  le_decode (field 4 4 header) = 36 + dataBytes /\
  field 8 4 header = ascii_bytes "WAVE" /\
  field 12 4 header = ascii_bytes "fmt " /\
  le_decode (field 16 4 header) = 16 /\
  le_decode (field 20 2 header) = 1 /\
  le_decode (field 22 2 header) = c /\
  le_decode (field 24 4 header) = r /\
  le_decode (field 28 4 header) = r * c * 2 /\
  le_decode (field 32 2 header) = c * 2 /\
  le_decode (field 34 2 header) = 16 /\
  field 36 4 header = ascii_bytes "data" /\
  le_decode (field 40 4 header) = dataBytes /\
  length data = Z.to_nat dataBytes /\
  data = flat_map (fun k =>
           flat_map (fun ch => le_bytes 2 (quantize_sample (ch !! k)))
                    (AudioBuffer.channelData b))
         (seq 0 n).

(** A finite value clamped to [-1,1]. *)
Definition clampQ (q : Q) : Q :=
  if Qltb q 1 then if Qltb (-1) q then q else -1 else 1.

(** Clamping to [-1,1], scaling by 32767 whatever the sign and truncating
    toward zero; NaN gives 0. *)
Definition symmetric_quantize (x : number) : Z :=
  match x with
  | NaN => 0
  | PInf => 32767
  | NInf => -32767
  | Fin q => Qtrunc (clampQ q * 32767)
  end.

(** Two buffers can be combined: same channel count, same sample rate. *)
Definition compatible (first b : AudioBuffer) : Prop :=
  numberOfChannels b = numberOfChannels first
  /\ AudioBuffer.sampleRate b = AudioBuffer.sampleRate first.


(** Channel [j] of a buffer (empty when it has no such channel). *)
Definition channel (j : nat) (b : AudioBuffer) : list number :=
  default [] (AudioBuffer.channelData b !! j).

(** The concatenation of [buffers] in the format of [first]: channel [j]
    is channel [j] of every buffer, one after the other. *)
Definition concatenate (first : AudioBuffer) (buffers : list AudioBuffer) : AudioBuffer :=
  AudioBuffer.mk (AudioBuffer.sampleRate first) (total_frames buffers)
    (map (fun j => flat_map (channel j) buffers) (seq 0 (numberOfChannels first))).

(** The merge loop as a recursion on the remaining segments, [cur] being
    the last merged segment. *)
Fixpoint merge_from (cur : Segment) (rest : list Segment) : list Segment :=
  match rest with
  | [] => [cur]
  | s :: rest' =>
      if start s <? end_ cur
      then merge_from {| start := start cur; end_ := Z.max (end_ cur) (end_ s) |} rest'
      else cur :: merge_from s rest'
  end.

(** No segment starts before the end of the one in front of it. *)
Fixpoint separated (cur : Segment) (rest : list Segment) : Prop :=
  match rest with
  | [] => True
  | s :: rest' => end_ cur <= start s /\ separated s rest'
  end.

(** A segment that closed inside the buffer: the run from [s] to [e],
    padded on both sides. *)
Definition padded_run (len padding : Z) (seg : Segment) : Prop :=
  exists s e, 0 <= s < e /\
    seg = {| start := Z.max 0 (s - padding); end_ := Z.min len (e + padding) |}.

(** Every sample of every channel is zero. *)
Definition all_zero (b : AudioBuffer) : Prop :=
  Forall (Forall (fun x => num_eq x (of_Z 0) = true)) (AudioBuffer.channelData b).

(** The one-frame buffer of silence with the shape of [b]. *)
Definition one_frame_of_silence (b : AudioBuffer) : AudioBuffer :=
  AudioBuffer.mk (AudioBuffer.sampleRate b) 1
    (replicate (numberOfChannels b) [Fin 0]).

(** Example buffers used to instantiate the theorems. *)
Definition stereo_example : AudioBuffer :=
  AudioBuffer.mk 44100 2 [[Fin (1 # 2); Fin (-1 # 2)]; [Fin (-1); Fin 1]].

Definition half_scale_example : AudioBuffer :=
  AudioBuffer.mk 44100 1 [[Fin (-1 # 2)]].

Definition infinite_example : AudioBuffer :=
  AudioBuffer.mk 44100 1 [[PInf]].

Definition merge_example_a : AudioBuffer :=
  AudioBuffer.mk 44100 2 [[Fin (1 # 2); Fin (-1 # 2)]].

Definition merge_example_b : AudioBuffer :=
  AudioBuffer.mk 44100 1 [[Fin (1 # 4)]].



(** A lower approximation of [Math.pow(10, x)] by the integer part of the
    exponent, and a nearest-frame resampler, to instantiate the theorems. *)
Definition pow10_example (x : Q) : Q := Qpower 10 (Qfloor x).


Definition silent_example : AudioBuffer :=
  AudioBuffer.mk 44100 3 [[Fin 0; Fin 0; Fin 0]; [Fin 0; Fin 0; Fin 0]].

Definition quiet_example : AudioBuffer :=
  AudioBuffer.mk 44100 2 [[Fin (1 # 2); Fin (-1 # 4)]].

Definition tiny_example : AudioBuffer :=
  AudioBuffer.mk 44100 1 [[Fin (1 # 2 ^ 130)]].


(** Frame [i] lies in the segment, and in one of the segments. *)
Definition covers (seg : Segment) (i : Z) : Prop := start seg <= i < end_ seg.

Definition covered (segs : list Segment) (i : Z) : Prop :=
  Exists (fun seg => covers seg i) segs.

(** A non-empty segment of a buffer of [len] frames. *)
Definition in_bounds (len : Z) (seg : Segment) : Prop :=
  0 <= start seg /\ start seg < end_ seg /\ end_ seg <= len.

(** The starts of the segments are in non-decreasing order, from [lo] on. *)
Fixpoint starts_ascending (lo : Z) (segs : list Segment) : Prop :=
  match segs with
  | [] => True
  | s :: rest => lo <= start s /\ starts_ascending (start s) rest
  end.

(** No segment of the list starts before the end of the one in front of
    it. *)
Definition disjoint_in_order (segs : list Segment) : Prop :=
  match segs with
  | [] => True
  | s :: rest => separated s rest
  end.

(** The frames of a channel that a segment keeps, and the frames that a
    list of segments keeps, in order. *)
Definition slice (ch : list number) (seg : Segment) : list number :=
  take (Z.to_nat (end_ seg - start seg)) (drop (Z.to_nat (start seg)) ch).

Definition keep_segments (segs : list Segment) (ch : list number) : list number :=
  flat_map (slice ch) segs.

(** The segment holds a frame of the channel above the threshold. *)
Definition has_sound (channelData : list number) (thr : number) (seg : Segment) : Prop :=
  exists i x, covers seg (Z.of_nat i) /\ channelData !! i = Some x
              /\ num_gt (Math_abs x) thr = true.

(** The invariant of the scan after the frames before [k]: the open
    run starts before [k]; the emitted segments are non-empty, inside the
    buffer and in ascending order, and start at least [padding] frames
    before the open run (or before [k]); every frame above the threshold
    lies in an emitted segment or in the open run. *)
Definition scan_inv (channelData : list number) (thr : number) (padding : Z)
    (k : nat) (st : Z * list Segment) : Prop :=
  let '(ss, segs) := st in
  (ss = -1 \/ 0 <= ss < Z.of_nat k)
  /\ Forall (in_bounds (Z.of_nat (length channelData))) segs
  /\ starts_ascending 0 segs
  /\ Forall (fun s => start s = 0
                      \/ start s + padding < (if ss =? -1 then Z.of_nat k else ss)) segs
  /\ (forall i x, (i < k)%nat -> channelData !! i = Some x ->
        num_gt (Math_abs x) thr = true ->
        covered segs (Z.of_nat i) \/ (ss <> -1 /\ ss <= Z.of_nat i)).

(** The chunks of the block loop: chunk [k] holds the samples from
    [k * 1152] on, at most 1152 of them, of the left (or only) array, and
    the same range of the right array. *)
Definition mp3_chunk_count (n : nat) : nat := ((n + 1151) / 1152)%nat.

Definition mp3_chunk {A : Type} (pcm : list A) (k : nat) : list A :=
  take 1152 (drop (k * 1152) pcm).

Definition mp3_chunks (pcmLeft : list Z) (pcmRight : option (list Z))
  : list (list Z * option (list Z)) :=
  map (fun k => (mp3_chunk pcmLeft k, (fun r => mp3_chunk r k) <$> pcmRight))
      (seq 0 (mp3_chunk_count (length pcmLeft))).

(** The encoder fed with a list of chunks: its final state and the bytes
    it returned, call after call. *)
Definition feed_encoder {Mp3Encoder : Type}
    (encodeBuffer : Mp3Encoder -> list Z -> option (list Z) -> Mp3Encoder * list Z)
    (chunks : list (list Z * option (list Z))) (mp3encoder : Mp3Encoder)
  : Mp3Encoder * list Z :=
  fold_left (fun '(enc, bytes) '(l, r) =>
               let '(enc', mp3buf) := encodeBuffer enc l r in (enc', bytes ++ mp3buf))
            chunks (mp3encoder, []).

(** A selection over [clips] clips: indices of the list, none twice. *)
Definition valid_selection (clips : nat) (selectedClips : list nat) : Prop :=
  NoDup selectedClips /\ Forall (fun index => (index < clips)%nat) selectedClips.

(** An extension: at least one character, none of them a dot or a slash. *)
Definition plain_extension (ext : string) : Prop :=
  ext <> EmptyString
  /\ Forall (fun c => c <> "."%char /\ c <> "/"%char) (list_ascii_of_string ext).

(** The [n] frames of a channel from frame [s] on; a frame past the end of
    the channel is silence. *)
Definition region_frames (ch : list number) (s n : nat) : list number :=
  map (fun k => default (Fin 0) (ch !! (s + k)%nat)) (seq 0 n).

(** * Little-endian stores *)

Lemma length_le_bytes n v : length (le_bytes n v) = n.
Proof. revert v; induction n as [|n IH]; intros v; simpl; [done | by rewrite IH]. Qed.

Lemma le_bytes_range n v : Forall (fun b => 0 <= b < 256) (le_bytes n v).
Proof.
  revert v; induction n as [|n IH]; intros v; simpl; constructor; [|apply IH].
  apply Z.mod_pos_bound; lia.
Qed.

Lemma le_decode_le_bytes n v : le_decode (le_bytes n v) = v mod 256 ^ Z.of_nat n.
Proof.
  revert v; induction n as [|n IH]; intros v.
  - simpl. by rewrite Z.mod_1_r.
  - cbn [le_bytes le_decode]. rewrite IH, Nat2Z.inj_succ, Z.pow_succ_r by lia.
    rewrite Z.rem_mul_r by lia. lia.
Qed.

Lemma le_decode_le_bytes_fits n v :
  0 <= v < 256 ^ Z.of_nat n -> le_decode (le_bytes n v) = v.
Proof. intros H. rewrite le_decode_le_bytes. by apply Z.mod_small. Qed.

Lemma le_bytes_mod n v : le_bytes n (v mod 2 ^ (8 * Z.of_nat n)) = le_bytes n v.
Proof.
  revert v; induction n as [|n IH]; intros v; [done|].
  cbn [le_bytes].
  replace (2 ^ (8 * Z.of_nat (S n))) with (256 * 2 ^ (8 * Z.of_nat n)).
  2:{ rewrite Nat2Z.inj_succ, <- Z.add_1_r, Z.mul_add_distr_l, Z.pow_add_r by lia.
      change (2 ^ (8 * 1)) with 256. lia. }
  assert (Hp : 0 < 2 ^ (8 * Z.of_nat n)) by (apply Z.pow_pos_nonneg; lia).
  rewrite Z.rem_mul_r by lia.
  set (X := (v / 256) mod 2 ^ (8 * Z.of_nat n)).
  assert (Hb : 0 <= v mod 256 < 256) by (apply Z.mod_pos_bound; lia).
  f_equal.
  - rewrite (Z.mul_comm 256 X), Z.mod_add by lia. apply Z.mod_mod; lia.
  - rewrite <- (IH (v / 256)). f_equal. fold X.
    rewrite Z.add_comm, (Z.mul_comm 256 X), Z.div_add_l by lia.
    rewrite Z.div_small by lia. lia.
Qed.

Lemma store_le_spec n : forall v pre mid post,
  length mid = n ->
  store_le n v (length pre) (pre ++ mid ++ post) = pre ++ le_bytes n v ++ post.
Proof.
  induction n as [|n IH]; intros v pre mid post Hlen.
  - destruct mid; [done | discriminate].
  - destruct mid as [|m mid]; [discriminate|]. simpl in Hlen.
    cbn [store_le le_bytes].
    replace (<[length pre := Z.land v 255]> (pre ++ (m :: mid) ++ post))
      with ((pre ++ [Z.land v 255]) ++ mid ++ post).
    2:{ rewrite insert_app_r_alt, Nat.sub_diag by lia.
        simpl. by rewrite <- app_assoc. }
    replace (S (length pre)) with (length (pre ++ [Z.land v 255]))
      by (rewrite length_app; simpl; lia).
    rewrite IH by lia.
    rewrite <- app_assoc. simpl.
    change 255 with (Z.ones 8). rewrite Z.land_ones by lia.
    rewrite Z.shiftr_div_pow2 by lia. done.
Qed.

Lemma DataView_set_app n pre rest v :
  (n <= length rest)%nat ->
  DataView_set n (pre ++ rest) (length pre) v
  = Ok (pre ++ le_bytes n v ++ drop n rest).
Proof.
  intros Hn. unfold DataView_set.
  rewrite decide_True by (rewrite length_app; lia).
  f_equal.
  rewrite <- (take_drop n rest) at 1.
  rewrite store_le_spec by (rewrite length_take; lia).
  by rewrite le_bytes_mod.
Qed.

(** ** What bufferToWave writes *)

Lemma setUint32_app pre rest data off :
  (4 <= length rest)%nat ->
  setUint32 data {| view := pre ++ rest; pos := length pre; offset := off |}
  = Ok {| view := (pre ++ le_bytes 4 data) ++ drop 4 rest;
          pos := length (pre ++ le_bytes 4 data); offset := off |}.
Proof.
  intros H. unfold setUint32, DataView_setUint32. cbn [view pos offset].
  rewrite DataView_set_app by done. cbn [mbind result_bind].
  rewrite length_app, length_le_bytes, <- app_assoc. done.
Qed.

Lemma setUint16_app pre rest data off :
  (2 <= length rest)%nat ->
  setUint16 data {| view := pre ++ rest; pos := length pre; offset := off |}
  = Ok {| view := (pre ++ le_bytes 2 data) ++ drop 2 rest;
          pos := length (pre ++ le_bytes 2 data); offset := off |}.
Proof.
  intros H. unfold setUint16, DataView_setUint16. cbn [view pos offset].
  rewrite DataView_set_app by done. cbn [mbind result_bind].
  rewrite length_app, length_le_bytes, <- app_assoc. done.
Qed.

Lemma length_riff_header c r n : length (riff_header c r n) = 44%nat.
Proof. unfold riff_header. rewrite !length_app, !length_le_bytes. done. Qed.

Lemma write_header_spec c r n :
  write_header c r (n * c * 2)
    {| view := replicate (44 + n * c * 2) 0; pos := 0; offset := 0 |}
  = Ok {| view := riff_header c r n ++ replicate (n * c * 2) 0;
          pos := 44; offset := 0 |}.
Proof.
  unfold write_header.
  change (replicate (44 + n * c * 2) 0)
    with ([] ++ replicate (44 + n * c * 2) 0).
  change 0%nat with (length (@nil Z)) at 2.
  repeat
    (first [ rewrite setUint32_app
               by (rewrite ?length_drop, length_replicate; lia)
           | rewrite setUint16_app
               by (rewrite ?length_drop, length_replicate; lia) ];
     cbn [mbind result_bind]).
  rewrite !drop_drop, drop_replicate.
  rewrite !length_app, !length_le_bytes. cbn [length Nat.add].
  f_equal. f_equal.
  unfold riff_header. rewrite <- !app_assoc. cbn [app].
  replace (Z.of_nat (n * c * 2) + 36) with (36 + Z.of_nat n * Z.of_nat c * 2) by lia.
  replace (Z.of_nat (n * c * 2)) with (Z.of_nat n * Z.of_nat c * 2) by lia.
  replace (r * 2 * Z.of_nat c) with (r * Z.of_nat c * 2) by lia.
  change (le_bytes 4 1179011410) with [82; 73; 70; 70].
  change (le_bytes 4 1163280727) with [87; 65; 86; 69].
  change (le_bytes 4 544501094) with [102; 109; 116; 32].
  change (le_bytes 4 1635017060) with [100; 97; 116; 97].
  cbn [app]. repeat f_equal. lia.
Qed.

Lemma length_frame_bytes channels k :
  length (frame_bytes channels k) = (2 * length channels)%nat.
Proof.
  unfold frame_bytes. induction channels as [|ch chs IH]; [done|].
  cbn [flat_map]. rewrite length_app, length_le_bytes, IH. simpl. lia.
Qed.

Lemma length_wav_data channels n :
  length (wav_data channels n) = (n * length channels * 2)%nat.
Proof.
  unfold wav_data. generalize 0%nat at 1.
  induction n as [|n IH]; intros k; [done|].
  cbn [seq flat_map]. rewrite length_app, length_frame_bytes, IH. lia.
Qed.

Lemma write_sample_app channels k i pre rest :
  (2 <= length rest)%nat ->
  let bs := le_bytes 2 (quantize_sample (channels !! i ≫= (fun ch => ch !! k))) in
  write_sample channels {| view := pre ++ rest; pos := length pre; offset := k |} i
  = Ok {| view := (pre ++ bs) ++ drop 2 rest; pos := length (pre ++ bs); offset := k |}.
Proof.
  intros H bs. unfold write_sample, DataView_setInt16. cbn [view pos offset].
  rewrite DataView_set_app by done. cbn [mbind result_bind].
  subst bs. rewrite length_app, length_le_bytes, <- app_assoc. done.
Qed.

Lemma write_samples_spec channels k idxs : forall pre rest,
  (2 * length idxs <= length rest)%nat ->
  for_each (write_sample channels) idxs
    {| view := pre ++ rest; pos := length pre; offset := k |}
  = Ok {| view :=
            (pre ++ flat_map (fun i => le_bytes 2
                       (quantize_sample (channels !! i ≫= (fun ch => ch !! k)))) idxs)
            ++ drop (2 * length idxs) rest;
          pos := (length pre + 2 * length idxs)%nat; offset := k |}.
Proof.
  induction idxs as [|i idxs IH]; intros pre rest Hlen.
  - cbn [for_each flat_map length]. rewrite app_nil_r, Nat.add_0_r. done.
  - cbn [for_each length] in *.
    rewrite write_sample_app by lia. cbn [mbind result_bind].
    rewrite IH by (rewrite length_drop; lia).
    rewrite drop_drop, length_app, length_le_bytes.
    cbn [flat_map]. rewrite <- !app_assoc.
    replace (2 + 2 * length idxs)%nat with (2 * S (length idxs))%nat by lia.
    replace (length pre + 2 + 2 * length idxs)%nat
      with (length pre + 2 * S (length idxs))%nat by lia.
    done.
Qed.

Lemma flat_map_lookup_seq {A B : Type} (F : option A -> list B) (l : list A) :
  forall pre,
  flat_map (fun i => F ((pre ++ l) !! i)) (seq (length pre) (length l))
  = flat_map (fun x => F (Some x)) l.
Proof.
  induction l as [|x l IH]; intros pre; [done|].
  cbn [length seq flat_map]. f_equal.
  - by rewrite list_lookup_middle.
  - specialize (IH (pre ++ [x])).
    rewrite <- app_assoc, length_app in IH. cbn [app length] in IH.
    rewrite Nat.add_1_r in IH. done.
Qed.

Lemma channel_frame_bytes channels k :
  flat_map (fun i => le_bytes 2
     (quantize_sample (channels !! i ≫= (fun ch => ch !! k))))
     (seq 0 (length channels))
  = frame_bytes channels k.
Proof.
  unfold frame_bytes.
  pose proof (flat_map_lookup_seq
    (fun o => le_bytes 2 (quantize_sample (o ≫= (fun ch : list number => ch !! k))))
    channels []) as H.
  cbn [app length] in H. exact H.
Qed.

Lemma write_frame_spec channels k pre rest :
  (2 * length channels <= length rest)%nat ->
  write_frame channels (length channels)
    {| view := pre ++ rest; pos := length pre; offset := k |}
  = Ok {| view := (pre ++ frame_bytes channels k) ++ drop (2 * length channels) rest;
          pos := length (pre ++ frame_bytes channels k); offset := S k |}.
Proof.
  intros H. unfold write_frame.
  rewrite write_samples_spec by (rewrite length_seq; lia).
  cbn [mbind result_bind view pos offset].
  rewrite length_seq, channel_frame_bytes, length_app, length_frame_bytes. done.
Qed.

Lemma interleave_spec channels len m : forall fuel k pre,
  (m < fuel)%nat -> (k + m = len)%nat -> (0 < length channels)%nat ->
  length pre = (44 + k * length channels * 2)%nat ->
  while_loop fuel (fun s => Nat.ltb (pos s) (44 + len * length channels * 2))
    (write_frame channels (length channels))
    {| view := pre ++ replicate (m * length channels * 2) 0;
       pos := length pre; offset := k |}
  = Some (Ok {| view := pre ++ flat_map (frame_bytes channels) (seq k m);
                pos := (44 + len * length channels * 2)%nat; offset := len |}).
Proof.
  induction m as [|m IH]; intros fuel k pre Hfuel Hk Hc Hpre.
  - destruct fuel as [|fuel]; [lia|]. cbn [while_loop pos].
    replace (length pre <? 44 + len * length channels * 2)%nat with false
      by (symmetry; apply Nat.ltb_ge; nia).
    cbn [seq flat_map Nat.mul replicate]. do 3 f_equal; nia.
  - destruct fuel as [|fuel]; [lia|]. cbn [while_loop pos].
    replace (length pre <? 44 + len * length channels * 2)%nat with true
      by (symmetry; apply Nat.ltb_lt; nia).
    rewrite write_frame_spec by (rewrite length_replicate; nia).
    rewrite drop_replicate.
    replace (S m * length channels * 2 - 2 * length channels)%nat
      with (m * length channels * 2)%nat by nia.
    rewrite IH; [| lia | lia | done |].
    + cbn [seq flat_map]. by rewrite <- app_assoc.
    + rewrite length_app, length_frame_bytes. nia.
Qed.

Lemma collect_channels b m : forall k acc,
  (k + m <= numberOfChannels b)%nat ->
  for_each (fun chans i => ch ← getChannelData b i; Ok (chans ++ [ch])) (seq k m) acc
  = Ok (acc ++ take m (drop k (AudioBuffer.channelData b))).
Proof.
  unfold numberOfChannels.
  induction m as [|m IH]; intros k acc Hk.
  - cbn [seq for_each take]. by rewrite app_nil_r.
  - cbn [seq for_each].
    destruct (AudioBuffer.channelData b !! k) as [ch|] eqn:Hch.
    2:{ apply lookup_ge_None in Hch. lia. }
    assert (Hg : getChannelData b k = Ok ch)
      by (unfold getChannelData; by rewrite Hch).
    rewrite Hg. cbn [mbind result_bind]. rewrite IH by lia.
    rewrite (drop_S _ _ _ Hch). cbn [take]. by rewrite <- app_assoc.
Qed.

Lemma wav_data_nil n : wav_data [] n = [].
Proof.
  unfold wav_data. generalize 0%nat.
  induction n as [|n IH]; intros k; [done|]. cbn [seq flat_map]. by rewrite IH.
Qed.

(** Any fuel above the number of frames lets the loop finish, and the
    serializer then returns the header followed by the interleaved data. *)
Lemma bufferToWave_fuel_enough fuel b len :
  (len < fuel)%nat ->
  bufferToWave_fuel fuel b len
  = Some (Ok (riff_header (numberOfChannels b) (AudioBuffer.sampleRate b) len
              ++ wav_data (AudioBuffer.channelData b) len)).
Proof.
  intros Hfuel. unfold bufferToWave_fuel.
  rewrite write_header_spec.
  rewrite (collect_channels b (numberOfChannels b) 0 []) by lia.
  rewrite drop_0, app_nil_l.
  replace (take (numberOfChannels b) (AudioBuffer.channelData b))
    with (AudioBuffer.channelData b) by (symmetry; apply firstn_all).
  destruct (AudioBuffer.channelData b) as [|ch chs] eqn:Hchs.
  - unfold numberOfChannels. rewrite Hchs. cbn [length].
    destruct fuel as [|fuel]; [lia|]. cbn [while_loop pos].
    replace (44 <? 44 + len * 0 * 2)%nat with false
      by (symmetry; apply Nat.ltb_ge; lia).
    cbn [mbind option_bind result_bind view].
    replace (len * 0 * 2)%nat with 0%nat by lia.
    by rewrite wav_data_nil.
  - rewrite <- Hchs. unfold numberOfChannels.
    pose proof (interleave_spec (AudioBuffer.channelData b) len len fuel 0
      (riff_header (length (AudioBuffer.channelData b)) (AudioBuffer.sampleRate b) len))
      as H.
    rewrite length_riff_header in H.
    rewrite H; [done | lia | lia | rewrite Hchs; simpl; lia | lia].
Qed.

Lemma bufferToWave_spec b len :
  bufferToWave b len
  = Ok (riff_header (numberOfChannels b) (AudioBuffer.sampleRate b) len
        ++ wav_data (AudioBuffer.channelData b) len).
Proof. unfold bufferToWave. by rewrite bufferToWave_fuel_enough by lia. Qed.

Lemma wav_data_range channels n : Forall (fun x => 0 <= x < 256) (wav_data channels n).
Proof.
  unfold wav_data, frame_bytes.
  apply List.Forall_forall. intros x Hx.
  apply in_flat_map in Hx as (k & _ & Hx).
  apply in_flat_map in Hx as (ch & _ & Hx).
  revert x Hx. apply List.Forall_forall, le_bytes_range.
Qed.

Lemma riff_header_range c r n : Forall (fun x => 0 <= x < 256) (riff_header c r n).
Proof.
  unfold riff_header.
  repeat (apply Forall_app; split); try apply le_bytes_range;
    repeat constructor; lia.
Qed.

(** ** Clamping and scaling *)

Lemma quot_bounds (a d m : Z) :
  0 < d -> - m * d <= a <= m * d -> - m <= a ÷ d <= m.
Proof.
  intros Hd [Hlo Hhi]. split.
  - transitivity ((- m * d) ÷ d); [by rewrite Z.quot_mul by lia|].
    apply Z.quot_le_mono; lia.
  - transitivity ((m * d) ÷ d); [|by rewrite Z.quot_mul by lia].
    apply Z.quot_le_mono; lia.
Qed.

Lemma wrap_signed_16_small (v : Z) : -32768 <= v < 32768 -> wrap_signed 16 v = v.
Proof.
  intros Hv. unfold wrap_signed.
  change (2 ^ (16 - 1)) with 32768. change (2 ^ 16) with 65536.
  rewrite Z.mod_small by lia. lia.
Qed.

Lemma clamp_finite (q : Q) :
  Math_max (of_Z (-1)) (Math_min (of_Z 1) (Fin q)) = Fin (clampQ q).
Proof.
  unfold Math_min, Math_max, of_Z, clampQ. cbn [num_lt].
  change (inject_Z 1) with (1 : Q). change (inject_Z (-1)) with (-1 : Q).
  destruct (Qltb q 1); [destruct (Qltb (-1) q)|]; reflexivity.
Qed.

Lemma clampQ_range (q : Q) :
  - QDen (clampQ q) <= Qnum (clampQ q) <= QDen (clampQ q).
Proof.
  unfold clampQ, Qltb. destruct q as [n d]. cbn [Qnum Qden].
  destruct (n * 1 <? 1 * Z.pos d) eqn:H1; [|cbn; lia].
  destruct (-1 * Z.pos d <? n * 1) eqn:H2; [|cbn; lia].
  apply Z.ltb_lt in H1, H2. cbn [Qnum Qden]. lia.
Qed.

(** A clamped value scaled by [k] and truncated stays within [-k, k]. *)
Lemma Qtrunc_scaled_bounds (q : Q) (k : Z) :
  0 <= k -> - k <= Qtrunc (clampQ q * inject_Z k) <= k.
Proof.
  intros Hk. pose proof (clampQ_range q) as Hc.
  unfold Qtrunc. destruct (clampQ q) as [n d]. cbn in *.
  apply (quot_bounds (n * k) (Z.pos (d * 1)) k); nia.
Qed.

Lemma wrap_signed_32_small (v : Z) :
  -2147483648 <= v < 2147483648 -> wrap_signed 32 v = v.
Proof.
  intros Hv. unfold wrap_signed.
  change (2 ^ (32 - 1)) with 2147483648. change (2 ^ 32) with 4294967296.
  rewrite Z.mod_small by lia. lia.
Qed.

Lemma half_plus_negative (c : Q) :
  Qltb ((1 # 2) + c) (inject_Z 0) = Qltb c (-1 # 2).
Proof.
  unfold Qltb, Qplus. destruct c as [n d]. cbn [Qnum Qden inject_Z Qmult].
  destruct (Z.ltb_spec (n * 2) (-1 * Z.pos d)) as [H | H].
  - apply Z.ltb_lt. lia.
  - apply Z.ltb_ge. lia.
Qed.

(** What the serializer computes on a finite sample: the clamped value is
    scaled by 32768 when it lies below -1/2, and by 32767 otherwise. *)
Lemma quantize_sample_rule (q : Q) :
  quantize_sample (Some (Fin q))
  = if Qltb (clampQ q) (-1 # 2)
    then Qtrunc (clampQ q * 32768)
    else Qtrunc (clampQ q * 32767).
Proof.
  unfold quantize_sample, or_zero.
  destruct (Qeqb q 0) eqn:H0.
  - unfold Qeqb in H0. apply Z.eqb_eq in H0. destruct q as [n d]. cbn in H0.
    assert (n = 0) by lia. subst n. reflexivity.
  - rewrite clamp_finite. cbn [num_add num_lt num_mul of_Z].
    rewrite half_plus_negative.
    pose proof (Qtrunc_scaled_bounds q 32768 ltac:(lia)) as Hb1.
    pose proof (Qtrunc_scaled_bounds q 32767 ltac:(lia)) as Hb2.
    change (inject_Z 32768) with (32768 : Q) in *.
    change (inject_Z 32767) with (32767 : Q) in *.
    destruct (Qltb (clampQ q) (-1 # 2)); cbn [ToInt32];
      apply wrap_signed_32_small; lia.
Qed.

(** The rule of the specification on a finite sample: the clamped value
    is scaled by 32768 when it is negative, and by 32767 otherwise. *)
Lemma spec_quantize_rule (q : Q) :
  spec_quantize (Fin q)
  = if Qltb (clampQ q) 0
    then Qtrunc (clampQ q * 32768)
    else Qtrunc (clampQ q * 32767).
Proof.
  unfold spec_quantize. rewrite clamp_finite. cbn [num_lt num_mul of_Z].
  change (inject_Z 0) with (0 : Q).
  pose proof (Qtrunc_scaled_bounds q 32768 ltac:(lia)) as Hb1.
  pose proof (Qtrunc_scaled_bounds q 32767 ltac:(lia)) as Hb2.
  change (inject_Z 32768) with (32768 : Q) in *.
  change (inject_Z 32767) with (32767 : Q) in *.
  destruct (Qltb (clampQ q) 0) eqn:Hneg; cbn [ToInt16].
  - apply wrap_signed_16_small. split; [lia|].
    assert (Qtrunc (clampQ q * 32768) <= 0); [|lia].
    unfold Qtrunc, Qltb in *. destruct (clampQ q) as [n d]. cbn in *.
    apply Z.ltb_lt in Hneg. apply Z.quot_le_upper_bound; lia.
  - apply wrap_signed_16_small. lia.
Qed.

(** Code and specification agree on every finite sample whose clamped
    value is not in [-1/2, 0). *)
Lemma quantize_sample_agrees (q : Q) :
  Qltb (clampQ q) (-1 # 2) = Qltb (clampQ q) 0 ->
  quantize_sample (Some (Fin q)) = spec_quantize (Fin q).
Proof.
  intros H. rewrite quantize_sample_rule, spec_quantize_rule, H. reflexivity.
Qed.

(** ** The WAV serializer *)

(** C2. For a buffer of [c] channels at rate [r], [bufferToWave b n]
    returns the canonical 44-byte header -- "RIFF", chunk size 36 + n*c*2,
    "WAVE", "fmt " of size 16 with format 1, [c], [r], byte rate r*c*2,
    block align c*2, 16 bits per sample, "data" of size n*c*2, every
    integer little-endian -- followed by the samples, frame after frame
    with channel 0 first, whenever the values fit their fields. *)
Theorem bufferToWave_canonical_layout (b : AudioBuffer) (n : nat) :
  0 <= AudioBuffer.sampleRate b < 2 ^ 32 ->
  AudioBuffer.sampleRate b * Z.of_nat (numberOfChannels b) * 2 < 2 ^ 32 ->
  36 + Z.of_nat n * Z.of_nat (numberOfChannels b) * 2 < 2 ^ 32 ->
  Z.of_nat (numberOfChannels b) * 2 < 2 ^ 16 ->
  exists header data,
    bufferToWave b n = Ok (header ++ data) /\ canonical_wav b n header data.
Proof.
  intros Hr Hrate Hsize Halign.
  exists (riff_header (numberOfChannels b) (AudioBuffer.sampleRate b) n),
         (wav_data (AudioBuffer.channelData b) n).
  split; [apply bufferToWave_spec|].
  unfold canonical_wav. cbv zeta.
  set (c := numberOfChannels b) in *. set (r := AudioBuffer.sampleRate b) in *.
  assert (Hf4 : forall v, 0 <= v < 2 ^ 32 -> le_decode (le_bytes 4 v) = v)
    by (intros v Hv; apply le_decode_le_bytes_fits; exact Hv).
  assert (Hf2 : forall v, 0 <= v < 2 ^ 16 -> le_decode (le_bytes 2 v) = v)
    by (intros v Hv; apply le_decode_le_bytes_fits; exact Hv).
  split; [apply length_riff_header|].
  split; [apply Forall_app; split; [apply riff_header_range | apply wav_data_range]|].
  split; [reflexivity|].
  split; [change (field 4 4 (riff_header c r n))
            with (le_bytes 4 (36 + Z.of_nat n * Z.of_nat c * 2)); apply Hf4; lia|].
  split; [reflexivity|].
  split; [reflexivity|].
  split; [reflexivity|].
  split; [reflexivity|].
  split; [change (field 22 2 (riff_header c r n)) with (le_bytes 2 (Z.of_nat c));
          apply Hf2; lia|].
  split; [change (field 24 4 (riff_header c r n)) with (le_bytes 4 r); apply Hf4; lia|].
  split; [change (field 28 4 (riff_header c r n))
            with (le_bytes 4 (r * Z.of_nat c * 2)); apply Hf4; lia|].
  split; [change (field 32 2 (riff_header c r n)) with (le_bytes 2 (Z.of_nat c * 2));
          apply Hf2; lia|].
  split; [reflexivity|].
  split; [reflexivity|].
  split; [change (field 40 4 (riff_header c r n))
            with (le_bytes 4 (Z.of_nat n * Z.of_nat c * 2)); apply Hf4; lia|].
  split; [rewrite length_wav_data; unfold c, numberOfChannels;
          change 2 with (Z.of_nat 2); by rewrite <- !Nat2Z.inj_mul, Nat2Z.id|].
  reflexivity.
Qed.

Lemma bufferToWave_canonical_layout_witness :
  exists header data,
    bufferToWave stereo_example 2 = Ok (header ++ data)
    /\ canonical_wav stereo_example 2 header data.
Proof.
  apply (bufferToWave_canonical_layout stereo_example 2); cbn; lia.
Defined.

(** C1, the code at a sample the claim covers: the clamped value -1/2 is
    negative, so the rule of the claim scales it by 32768 and gives
    -16384; the serializer tests [0.5 + sample < 0], scales by 32767 and
    writes -16383 (bytes 01 C0). *)
Theorem bufferToWave_minus_half_scaled_by_32767 :
  quantize_sample (Some (Fin (-1 # 2))) = -16383
  /\ spec_quantize (Fin (-1 # 2)) = -16384
  /\ bufferToWave half_scale_example 1
     = Ok (riff_header 1 44100 1 ++ le_bytes 2 (-16383))
  /\ le_bytes 2 (-16383) = [1; 192]
  /\ le_bytes 2 (-16384) = [0; 192].
Proof. split; [|split; [|split; [|split]]]; vm_compute; reflexivity. Qed.

Lemma length_flat_map_uniform {A B : Type} (f : A -> list B) (m : nat) (l : list A) :
  (forall y, length (f y) = m) -> length (flat_map f l) = (length l * m)%nat.
Proof.
  intros Hf. induction l as [|x l IH]; [done|].
  cbn [flat_map length]. rewrite length_app, Hf, IH. lia.
Qed.

Lemma flat_map_block {A B : Type} (f : A -> list B) (m : nat) (l : list A) i x :
  (forall y, length (f y) = m) -> l !! i = Some x ->
  exists pre post, flat_map f l = pre ++ f x ++ post /\ length pre = (i * m)%nat.
Proof.
  intros Hf Hi.
  apply list_elem_of_split_length in Hi as (l1 & l2 & -> & ->).
  exists (flat_map f l1), (flat_map f l2). split.
  - by rewrite flat_map_app.
  - by apply length_flat_map_uniform.
Qed.

(** The word of frame [k], channel [i] holds the quantized read of that
    channel at index [k]. *)
Lemma sample_word_spec header channels len k i ch :
  length header = 44%nat -> (k < len)%nat -> channels !! i = Some ch ->
  sample_word (header ++ wav_data channels len) (length channels) k i
  = le_bytes 2 (quantize_sample (ch !! k)).
Proof.
  intros Hh Hk Hi. unfold sample_word, field, wav_data.
  destruct (flat_map_block (frame_bytes channels) (2 * length channels)
              (seq 0 len) k k) as (pre1 & post1 & -> & Hpre1).
  { intros y. apply length_frame_bytes. }
  { by rewrite lookup_seq_lt. }
  unfold frame_bytes at 1.
  destruct (flat_map_block
              (fun ch0 : list number => le_bytes 2 (quantize_sample (ch0 !! k)))
              2 channels i ch) as (pre2 & post2 & -> & Hpre2); [|done|].
  { intros y. apply length_le_bytes. }
  replace (header ++ pre1 ++ (pre2 ++ le_bytes 2 (quantize_sample (ch !! k)) ++ post2)
           ++ post1)
    with ((header ++ pre1 ++ pre2)
          ++ le_bytes 2 (quantize_sample (ch !! k)) ++ (post2 ++ post1))
    by (by rewrite <- !app_assoc).
  rewrite drop_app_length'
    by (rewrite !length_app, Hh, Hpre1, Hpre2; lia).
  by rewrite take_app_length' by (by rewrite length_le_bytes).
Qed.

(** C10 as amended. [bufferToWave b len] never faults and returns exactly
    44 + len * channels * 2 bytes; a frame index at or beyond the length of
    a channel array, and a NaN sample, are written as the 16-bit value 0;
    an infinite sample is clamped like any out-of-range value: +Infinity
    is written as 32767 and -Infinity as -32768. *)
Theorem bufferToWave_length_and_fill (b : AudioBuffer) (len : nat) :
  exists bytes,
    bufferToWave b len = Ok bytes /\
    length bytes = (44 + len * numberOfChannels b * 2)%nat /\
    forall k i ch, (k < len)%nat -> AudioBuffer.channelData b !! i = Some ch ->
      let word := sample_word bytes (numberOfChannels b) k i in
      ((length ch <= k)%nat -> word = le_bytes 2 0) /\
      (ch !! k = Some NaN -> word = le_bytes 2 0) /\
      (ch !! k = Some PInf -> word = le_bytes 2 32767) /\
      (ch !! k = Some NInf -> word = le_bytes 2 (-32768)).
Proof.
  eexists. split; [apply bufferToWave_spec|]. split.
  - rewrite length_app, length_riff_header, length_wav_data. done.
  - intros k i ch Hk Hi word. subst word. unfold numberOfChannels.
    rewrite (sample_word_spec _ _ _ _ _ ch) by (done || apply length_riff_header).
    repeat split.
    + intros Hlen. by rewrite lookup_ge_None_2 by lia.
    + by intros ->.
    + by intros ->.
    + by intros ->.
Qed.

(** C10 as stated fails on an infinite sample: the stored +Infinity is
    written as the word FF 7F, which reads back as 32767, and not as 0. *)
Lemma bufferToWave_infinity_written_as_32767 :
  exists bytes,
    bufferToWave infinite_example 1 = Ok bytes
    /\ sample_word bytes 1 0 0 = [255; 127]
    /\ le_decode [255; 127] = 32767
    /\ sample_word bytes 1 0 0 <> le_bytes 2 0.
Proof.
  exists (riff_header 1 44100 1 ++ [255; 127]).
  split; [|split; [|split]]; [vm_compute; reflexivity ..|].
  vm_compute. discriminate.
Qed.

(** ** Silence detection and merging *)

Lemma merge_fold_merge_from rest : forall front last,
  (let '(front', last') := fold_left merge_step rest (front, last) in front' ++ [last'])
  = front ++ merge_from last rest.
Proof.
  induction rest as [|s rest IH]; intros front last; [done|].
  cbn [fold_left merge_from]. unfold merge_step at 2.
  destruct (start s <? end_ last).
  - apply IH.
  - rewrite IH, <- app_assoc. done.
Qed.

Lemma mergeOverlapping_cons first rest :
  mergeOverlapping (first :: rest) = merge_from first rest.
Proof. unfold mergeOverlapping. apply (merge_fold_merge_from rest [] first). Qed.

Lemma merge_from_separated rest : forall cur,
  exists cur' rest',
    merge_from cur rest = cur' :: rest'
    /\ start cur' = start cur /\ separated cur' rest'.
Proof.
  induction rest as [|s rest IH]; intros cur.
  - exists cur, []. done.
  - cbn [merge_from]. destruct (start s <? end_ cur) eqn:Hlt.
    + destruct (IH {| start := start cur; end_ := Z.max (end_ cur) (end_ s) |})
        as (cur' & rest' & -> & Hstart & Hsep).
      exists cur', rest'. done.
    + destruct (IH s) as (cur' & rest' & -> & Hstart & Hsep).
      exists cur, (cur' :: rest'). repeat split; [|done].
      apply Z.ltb_ge in Hlt. lia.
Qed.

Lemma merge_from_fixed rest : forall cur,
  separated cur rest -> merge_from cur rest = cur :: rest.
Proof.
  induction rest as [|s rest IH]; intros cur Hsep; [done|].
  destruct Hsep as [Hle Hsep]. cbn [merge_from].
  replace (start s <? end_ cur) with false by (symmetry; apply Z.ltb_ge; lia).
  by rewrite IH.
Qed.

(** C8. Merging is idempotent: the fold that extends the current
    segment's end to the maximum when the next segment starts before it,
    and starts a new current segment otherwise, leaves its own output
    unchanged. *)
Theorem mergeOverlapping_idempotent (s : list Segment) :
  mergeOverlapping (mergeOverlapping s) = mergeOverlapping s.
Proof.
  destruct s as [|first rest]; [done|].
  rewrite mergeOverlapping_cons.
  destruct (merge_from_separated rest first) as (cur & rest' & -> & _ & Hsep).
  rewrite mergeOverlapping_cons. by apply merge_from_fixed.
Qed.

Lemma scan_invariant channelData thr padding m : forall k ss segs,
  ss = -1 \/ 0 <= ss < Z.of_nat k ->
  Forall (padded_run (Z.of_nat (length channelData)) padding) segs ->
  exists ss' segs',
    fold_left (scan_step channelData thr padding) (seq k m) (ss, segs) = (ss', segs')
    /\ (ss' = -1 \/ 0 <= ss' < Z.of_nat (k + m))
    /\ Forall (padded_run (Z.of_nat (length channelData)) padding) segs'.
Proof.
  induction m as [|m IH]; intros k ss segs Hss Hsegs.
  - exists ss, segs. cbn [seq fold_left]. repeat split; [lia | done].
  - cbn [seq fold_left].
    destruct (scan_step channelData thr padding (ss, segs) k) as [ss1 segs1] eqn:Hstep.
    destruct (IH (S k) ss1 segs1) as (ss' & segs' & Hfold & Hss' & Hsegs').
    + unfold scan_step in Hstep.
      destruct (num_gt _ thr && (ss =? -1)).
      { injection Hstep as <- <-. lia. }
      destruct (num_lt _ thr && negb (ss =? -1)).
      { injection Hstep as <- <-. lia. }
      injection Hstep as <- <-. lia.
    + unfold scan_step in Hstep.
      destruct (num_gt _ thr && (ss =? -1)).
      { by injection Hstep as <- <-. }
      destruct (num_lt _ thr && negb (ss =? -1)) eqn:Hclose.
      2:{ by injection Hstep as <- <-. }
      injection Hstep as <- <-. apply Forall_app. split; [done|].
      apply Forall_singleton. exists ss, (Z.of_nat k). split; [|done].
      apply andb_true_iff in Hclose as [_ Hne].
      apply negb_true_iff, Z.eqb_neq in Hne. lia.
    + exists ss', segs'. split; [done|]. split; [|done]. lia.
Qed.

(** What the detector emits: the runs that closed inside the buffer, each
    padded on both sides, and after them, when a run is still open at the
    end, that run from its first frame to the end of the buffer. *)
Lemma detectSegments_shape channelData thr padding :
  exists closed open,
    detectSegments channelData thr padding = closed ++ open
    /\ Forall (padded_run (Z.of_nat (length channelData)) padding) closed
    /\ (open = []
        \/ exists s, 0 <= s < Z.of_nat (length channelData)
             /\ open = [{| start := s; end_ := Z.of_nat (length channelData) |}]).
Proof.
  unfold detectSegments.
  destruct (scan_invariant channelData thr padding (length channelData) 0 (-1) [])
    as (ss & segs & -> & Hss & Hsegs); [by left | done |].
  destruct (ss =? -1) eqn:Hopen; cbn [negb].
  - exists segs, []. rewrite app_nil_r. repeat split; [done|by left].
  - apply Z.eqb_neq in Hopen.
    exists segs, [{| start := ss; end_ := Z.of_nat (length channelData) |}].
    repeat split; [done|]. right. exists ss. split; [lia|done].
Qed.

(** C3, the code at an input the claim covers: at 44100 Hz the padding is
    4410 frames; on the channel 0, 0, 0.5 the sound opens at frame 2 and
    is still open at the end of the buffer.  The claim gives the segment
    the start max(0, 2 - 4410) = 0; the detector emits it with start 2,
    unpadded, while the same sound closed by a quiet frame is emitted
    with the padded start 0. *)
Theorem detectSegments_open_segment_start_unpadded :
  paddingSamples 44100 = 4410
  /\ detectSegments [Fin 0; Fin 0; Fin (1 # 2)] (Fin (1 # 10)) (paddingSamples 44100)
     = [{| start := 2; end_ := 3 |}]
  /\ detectSegments [Fin 0; Fin 0; Fin (1 # 2); Fin 0] (Fin (1 # 10))
       (paddingSamples 44100)
     = [{| start := 0; end_ := 4 |}].
Proof. split; [|split]; vm_compute; reflexivity. Qed.

(** ** Silence removal on silent input *)

Lemma scan_step_zero_sample channelData thr padding segs i x :
  channelData !! i = Some x -> num_eq x (of_Z 0) = true -> (0 < thr)%Q ->
  scan_step channelData (Fin thr) padding (-1, segs) i = (-1, segs).
Proof.
  intros Hi Hx Hthr. unfold scan_step. rewrite Hi. cbn [read_number].
  destruct x as [q| | |]; try discriminate.
  cbn [Math_abs]. unfold num_gt, num_lt.
  replace (Qltb thr (Qabs q)) with false; [by rewrite Z.eqb_refl, andb_false_r|].
  symmetry. unfold Qltb. apply Z.ltb_ge.
  cbn in Hx. unfold Qeqb in Hx. cbn in Hx. apply Z.eqb_eq in Hx.
  assert (Hq : Qnum q = 0) by lia.
  destruct q as [qn qd]. cbn in *. subst qn. cbn.
  unfold Qlt in Hthr. cbn in Hthr. nia.
Qed.

Lemma detectSegments_silent channelData thr padding :
  Forall (fun x => num_eq x (of_Z 0) = true) channelData -> (0 < thr)%Q ->
  detectSegments channelData (Fin thr) padding = [].
Proof.
  intros Hzero Hthr. unfold detectSegments.
  assert (Hfold : forall idxs, Forall (fun i => (i < length channelData)%nat) idxs ->
    fold_left (scan_step channelData (Fin thr) padding) idxs (-1, []) = (-1, [])).
  { induction idxs as [|i idxs IH]; intros Hidx; [done|].
    apply Forall_cons in Hidx as [Hi Hidx]. cbn [fold_left].
    destruct (lookup_lt_is_Some_2 channelData i Hi) as [x Hx].
    rewrite (scan_step_zero_sample _ _ _ _ _ x); [by apply IH|done| |done].
    eapply Forall_lookup_1 in Hzero; [exact Hzero | exact Hx]. }
  rewrite Hfold; [done|].
  apply Forall_seq. intros j Hj. lia.
Qed.

Lemma createBuffer_one_frame b :
  wf_buffer b ->
  createBuffer (numberOfChannels b) 1 (AudioBuffer.sampleRate b)
  = Ok (one_frame_of_silence b).
Proof.
  intros (Hc & _ & Hr & _). unfold createBuffer.
  rewrite decide_False by lia. done.
Qed.

Section SilenceRemoval.

Variable pow10 : Q -> Q.

(** [Math.pow(10, x)] is positive for exponents from -9/2 on (thresholds
    from -90 dB on). *)
Hypothesis pow10_pos : forall x : Q, (-9 # 2 <= x)%Q -> (0 < pow10 x)%Q.

(** C6. On an all-zero buffer, under any threshold of at least -90 dB,
    silence removal returns a buffer of exactly one frame whose samples
    are all zero, with the channel count and sample rate of the input;
    and it returns that same one-frame buffer whenever the merged
    segments cover zero frames in total. *)
Theorem removeSilence_one_frame_policy (b : AudioBuffer) (thresholdDb : Z) :
  wf_buffer b ->
  (-90 <= thresholdDb -> all_zero b ->
   removeSilence pow10 thresholdDb b = Ok (one_frame_of_silence b))
  /\ (forall channelData,
        getChannelData b 0 = Ok channelData ->
        totalLength (mergeOverlapping
          (detectSegments channelData (Fin (pow10 (inject_Z thresholdDb / 20)))
             (paddingSamples (AudioBuffer.sampleRate b)))) = 0 ->
        removeSilence pow10 thresholdDb b = Ok (one_frame_of_silence b)).
Proof using pow10_pos.
  intros Hwf. split.
  - intros Hdb Hzero. unfold removeSilence.
    assert (Hch : exists ch0, getChannelData b 0 = Ok ch0
                    /\ Forall (fun x => num_eq x (of_Z 0) = true) ch0).
    { destruct Hwf as (Hc & _). unfold getChannelData, numberOfChannels, all_zero in *.
      destruct (AudioBuffer.channelData b) as [|ch0 chs]; [simpl in Hc; lia|].
      exists ch0. split; [done|]. by apply Forall_cons in Hzero as [H0 _]. }
    destruct Hch as (ch0 & -> & Hch0). cbn [mbind result_bind].
    rewrite detectSegments_silent; [by apply createBuffer_one_frame | done |].
    apply pow10_pos. unfold Qle, Qdiv, Qmult, Qinv, inject_Z. cbn. lia.
  - intros channelData Hch Htotal. unfold removeSilence.
    rewrite Hch. cbn [mbind result_bind]. rewrite Htotal.
    destruct (0 <? length _)%nat; cbn [Z.ltb Z.compare];
      by apply createBuffer_one_frame.
Qed.

End SilenceRemoval.

Lemma pow10_example_pos (x : Q) : (-9 # 2 <= x)%Q -> (0 < pow10_example x)%Q.
Proof. intros _. apply Qpower_0_lt. reflexivity. Qed.

Lemma wf_silent_example : wf_buffer silent_example.
Proof. repeat split; cbn; try lia. repeat constructor. Qed.

Lemma removeSilence_one_frame_policy_witness :
  removeSilence pow10_example (-50) silent_example
  = Ok (one_frame_of_silence silent_example).
Proof.
  apply (removeSilence_one_frame_policy pow10_example pow10_example_pos
           silent_example (-50) wf_silent_example).
  - lia.
  - repeat constructor.
Defined.

(** ** Rounding to doubles *)











(** ** Normalization *)

Lemma new_OfflineAudioContext_ok (c : nat) (z r : Z) :
  (1 <= c)%nat -> 0 < z < 2 ^ 32 -> 0 < r ->
  new_OfflineAudioContext c (of_Z z) r = Ok (OfflineContext c (Z.to_nat z) r).
Proof.
  intros Hc Hz Hr.
  unfold new_OfflineAudioContext, of_Z, ToUint32, Qtrunc, inject_Z.
  cbn [Qnum Qden]. rewrite Z.quot_1_r, Z.mod_small by lia.
  rewrite decide_False by lia. done.
Qed.




Section Rendering.

Variable resample : Q -> list number -> nat -> number.

(** The guard of the normalizer: a buffer whose peak is 0, or at least 1,
    is returned as it is. *)
Lemma normalize_unchanged (audioContext : BaseAudioContext) (b : AudioBuffer) :
  num_eq (maxAmp b) (of_Z 0) = true \/ num_lt (maxAmp b) (of_Z 1) = false ->
  normalize resample audioContext b = Ok b.
Proof.
  intros H. unfold normalize.
  destruct H as [H | H]; [|by rewrite H, andb_false_r].
  replace (num_gt (maxAmp b) (of_Z 0)) with false; [done|].
  destruct (maxAmp b) as [q| | |]; try discriminate.
  symmetry. unfold num_gt, num_lt, of_Z, Qltb. cbn in *.
  unfold Qeqb in H. cbn in H. apply Z.eqb_eq in H. apply Z.ltb_ge. lia.
Qed.

(** With a peak strictly between 0 and 1 the gain node, created by the
    realtime context, cannot be connected into the offline graph. *)
Lemma normalize_gain_node_rejected (b : AudioBuffer) :
  wf_buffer b -> Z.of_nat (AudioBuffer.length b) < 2 ^ 32 ->
  num_gt (maxAmp b) (of_Z 0) = true -> num_lt (maxAmp b) (of_Z 1) = true ->
  fits_float (num_div (of_Z 1) (maxAmp b)) = true ->
  normalize resample RealtimeContext b = Throw InvalidAccessError.
Proof.
  intros (Hc & Hl & Hr & _) Hl32 Hgt Hlt Hfits. unfold normalize.
  rewrite Hgt, Hlt. cbn [andb].
  unfold AudioParam_setValueAtTime. rewrite Hfits. cbn [mbind result_bind].
  rewrite new_OfflineAudioContext_ok by lia.
  done.
Qed.

(** A gain outside the range of [float] is refused by [setValueAtTime]
    before anything is rendered. *)
Lemma normalize_gain_out_of_range (audioContext : BaseAudioContext) (b : AudioBuffer) :
  num_gt (maxAmp b) (of_Z 0) = true -> num_lt (maxAmp b) (of_Z 1) = true ->
  fits_float (num_div (of_Z 1) (maxAmp b)) = false ->
  normalize resample audioContext b = Throw TypeError.
Proof.
  intros Hgt Hlt Hfits. unfold normalize.
  rewrite Hgt, Hlt. cbn [andb].
  unfold AudioParam_setValueAtTime. by rewrite Hfits.
Qed.

(** C7, the code at a buffer the claim covers: the peak of the example is
    1/2, so the claim has one pass multiply every sample by 2; the
    normalizer instead throws InvalidAccessError when it connects the
    buffer source of the offline context to the gain node of the realtime
    context, and [processAudio] returns no buffer. *)
Theorem normalize_quiet_buffer_throws (pow10 : Q -> Q) :
  maxAmp quiet_example = Fin (1 # 2)
  /\ normalize resample RealtimeContext quiet_example = Throw InvalidAccessError
  /\ processAudio pow10 resample
       {| playbackSpeed := 1; shouldNormalize := true;
          shouldRemoveSilence := false; silenceThreshold := -50 |}
       (Some quiet_example)
     = Throw InvalidAccessError.
Proof. split; [|split]; vm_compute; reflexivity. Qed.

(** ** Speed change *)


End Rendering.




(** ** PCM conversion of the MP3 branch *)

Lemma mp3_sample_spec (x : number) : mp3_sample (Some x) = symmetric_quantize x.
Proof.
  destruct x as [q| | |]; try reflexivity.
  unfold mp3_sample, symmetric_quantize. cbn [read_number].
  rewrite clamp_finite. cbn [num_mul of_Z ToInt16].
  apply wrap_signed_16_small.
  pose proof (Qtrunc_scaled_bounds q 32767 ltac:(lia)) as Hb.
  change (inject_Z 32767) with (32767 : Q) in *. lia.
Qed.

Lemma fold_insert_seq {A : Type} (g : nat -> A) (l : list A) (k : nat) :
  (k <= length l)%nat ->
  fold_left (fun acc i => <[i := g i]> acc) (seq 0 k) l = map g (seq 0 k) ++ drop k l.
Proof.
  induction k as [|k IH]; intros Hk; [done|].
  rewrite seq_S, fold_left_app, IH by lia. cbn [fold_left Nat.add].
  rewrite map_app. cbn [map].
  destruct (lookup_lt_is_Some_2 l k) as [x Hx]; [lia|].
  rewrite (drop_S l x k Hx).
  rewrite insert_app_r_alt by (rewrite length_map, length_seq; lia).
  rewrite length_map, length_seq, Nat.sub_diag. cbn [insert list_insert].
  by rewrite <- app_assoc.
Qed.

Lemma map_lookup_seq {A B : Type} (F : option A -> B) (l : list A) : forall pre,
  map (fun i => F ((pre ++ l) !! i)) (seq (length pre) (length l))
  = map (fun x => F (Some x)) l.
Proof.
  induction l as [|x l IH]; intros pre; [done|].
  cbn [length seq map]. f_equal.
  - by rewrite list_lookup_middle.
  - specialize (IH (pre ++ [x])).
    rewrite <- app_assoc, length_app in IH. cbn [app length] in IH.
    rewrite Nat.add_1_r in IH. done.
Qed.

Lemma fold_left_pair {A B C : Type} (F : A -> C -> A) (G : B -> C -> B)
    (xs : list C) : forall a b,
  fold_left (fun '(a, b) i => (F a i, G b i)) xs (a, b)
  = (fold_left F xs a, fold_left G xs b).
Proof. induction xs as [|x xs IH]; intros a b; [done|]. cbn [fold_left]. apply IH. Qed.

Lemma pcm_fill (channelData : list number) (n : nat) :
  n = length channelData ->
  fold_left (fun pcm i => <[i := mp3_sample (channelData !! i)]> pcm)
            (seq 0 (length channelData)) (replicate n 0)
  = map symmetric_quantize channelData.
Proof.
  intros ->.
  rewrite (fold_insert_seq (fun i => mp3_sample (channelData !! i)))
    by (by rewrite length_replicate).
  rewrite drop_replicate, Nat.sub_diag, app_nil_r.
  pose proof (map_lookup_seq mp3_sample channelData []) as Hmap.
  cbn [app length] in Hmap. rewrite Hmap.
  apply map_ext. intros x. apply mp3_sample_spec.
Qed.

(** C4 as amended. Every sample handed to the MP3 encoder is the stored
    sample clamped to [-1,1], multiplied by 32767 whatever its sign and
    truncated toward zero (NaN is stored as 0): in the mono array, and in
    the left and right arrays of a two-channel buffer alike. *)
Theorem mp3_pcm_scaled_by_32767 (b : AudioBuffer) :
  wf_buffer b ->
  mp3_pcm b
  = Ok (map symmetric_quantize (channel 0 b),
        if (numberOfChannels b =? 2)%nat
        then Some (map symmetric_quantize (channel 1 b))
        else None).
Proof.
  intros (Hc & _ & _ & Hlen). unfold mp3_pcm, getChannelData, channel, numberOfChannels in *.
  destruct (AudioBuffer.channelData b) as [|ch0 chs]; [simpl in Hc; lia|].
  apply Forall_cons in Hlen as [H0 Hlen].
  cbn [lookup list_lookup default from_option].
  destruct (length (ch0 :: chs) =? 2)%nat eqn:Htwo.
  - destruct chs as [|ch1 [|ch2 chs]]; try discriminate.
    apply Forall_cons in Hlen as [H1 _].
    cbn [lookup list_lookup mbind result_bind default from_option].
    unfold mp3_pcm_stereo.
    rewrite (fold_left_pair
               (fun pcmLeft i => <[i := mp3_sample (ch0 !! i)]> pcmLeft)
               (fun pcmRight i => <[i := mp3_sample (ch1 !! i)]> pcmRight)).
    rewrite pcm_fill by done.
    replace (length ch0) with (length ch1) at 1 by lia.
    rewrite pcm_fill by done. done.
  - cbn [mbind result_bind]. unfold mp3_pcm_mono. by rewrite pcm_fill.
Qed.

Lemma wf_stereo_example : wf_buffer stereo_example.
Proof. repeat split; cbn; try lia. repeat constructor. Qed.

Lemma mp3_pcm_scaled_by_32767_witness :
  mp3_pcm stereo_example
  = Ok (map symmetric_quantize (channel 0 stereo_example),
        Some (map symmetric_quantize (channel 1 stereo_example))).
Proof. apply (mp3_pcm_scaled_by_32767 stereo_example wf_stereo_example). Defined.

(** C4 as stated fails on a full-scale negative sample: the MP3 branch
    stores -1 as -32767, while the rule of the WAV section scales a
    negative value by 32768 and gives -32768. *)
Lemma mp3_full_scale_negative_stored_as_minus_32767 :
  mp3_pcm (AudioBuffer.mk 44100 1 [[Fin (-1)]]) = Ok ([-32767], None)
  /\ spec_quantize (Fin (-1)) = -32768
  /\ mp3_sample (Some (Fin (-1))) <> spec_quantize (Fin (-1)).
Proof.
  split; [|split]; [vm_compute; reflexivity ..|].
  vm_compute. discriminate.
Qed.

(** ** Merging *)

Lemma fold_total_frames (bs : list AudioBuffer) : forall a,
  fold_left (fun acc buffer => (acc + AudioBuffer.length buffer)%nat) bs a
  = (a + total_frames bs)%nat.
Proof.
  unfold total_frames. induction bs as [|b bs IH]; intros a; cbn [fold_left]; [lia|].
  rewrite IH, (IH (0 + _)%nat). lia.
Qed.

Lemma total_frames_cons b bs :
  total_frames (b :: bs) = (AudioBuffer.length b + total_frames bs)%nat.
Proof. unfold total_frames at 1. cbn [fold_left]. by rewrite fold_total_frames. Qed.

Lemma compatible_test first b :
  negb (numberOfChannels b =? numberOfChannels first)%nat
  || negb (AudioBuffer.sampleRate b =? AudioBuffer.sampleRate first) = false
  <-> compatible first b.
Proof.
  unfold compatible. rewrite orb_false_iff, !negb_false_iff, Nat.eqb_eq, Z.eqb_eq. done.
Qed.

Lemma first_mismatch_none first others : forall i,
  Forall (compatible first) others ->
  first_mismatch (numberOfChannels first) (AudioBuffer.sampleRate first) i others = None.
Proof.
  induction others as [|b others IH]; intros i Hall; [done|].
  apply Forall_cons in Hall as [Hb Hall]. cbn [first_mismatch].
  apply compatible_test in Hb. rewrite Hb. by apply IH.
Qed.


Lemma copy_channel_spec buffer offset rate len chs k t s :
  chs !! k = Some t -> AudioBuffer.channelData buffer !! k = Some s ->
  (offset + length s <= length t)%nat ->
  copy_channel buffer offset (AudioBuffer.mk rate len chs) k
  = Ok (AudioBuffer.mk rate len
          (<[k := take offset t ++ s ++ drop (offset + length s) t]> chs)).
Proof.
  intros Ht Hs Hfit. unfold copy_channel, getChannelData, TypedArray_set.
  cbn [AudioBuffer.channelData AudioBuffer.sampleRate AudioBuffer.length].
  rewrite Ht, Hs. cbn [mbind result_bind].
  rewrite decide_True by done. done.
Qed.

(** The inner loop of a merge: every channel of the new buffer receives
    the matching channel of [buffer] at [offset]. *)
Lemma copy_channels_spec buffer offset rate len (F : nat -> list number) m :
  forall k pre,
  length pre = k ->
  (forall j, (k <= j < k + m)%nat ->
     exists s, AudioBuffer.channelData buffer !! j = Some s
               /\ (offset + length s <= length (F j))%nat) ->
  for_each (copy_channel buffer offset)
    (seq k m) (AudioBuffer.mk rate len (pre ++ map F (seq k m)))
  = Ok (AudioBuffer.mk rate len
          (pre ++ map (fun j => take offset (F j) ++ channel j buffer
                                ++ drop (offset + length (channel j buffer)) (F j))
                      (seq k m))).
Proof.
  induction m as [|m IH]; intros k pre Hpre Hsrc; [done|].
  cbn [seq map for_each].
  destruct (Hsrc k) as (s & Hs & Hfit); [lia|].
  rewrite (copy_channel_spec _ _ _ _ _ _ (F k) s);
    [|by rewrite list_lookup_middle|done|done].
  cbn [mbind result_bind].
  rewrite insert_app_r_alt, Hpre, Nat.sub_diag by lia. cbn [insert list_insert].
  specialize (IH (S k) (pre ++ [take offset (F k) ++ s ++ drop (offset + length s) (F k)])).
  rewrite <- !app_assoc in IH. cbn [app] in IH.
  assert (Hck : channel k buffer = s) by (unfold channel; by rewrite Hs).
  rewrite IH.
  - by rewrite Hck.
  - rewrite length_app. cbn [length]. lia.
  - intros j Hj. apply Hsrc. lia.
Qed.

Lemma length_flat_map_channel_snoc j done b :
  length (flat_map (channel j) (done ++ [b]))
  = (length (flat_map (channel j) done) + length (channel j b))%nat.
Proof. rewrite flat_map_app, length_app. cbn [flat_map]. by rewrite app_nil_r. Qed.

Lemma copy_buffer_eq channelsOf newBuffer offset buffer :
  copy_buffer channelsOf (newBuffer, offset) buffer
  = (newBuffer' ← for_each (copy_channel buffer offset)
                     (seq 0 (channelsOf buffer)) newBuffer;
     Ok (newBuffer', (offset + AudioBuffer.length buffer)%nat)).
Proof. reflexivity. Qed.

(** The outer loop of a merge over buffers of [c] channels. *)
Lemma copy_buffers_spec (channelsOf : AudioBuffer -> nat) c rate T bs :
  forall done offset,
  Forall (fun b => channelsOf b = c /\ numberOfChannels b = c
                   /\ Forall (fun ch => length ch = AudioBuffer.length b)
                             (AudioBuffer.channelData b)) bs ->
  (forall j, (j < c)%nat -> length (flat_map (channel j) done) = offset) ->
  for_each (copy_buffer channelsOf) bs
    (AudioBuffer.mk rate T
       (map (fun j => flat_map (channel j) done ++ replicate (total_frames bs) (Fin 0))
            (seq 0 c)),
     offset)
  = Ok (AudioBuffer.mk rate T (map (fun j => flat_map (channel j) (done ++ bs)) (seq 0 c)),
        (offset + total_frames bs)%nat).
Proof.
  induction bs as [|b bs IH]; intros done offset Hall Hdone.
  - cbn [for_each]. rewrite app_nil_r, Nat.add_0_r. do 3 f_equal.
    apply map_ext. intros j. apply app_nil_r.
  - apply Forall_cons in Hall as [(Hcb & Hnb & Hlen) Hall].
    cbn [for_each]. rewrite copy_buffer_eq, Hcb.
    pose proof (copy_channels_spec b offset rate T
               (fun j => flat_map (channel j) done
                         ++ replicate (total_frames (b :: bs)) (Fin 0)) c 0 [])
      as Hinner.
    cbn [app] in Hinner. rewrite Hinner; [|done|]; clear Hinner.
    2:{ intros j Hj. unfold numberOfChannels in Hnb.
        destruct (lookup_lt_is_Some_2 (AudioBuffer.channelData b) j) as [s Hs]; [lia|].
        exists s. split; [done|].
        eapply Forall_lookup_1 in Hlen; [|exact Hs]. cbn beta in Hlen.
        rewrite length_app, length_replicate, Hdone, total_frames_cons by lia. lia. }
    cbn [app mbind result_bind].
    replace (map _ (seq 0 c))
      with (map (fun j => flat_map (channel j) (done ++ [b])
                          ++ replicate (total_frames bs) (Fin 0)) (seq 0 c)).
    2:{ apply map_ext_in. intros j Hj. apply in_seq in Hj.
        assert (Hcj : length (channel j b) = AudioBuffer.length b).
        { unfold channel, numberOfChannels in *.
          destruct (lookup_lt_is_Some_2 (AudioBuffer.channelData b) j) as [s Hs]; [lia|].
          rewrite Hs. eapply Forall_lookup_1 in Hlen; [|exact Hs]. done. }
        rewrite take_app_length' by (rewrite Hdone; lia).
        rewrite drop_app_add' by (rewrite Hdone; lia).
        rewrite drop_replicate, total_frames_cons, Hcj.
        replace (AudioBuffer.length b + total_frames bs - AudioBuffer.length b)%nat
          with (total_frames bs) by lia.
        rewrite flat_map_app. cbn [flat_map].
        by rewrite app_nil_r, <- !app_assoc. }
    rewrite (IH (done ++ [b]) (offset + AudioBuffer.length b)%nat); [|done|].
    + rewrite <- app_assoc, total_frames_cons. cbn [app]. do 2 f_equal. lia.
    + intros j Hj. rewrite length_flat_map_channel_snoc, Hdone by done.
      f_equal. unfold channel, numberOfChannels in *.
      destruct (lookup_lt_is_Some_2 (AudioBuffer.channelData b) j) as [s Hs]; [lia|].
      rewrite Hs. eapply Forall_lookup_1 in Hlen; [|exact Hs]. done.
Qed.

Lemma map_const_seq {A : Type} (x : A) c : forall k,
  map (fun _ => x) (seq k c) = replicate c x.
Proof. induction c as [|c IH]; intros k; [done|]. cbn. by rewrite IH. Qed.

(** On buffers of one format the copy loops build the concatenation. *)
Lemma merge_copy_spec (channelsOf : AudioBuffer -> nat) first buffers :
  wf_buffer first ->
  Forall (fun b => channelsOf b = numberOfChannels first) buffers ->
  Forall wf_buffer buffers -> Forall (compatible first) buffers ->
  buffers <> [] ->
  (newBuffer ← createBuffer (numberOfChannels first) (total_frames buffers)
                 (AudioBuffer.sampleRate first);
   r ← for_each (copy_buffer channelsOf) buffers (newBuffer, 0%nat);
   bufferToWave r.1 (AudioBuffer.length r.1))
  = bufferToWave (concatenate first buffers) (total_frames buffers).
Proof.
  intros (Hc & _ & Hr & _) Hch Hwf Hcompat Hne.
  assert (HT : (1 <= total_frames buffers)%nat).
  { destruct buffers as [|b bs]; [done|]. rewrite total_frames_cons.
    apply Forall_cons in Hwf as [(_ & Hl & _) _]. lia. }
  unfold createBuffer. rewrite decide_False by lia. cbn [mbind result_bind].
  rewrite <- (map_const_seq _ _ 0).
  pose proof (copy_buffers_spec channelsOf (numberOfChannels first)
             (AudioBuffer.sampleRate first) (total_frames buffers) buffers [] 0)
    as Hcopy.
  cbn [flat_map app] in Hcopy. rewrite Hcopy; clear Hcopy.
  - done.
  - apply Forall_forall. intros b Hb.
    rewrite Forall_forall in Hch, Hwf, Hcompat.
    destruct (Hwf b Hb) as (_ & _ & _ & Hlen). destruct (Hcompat b Hb) as [Hn _].
    by rewrite (Hch b Hb).
  - done.
Qed.





Lemma wf_merge_examples : Forall wf_buffer [merge_example_a; merge_example_b].
Proof. repeat constructor; cbn; lia. Qed.



(** * Further properties of the handlers *)

(** ** Loops over the channels of a buffer *)

(** A loop whose body replaces channel [j] by [G j], run over the channels
    [k], ..., [k + m - 1]. *)
Lemma for_each_channels (body : AudioBuffer -> nat -> result AudioBuffer)
    rate len (F G : nat -> list number) m :
  forall k pre,
  length pre = k ->
  (forall j chs, (k <= j < k + m)%nat -> chs !! j = Some (F j) ->
     body (AudioBuffer.mk rate len chs) j
     = Ok (AudioBuffer.mk rate len (<[j := G j]> chs))) ->
  for_each body (seq k m) (AudioBuffer.mk rate len (pre ++ map F (seq k m)))
  = Ok (AudioBuffer.mk rate len (pre ++ map G (seq k m))).
Proof.
  induction m as [|m IH]; intros k pre Hpre Hbody; [done|].
  cbn [seq map for_each].
  rewrite (Hbody k) by (lia || by rewrite list_lookup_middle).
  cbn [mbind result_bind].
  rewrite insert_app_r_alt, Hpre, Nat.sub_diag by lia. cbn [insert list_insert].
  specialize (IH (S k) (pre ++ [G k])).
  rewrite <- !app_assoc in IH. cbn [app] in IH.
  apply IH.
  - rewrite length_app. cbn [length]. lia.
  - intros j chs Hj Hlook. apply Hbody; [lia | done].
Qed.

Lemma subarray_nat {A : Type} (l : list A) (s e : nat) :
  subarray l (Z.of_nat s) (Z.of_nat e) = take (e - s) (drop s l).
Proof.
  unfold subarray, rel_index.
  replace (Z.of_nat s <? 0) with false by (symmetry; apply Z.ltb_ge; lia).
  replace (Z.of_nat e <? 0) with false by (symmetry; apply Z.ltb_ge; lia).
  destruct (le_lt_dec (length l) s) as [Hs | Hs].
  - rewrite !drop_ge by lia. by rewrite !take_nil.
  - replace (Z.to_nat (Z.min (Z.of_nat s) (Z.of_nat (length l)))) with s by lia.
    destruct (le_lt_dec e (length l)) as [He | He].
    + f_equal. lia.
    + rewrite !take_ge by (rewrite length_drop; lia). done.
Qed.

Lemma region_frames_cons ch s n :
  region_frames ch s (S n) = default (Fin 0) (ch !! s) :: region_frames ch (S s) n.
Proof.
  unfold region_frames. cbn [seq map]. rewrite Nat.add_0_r. f_equal.
  rewrite <- seq_shift, map_map. apply map_ext. intros k. do 2 f_equal. lia.
Qed.

Lemma region_frames_spec ch n : forall s,
  take n (drop s ch) ++ replicate (n - length (take n (drop s ch))) (Fin 0)
  = region_frames ch s n.
Proof.
  induction n as [|n IH]; intros s; [by rewrite take_0|].
  rewrite region_frames_cons, <- IH.
  destruct (ch !! s) as [x|] eqn:Hx.
  - rewrite (drop_S ch x s Hx). cbn [take length default app]. done.
  - apply lookup_ge_None_1 in Hx.
    rewrite !drop_ge by lia. rewrite !take_nil.
    cbn [app length default]. rewrite !Nat.sub_0_r. done.
Qed.

Lemma region_frames_inside ch s n :
  (s + n <= length ch)%nat -> region_frames ch s n = take n (drop s ch).
Proof.
  intros H. rewrite <- region_frames_spec.
  rewrite length_take, length_drop.
  replace (n - n `min` (length ch - s))%nat with 0%nat by lia.
  apply app_nil_r.
Qed.

(** ** Clip creation *)

Lemma copy_region_spec originalBuffer (s e : nat) rate chs j src :
  chs !! j = Some (replicate (e - s) (Fin 0)) ->
  AudioBuffer.channelData originalBuffer !! j = Some src ->
  copy_region originalBuffer (Z.of_nat s) (Z.of_nat e)
    (AudioBuffer.mk rate (e - s) chs) j
  = Ok (AudioBuffer.mk rate (e - s) (<[j := region_frames src s (e - s)]> chs)).
Proof.
  intros Ht Hs. unfold copy_region, getChannelData, TypedArray_set.
  cbn [AudioBuffer.channelData AudioBuffer.sampleRate AudioBuffer.length].
  rewrite Ht, Hs. cbn [mbind result_bind].
  rewrite subarray_nat.
  rewrite decide_True by (rewrite length_take, length_replicate; lia).
  cbn [mbind result_bind]. rewrite take_0. cbn [app Nat.add].
  rewrite drop_replicate, region_frames_spec. done.
Qed.

(** What the handler appends for a region of at least one frame. *)
Lemma handleCreateClip_spec (b : AudioBuffer) (s e : nat) (clips : list Clip) :
  wf_buffer b -> (s < e)%nat ->
  let chans := map (fun ch => region_frames ch s (e - s)) (AudioBuffer.channelData b) in
  handleCreateClip (Some (Z.of_nat s, Z.of_nat e)) (Some b) clips
  = Ok (clips ++
        [Clip.mk (riff_header (numberOfChannels b) (AudioBuffer.sampleRate b) (e - s)
                  ++ wav_data chans (e - s))
                 (AudioBuffer.mk (AudioBuffer.sampleRate b) (e - s) chans)]).
Proof.
  intros (Hc & _ & Hr & _) Hse chans. unfold handleCreateClip.
  replace (Z.of_nat e - Z.of_nat s <=? 0) with false by (symmetry; apply Z.leb_gt; lia).
  replace (Z.to_nat (Z.of_nat e - Z.of_nat s)) with (e - s)%nat by lia.
  unfold createBuffer. rewrite decide_False by lia. cbn [mbind result_bind].
  rewrite <- (map_const_seq _ _ 0).
  pose proof (for_each_channels
                (copy_region b (Z.of_nat s) (Z.of_nat e))
                (AudioBuffer.sampleRate b) (e - s)
                (fun _ => replicate (e - s) (Fin 0))
                (fun j => region_frames (default [] (AudioBuffer.channelData b !! j))
                            s (e - s))
                (numberOfChannels b) 0 []) as Hloop.
  cbn [app] in Hloop. rewrite Hloop; clear Hloop; [|done|].
  2:{ intros j chs Hj Hlook. unfold numberOfChannels in Hj.
      destruct (lookup_lt_is_Some_2 (AudioBuffer.channelData b) j) as [src Hsrc]; [lia|].
      rewrite Hsrc. cbn [default]. by apply copy_region_spec. }
  cbn [mbind result_bind].
  pose proof (map_lookup_seq (fun o => region_frames (default [] o) s (e - s))
                (AudioBuffer.channelData b) []) as Hmap.
  cbn [app length default] in Hmap. unfold numberOfChannels at 1 2.
  rewrite Hmap. fold chans.
  rewrite bufferToWave_spec. cbn [mbind result_bind].
  unfold numberOfChannels at 1. cbn [AudioBuffer.channelData AudioBuffer.sampleRate].
  unfold chans at 1. rewrite length_map. done.
Qed.

Lemma lookup_map {A B : Type} (f : A -> B) (l : list A) : forall i,
  map f l !! i = f <$> (l !! i).
Proof. induction l as [|x l IH]; intros [|i]; cbn; by rewrite ?IH. Qed.

Lemma length_region_frames ch s n : length (region_frames ch s n) = n.
Proof. unfold region_frames. by rewrite length_map, length_seq. Qed.

Lemma wf_region_buffer (b : AudioBuffer) (s n : nat) :
  wf_buffer b -> (1 <= n)%nat ->
  wf_buffer (AudioBuffer.mk (AudioBuffer.sampleRate b) n
               (map (fun ch => region_frames ch s n) (AudioBuffer.channelData b))).
Proof.
  intros (Hc & _ & Hr & _) Hn. unfold wf_buffer, numberOfChannels in *.
  cbn [AudioBuffer.channelData AudioBuffer.sampleRate AudioBuffer.length].
  rewrite length_map. repeat split; [done..|].
  apply List.Forall_forall. intros ch Hch.
  apply in_map_iff in Hch as (ch0 & <- & _). apply length_region_frames.
Qed.

(** Cutting a region of at least one frame appends exactly one clip.  Its
    buffer has the sample rate and the channel count of the source and
    [e - s] frames: frame [k] of a channel is frame [s + k] of the source
    channel, and silence past the end of the source.  Its URL holds the
    WAV serialization of that buffer, 44 + (e - s) * channels * 2 bytes. *)
Theorem handleCreateClip_extracts_region (b : AudioBuffer) (s e : nat)
    (clips : list Clip) :
  wf_buffer b -> (s < e)%nat ->
  exists clip,
    handleCreateClip (Some (Z.of_nat s, Z.of_nat e)) (Some b) clips
    = Ok (clips ++ [clip])
    /\ Clip.buffer clip
       = AudioBuffer.mk (AudioBuffer.sampleRate b) (e - s)
           (map (fun ch => region_frames ch s (e - s)) (AudioBuffer.channelData b))
    /\ ((e <= AudioBuffer.length b)%nat ->
        AudioBuffer.channelData (Clip.buffer clip)
        = map (fun ch => take (e - s) (drop s ch)) (AudioBuffer.channelData b))
    /\ wf_buffer (Clip.buffer clip)
    /\ bufferToWave (Clip.buffer clip) (e - s) = Ok (Clip.url clip)
    /\ length (Clip.url clip) = (44 + (e - s) * numberOfChannels b * 2)%nat.
Proof.
  intros Hwf Hse. eexists. split; [by apply handleCreateClip_spec|].
  cbn [Clip.buffer Clip.url]. split; [done|]. split; [|split; [|split]].
  - intros He. cbn [AudioBuffer.channelData].
    apply map_ext_in. intros ch Hch. apply region_frames_inside.
    destruct Hwf as (_ & _ & _ & Hlen).
    rewrite List.Forall_forall in Hlen. rewrite (Hlen ch Hch). lia.
  - apply wf_region_buffer; [done | lia].
  - rewrite bufferToWave_spec. unfold numberOfChannels.
    cbn [AudioBuffer.channelData AudioBuffer.sampleRate]. by rewrite length_map.
  - rewrite length_app, length_riff_header, length_wav_data, length_map.
    unfold numberOfChannels. lia.
Qed.

Lemma handleCreateClip_extracts_region_witness :
  exists clip,
    handleCreateClip (Some (1, 2)) (Some stereo_example) [] = Ok [clip]
    /\ Clip.buffer clip = AudioBuffer.mk 44100 1 [[Fin (-1 # 2)]; [Fin 1]].
Proof.
  destruct (handleCreateClip_extracts_region stereo_example 1 2 [] wf_stereo_example
              ltac:(lia)) as (clip & Hclip & Hbuf & _).
  exists clip. split; [exact Hclip | exact Hbuf].
Defined.

Lemma concatenate_two_regions (b : AudioBuffer) (k : nat) :
  wf_buffer b -> (k <= AudioBuffer.length b)%nat ->
  let n := AudioBuffer.length b in
  let part s m := AudioBuffer.mk (AudioBuffer.sampleRate b) m
                    (map (fun ch => region_frames ch s m) (AudioBuffer.channelData b)) in
  concatenate (part 0%nat k) [part 0%nat k; part k (n - k)%nat] = b
  /\ total_frames [part 0%nat k; part k (n - k)%nat] = n.
Proof.
  intros (_ & _ & _ & Hlen) Hk n part. split.
  2:{ unfold total_frames. cbn. lia. }
  unfold concatenate, total_frames, part, numberOfChannels, channel.
  cbn [fold_left AudioBuffer.length AudioBuffer.sampleRate AudioBuffer.channelData
       flat_map Nat.add].
  rewrite length_map. fold n.
  destruct b as [rate len chans]. cbn [AudioBuffer.length AudioBuffer.sampleRate
    AudioBuffer.channelData] in *. subst n.
  f_equal; [lia|].
  pose proof (map_lookup_seq
    (fun o => default [] ((fun ch => region_frames ch 0 k) <$> o)
              ++ default [] ((fun ch => region_frames ch k (len - k)) <$> o) ++ [])
    chans []) as Hmap.
  cbn [app length] in Hmap.
  transitivity (map (fun ch : list number => ch) chans); [|apply map_id].
  etransitivity; [|etransitivity; [exact Hmap|]].
  - apply map_ext. intros j. by rewrite !lookup_map.
  - apply map_ext_in. intros ch Hch. cbn [fmap option_fmap option_map default].
    rewrite List.Forall_forall in Hlen. specialize (Hlen ch Hch).
    rewrite !region_frames_inside by lia.
    rewrite drop_0, app_nil_r.
    rewrite (take_ge (drop k ch)) by (rewrite length_drop; lia).
    apply take_drop.
Qed.

(** Cutting a source at frame [k] into the clips [0, k) and [k, n) and
    merging the two clips in that order gives back the source: the merged
    download is byte for byte the WAV serialization of the source buffer. *)
Theorem cut_then_merge_restores_source (b : AudioBuffer) (k : nat)
    (originalFileName : string) :
  wf_buffer b -> (0 < k < AudioBuffer.length b)%nat ->
  exists c1 c2 wav,
    handleCreateClip (Some (0, Z.of_nat k)) (Some b) [] = Ok [c1]
    /\ handleCreateClip (Some (Z.of_nat k, Z.of_nat (AudioBuffer.length b))) (Some b) [c1]
       = Ok [c1; c2]
    /\ bufferToWave b (AudioBuffer.length b) = Ok wav
    /\ handleMergeSelected originalFileName [Clip.buffer c1; Clip.buffer c2]
       = Downloaded (originalFileName ++ "_merged_clip.wav") wav.
Proof.
  intros Hwf Hk.
  pose proof (handleCreateClip_spec b 0 k [] Hwf ltac:(lia)) as H1.
  pose proof (handleCreateClip_spec b k (AudioBuffer.length b)) as H2.
  cbv zeta in H1, H2. rewrite Nat.sub_0_r in H1. cbn [app Z.of_nat] in H1.
  do 2 eexists. exists (riff_header (numberOfChannels b) (AudioBuffer.sampleRate b)
                          (AudioBuffer.length b)
                        ++ wav_data (AudioBuffer.channelData b) (AudioBuffer.length b)).
  split; [exact H1|]. split; [exact (H2 [_] Hwf (proj2 Hk))|].
  split; [apply bufferToWave_spec|].
  cbn [Clip.buffer].
  set (p1 := AudioBuffer.mk _ k _). set (p2 := AudioBuffer.mk _ (_ - k) _).
  assert (Hwf1 : wf_buffer p1) by (apply wf_region_buffer; [done | lia]).
  assert (Hwf2 : wf_buffer p2) by (apply wf_region_buffer; [done | lia]).
  assert (Hcompat : Forall (compatible p1) [p1; p2]).
  { repeat constructor. unfold numberOfChannels, p1, p2. cbn. by rewrite !length_map. }
  unfold handleMergeSelected. cbn [length Nat.ltb Nat.leb].
  rewrite (merge_copy_spec numberOfChannels p1 [p1; p2] Hwf1);
    [| |constructor; [exact Hwf1 | constructor; [exact Hwf2 | constructor]]
     |exact Hcompat|discriminate].
  2:{ apply Forall_forall. intros x Hx. rewrite Forall_forall in Hcompat.
      exact (proj1 (Hcompat x Hx)). }
  destruct (concatenate_two_regions b k Hwf ltac:(lia)) as [Hcat Htot].
  cbv zeta in Hcat, Htot. fold p1 p2 in Hcat, Htot.
  rewrite Hcat, Htot, bufferToWave_spec. done.
Qed.

Lemma cut_then_merge_restores_source_witness :
  exists c1 c2 wav,
    handleCreateClip (Some (0, 1)) (Some stereo_example) [] = Ok [c1]
    /\ handleCreateClip (Some (1, 2)) (Some stereo_example) [c1] = Ok [c1; c2]
    /\ bufferToWave stereo_example 2 = Ok wav
    /\ handleMergeSelected "take" [Clip.buffer c1; Clip.buffer c2]
       = Downloaded "take_merged_clip.wav" wav.
Proof.
  apply (cut_then_merge_restores_source stereo_example 1 "take" wf_stereo_example).
  cbn. lia.
Defined.

(** ** Silence detection: bounds, order and coverage *)

Lemma num_lt_asym (a b : number) : num_lt a b = true -> num_lt b a = false.
Proof.
  destruct a as [x| | |], b as [y| | |]; cbn; try done.
  unfold Qltb. intros H. apply Z.ltb_lt in H. apply Z.ltb_ge. lia.
Qed.

Lemma starts_ascending_weaken segs : forall lo lo',
  lo' <= lo -> starts_ascending lo segs -> starts_ascending lo' segs.
Proof.
  destruct segs as [|s segs]; intros lo lo' Hle; cbn; [done|].
  intros [H1 H2]. split; [lia | done].
Qed.

Lemma starts_ascending_snoc segs x : forall lo,
  starts_ascending lo segs -> lo <= start x ->
  Forall (fun s => start s <= start x) segs ->
  starts_ascending lo (segs ++ [x]).
Proof.
  induction segs as [|s segs IH]; intros lo Hasc Hlo Hall; cbn; [done|].
  destruct Hasc as [H1 H2]. apply Forall_cons in Hall as [Hs Hall].
  split; [done|]. by apply IH.
Qed.

Lemma covered_app l1 l2 i : covered (l1 ++ l2) i <-> covered l1 i \/ covered l2 i.
Proof. unfold covered. apply Exists_app. Qed.

Lemma covered_singleton seg i : covered [seg] i <-> covers seg i.
Proof.
  unfold covered. rewrite Exists_cons, Exists_nil. tauto.
Qed.

Lemma scan_step_inv channelData thr padding k st :
  0 <= padding -> (k < length channelData)%nat ->
  scan_inv channelData thr padding k st ->
  scan_inv channelData thr padding (S k) (scan_step channelData thr padding st k).
Proof.
  intros Hpad Hk. destruct st as [ss segs]. intros (Hss & Hb & Hasc & Hd & Hcov).
  destruct (lookup_lt_is_Some_2 channelData k Hk) as [x Hx].
  unfold scan_step. rewrite Hx. cbn [read_number].
  destruct (num_gt (Math_abs x) thr && (ss =? -1)) eqn:Hopen.
  - apply andb_true_iff in Hopen as [Hloud Hss1]. apply Z.eqb_eq in Hss1. subst ss.
    change (-1 =? -1) with true in Hd. cbn iota in Hd.
    split; [right; lia|]. split; [done|]. split; [done|]. split.
    + replace (Z.of_nat k =? -1) with false by (symmetry; apply Z.eqb_neq; lia). done.
    + intros i y Hi Hy Hl. destruct (decide (i = k)) as [->|Hne]; [right; lia|].
      destruct (Hcov i y) as [H|[H _]]; [lia|done|done|by left|done].
  - destruct (num_lt (Math_abs x) thr && negb (ss =? -1)) eqn:Hclose.
    + apply andb_true_iff in Hclose as [Hquiet Hss1].
      apply negb_true_iff, Z.eqb_neq in Hss1.
      assert (Hss' : 0 <= ss < Z.of_nat k) by lia.
      rewrite (proj2 (Z.eqb_neq ss (-1)) Hss1) in Hd.
      set (seg := {| start := Z.max 0 (ss - padding);
                     end_ := Z.min (Z.of_nat (length channelData)) (Z.of_nat k + padding) |}).
      split; [by left|]. split; [|split; [|split]].
      * apply Forall_app. split; [done|]. apply Forall_singleton.
        unfold in_bounds, seg. cbn [start end_]. lia.
      * apply starts_ascending_snoc; [done | cbn; lia |].
        eapply Forall_impl; [exact Hd|]. intros s Hs. cbn beta in Hs. cbn [start seg]. lia.
      * change (-1 =? -1) with true. cbn iota. apply Forall_app. split.
        -- eapply Forall_impl; [exact Hd|]. intros s Hs. cbn beta in Hs |- *. lia.
        -- apply Forall_singleton. cbn [start seg]. lia.
      * intros i y Hi Hy Hl. left. apply covered_app.
        destruct (decide (i = k)) as [->|Hne].
        { rewrite Hx in Hy. injection Hy as <-.
          apply num_lt_asym in Hquiet. unfold num_gt in Hl. congruence. }
        destruct (Hcov i y) as [H|[_ H]]; [lia|done|done|by left|].
        right. apply covered_singleton. unfold covers, seg. cbn [start end_]. lia.
    + split; [lia|]. split; [done|]. split; [done|]. split.
      * eapply Forall_impl; [exact Hd|]. intros s Hs. cbn beta in *.
        destruct (ss =? -1); lia.
      * intros i y Hi Hy Hl. destruct (decide (i = k)) as [->|Hne].
        -- rewrite Hx in Hy. injection Hy as <-. rewrite Hl in Hopen.
           cbn [andb] in Hopen. apply Z.eqb_neq in Hopen. right. lia.
        -- apply (Hcov i y); [lia|done|done].
Qed.

Lemma scan_fold_inv channelData thr padding m : forall k st,
  0 <= padding -> (k + m <= length channelData)%nat ->
  scan_inv channelData thr padding k st ->
  scan_inv channelData thr padding (k + m)
    (fold_left (scan_step channelData thr padding) (seq k m) st).
Proof.
  induction m as [|m IH]; intros k st Hpad Hkm Hinv.
  - by rewrite Nat.add_0_r.
  - cbn [seq fold_left]. replace (k + S m)%nat with (S k + m)%nat by lia.
    apply IH; [done | lia |]. apply scan_step_inv; [done | lia | done].
Qed.

(** What holds of the emitted segments once the open run is closed at the
    end of the buffer. *)
Lemma detectSegments_inv channelData thr padding :
  0 <= padding ->
  let segs := detectSegments channelData thr padding in
  Forall (in_bounds (Z.of_nat (length channelData))) segs
  /\ starts_ascending 0 segs
  /\ (forall i x, channelData !! i = Some x -> num_gt (Math_abs x) thr = true ->
        covered segs (Z.of_nat i)).
Proof.
  intros Hpad segs. subst segs. unfold detectSegments.
  pose proof (scan_fold_inv channelData thr padding (length channelData) 0 (-1, [])
                Hpad ltac:(lia)) as Hinv.
  destruct (fold_left _ _ _) as [ss segs].
  destruct Hinv as (Hss & Hb & Hasc & Hd & Hcov).
  { split; [by left|]. split; [done|]. split; [done|]. split; [done|].
    intros i x Hi. lia. }
  cbn [Nat.add] in *.
  destruct (ss =? -1) eqn:Hopen; cbn [negb].
  - apply Z.eqb_eq in Hopen. split; [done|]. split; [done|].
    intros i x Hx Hl. destruct (Hcov i x) as [H|[H _]]; [|done|done|done|done].
    by apply lookup_lt_Some in Hx.
  - apply Z.eqb_neq in Hopen. split; [|split].
    + apply Forall_app. split; [done|]. apply Forall_singleton.
      unfold in_bounds. cbn [start end_]. lia.
    + apply starts_ascending_snoc; [done | cbn; lia |].
      eapply Forall_impl; [exact Hd|]. intros s Hs. cbn [start]. cbn beta in Hs. lia.
    + intros i x Hx Hl. apply covered_app.
      pose proof (lookup_lt_Some _ _ _ Hx) as Hi.
      destruct (Hcov i x) as [H|[_ H]]; [done|done|done|by left|].
      right. apply covered_singleton. unfold covers. cbn [start end_]. lia.
Qed.

(** Every segment the detector emits is a non-empty range of frames inside
    the scanned channel, and the segments are emitted with their starts in
    ascending order. *)
Theorem detectSegments_in_bounds_ascending (channelData : list number)
    (thr : number) (padding : Z) :
  0 <= padding ->
  Forall (in_bounds (Z.of_nat (length channelData)))
         (detectSegments channelData thr padding)
  /\ starts_ascending 0 (detectSegments channelData thr padding).
Proof.
  intros Hpad.
  destruct (detectSegments_inv channelData thr padding Hpad) as (H1 & H2 & _).
  by split.
Qed.

Lemma detectSegments_in_bounds_ascending_witness :
  Forall (in_bounds 4)
         (detectSegments [Fin 0; Fin (1 # 2); Fin 0; Fin (1 # 2)] (Fin (1 # 10)) 0)
  /\ starts_ascending 0
       (detectSegments [Fin 0; Fin (1 # 2); Fin 0; Fin (1 # 2)] (Fin (1 # 10)) 0).
Proof.
  apply (detectSegments_in_bounds_ascending
           [Fin 0; Fin (1 # 2); Fin 0; Fin (1 # 2)] (Fin (1 # 10)) 0).
  lia.
Defined.

(** The detector loses no sound: every frame of the scanned channel whose
    amplitude exceeds the threshold lies in one of the emitted segments. *)
Theorem detectSegments_covers_loud_frames (channelData : list number)
    (thr : number) (padding : Z) (i : nat) (x : number) :
  0 <= padding -> channelData !! i = Some x ->
  num_gt (Math_abs x) thr = true ->
  covered (detectSegments channelData thr padding) (Z.of_nat i).
Proof.
  intros Hpad Hx Hloud.
  destruct (detectSegments_inv channelData thr padding Hpad) as (_ & _ & H).
  by apply (H i x).
Qed.

Lemma detectSegments_covers_loud_frames_witness :
  covered (detectSegments [Fin 0; Fin (-1 # 2); Fin 0] (Fin (1 # 10)) 1) 1.
Proof.
  apply (detectSegments_covers_loud_frames
           [Fin 0; Fin (-1 # 2); Fin 0] (Fin (1 # 10)) 1 1 (Fin (-1 # 2)));
    [lia | reflexivity | reflexivity].
Defined.

(** ** Silence detection: no segment without sound *)

Lemma scan_step_sound channelData thr padding k ss segs :
  0 <= padding -> (k < length channelData)%nat ->
  (ss = -1 \/ exists i x, ss = Z.of_nat i /\ (i < k)%nat /\ channelData !! i = Some x
                          /\ num_gt (Math_abs x) thr = true) ->
  Forall (has_sound channelData thr) segs ->
  let st := scan_step channelData thr padding (ss, segs) k in
  (st.1 = -1 \/ exists i x, st.1 = Z.of_nat i /\ (i < S k)%nat /\ channelData !! i = Some x
                            /\ num_gt (Math_abs x) thr = true)
  /\ Forall (has_sound channelData thr) st.2.
Proof.
  intros Hpad Hk Hss Hsegs.
  destruct (lookup_lt_is_Some_2 channelData k Hk) as [x Hx].
  unfold scan_step. rewrite Hx. cbn [read_number].
  destruct (num_gt (Math_abs x) thr && (ss =? -1)) eqn:Hopen.
  - apply andb_true_iff in Hopen as [Hloud _]. cbn [fst snd]. split; [|done].
    right. exists k, x. repeat split; [lia | done | done].
  - destruct (num_lt (Math_abs x) thr && negb (ss =? -1)) eqn:Hclose; cbn [fst snd].
    + apply andb_true_iff in Hclose as [_ Hne].
      apply negb_true_iff, Z.eqb_neq in Hne.
      destruct Hss as [Hss | (i & y & -> & Hi & Hy & Hloud)]; [done|].
      split; [by left|]. apply Forall_app. split; [done|]. apply Forall_singleton.
      exists i, y. split; [|done]. unfold covers. cbn [start end_]. lia.
    + split; [|done].
      destruct Hss as [Hss | (i & y & -> & Hi & Hy & Hloud)]; [by left|].
      right. exists i, y. repeat split; [lia | done | done].
Qed.

Lemma scan_fold_sound channelData thr padding m : forall k ss segs,
  0 <= padding -> (k + m <= length channelData)%nat ->
  (ss = -1 \/ exists i x, ss = Z.of_nat i /\ (i < k)%nat /\ channelData !! i = Some x
                          /\ num_gt (Math_abs x) thr = true) ->
  Forall (has_sound channelData thr) segs ->
  let st := fold_left (scan_step channelData thr padding) (seq k m) (ss, segs) in
  (st.1 = -1 \/ exists i x, st.1 = Z.of_nat i /\ (i < k + m)%nat
                            /\ channelData !! i = Some x
                            /\ num_gt (Math_abs x) thr = true)
  /\ Forall (has_sound channelData thr) st.2.
Proof.
  induction m as [|m IH]; intros k ss segs Hpad Hkm Hss Hsegs.
  - cbn [seq fold_left fst snd]. rewrite Nat.add_0_r. by split.
  - cbn [seq fold_left].
    destruct (scan_step_sound channelData thr padding k ss segs Hpad ltac:(lia) Hss Hsegs)
      as [Hss1 Hsegs1].
    destruct (scan_step channelData thr padding (ss, segs) k) as [ss1 segs1].
    cbn [fst snd] in Hss1, Hsegs1.
    replace (k + S m)%nat with (S k + m)%nat by lia.
    apply IH; [done | lia | done | done].
Qed.

(** The detector emits no segment without sound: every segment holds at
    least one frame of the scanned channel whose amplitude exceeds the
    threshold. *)
Theorem detectSegments_segments_hold_sound (channelData : list number)
    (thr : number) (padding : Z) :
  0 <= padding ->
  Forall (has_sound channelData thr) (detectSegments channelData thr padding).
Proof.
  intros Hpad. unfold detectSegments.
  pose proof (scan_fold_sound channelData thr padding (length channelData) 0 (-1) []
                Hpad ltac:(lia) ltac:(by left) ltac:(constructor)) as Hinv.
  cbv zeta in Hinv.
  destruct (fold_left _ _ _) as [ss segs]. cbn [fst snd Nat.add] in Hinv.
  destruct Hinv as [Hss Hsegs].
  destruct (ss =? -1) eqn:Hopen; cbn [negb]; [done|].
  apply Z.eqb_neq in Hopen.
  destruct Hss as [Hss | (i & x & -> & Hi & Hx & Hloud)]; [done|].
  apply Forall_app. split; [done|]. apply Forall_singleton.
  exists i, x. split; [|done]. unfold covers. cbn [start end_]. lia.
Qed.

Lemma detectSegments_segments_hold_sound_witness :
  Forall (has_sound [Fin 0; Fin (1 # 2); Fin 0; Fin (-1 # 2)] (Fin (1 # 10)))
         (detectSegments [Fin 0; Fin (1 # 2); Fin 0; Fin (-1 # 2)] (Fin (1 # 10)) 0).
Proof.
  apply (detectSegments_segments_hold_sound
           [Fin 0; Fin (1 # 2); Fin 0; Fin (-1 # 2)] (Fin (1 # 10)) 0).
  lia.
Defined.

(** ** Merging: coverage, order and total length *)

Lemma merge_from_covered rest : forall cur i,
  starts_ascending (start cur) rest ->
  covered (merge_from cur rest) i <-> covers cur i \/ covered rest i.
Proof.
  induction rest as [|s rest IH]; intros cur i Hasc.
  - cbn [merge_from]. rewrite covered_singleton. unfold covered.
    rewrite Exists_nil. tauto.
  - destruct Hasc as [Hle Hasc]. cbn [merge_from].
    unfold covered at 2. rewrite Exists_cons. fold (covered rest i).
    destruct (start s <? end_ cur) eqn:Hlt.
    + apply Z.ltb_lt in Hlt. rewrite IH.
      2:{ cbn [start]. by apply (starts_ascending_weaken rest (start s)). }
      unfold covers. cbn [start end_]. split.
      * intros [H|H]; [|tauto].
        destruct (Z.lt_ge_cases i (end_ cur)); [left | right; left]; lia.
      * intros [H|[H|H]]; [left; lia | left; lia | by right].
    + unfold covered at 1. rewrite Exists_cons. fold (covered (merge_from s rest) i).
      rewrite IH by done. tauto.
Qed.

Lemma merge_from_in_bounds len rest : forall cur,
  in_bounds len cur -> Forall (in_bounds len) rest ->
  Forall (in_bounds len) (merge_from cur rest).
Proof.
  induction rest as [|s rest IH]; intros cur Hcur Hrest; cbn [merge_from].
  - by apply Forall_singleton.
  - apply Forall_cons in Hrest as [Hs Hrest].
    destruct (start s <? end_ cur).
    + apply IH; [|done]. unfold in_bounds in *. cbn [start end_]. lia.
    + apply Forall_cons. split; [done|]. by apply IH.
Qed.

Lemma fold_totalLength (segs : list Segment) : forall a,
  fold_left (fun sum seg => sum + (end_ seg - start seg)) segs a
  = a + totalLength segs.
Proof.
  unfold totalLength. induction segs as [|s segs IH]; intros a; cbn [fold_left]; [lia|].
  rewrite IH, (IH (0 + _)). lia.
Qed.

Lemma totalLength_cons s segs :
  totalLength (s :: segs) = (end_ s - start s) + totalLength segs.
Proof. unfold totalLength at 1. cbn [fold_left]. by rewrite fold_totalLength. Qed.

Lemma totalLength_app l1 l2 :
  totalLength (l1 ++ l2) = totalLength l1 + totalLength l2.
Proof.
  induction l1 as [|s l1 IH]; [done|].
  cbn [app]. rewrite !totalLength_cons, IH. lia.
Qed.

Lemma separated_totalLength len rest : forall cur,
  separated cur rest -> Forall (in_bounds len) (cur :: rest) ->
  1 <= totalLength (cur :: rest) <= len - start cur.
Proof.
  induction rest as [|s rest IH]; intros cur Hsep Hall.
  - apply Forall_cons in Hall as [Hcur _]. unfold in_bounds in Hcur.
    rewrite totalLength_cons. change (totalLength []) with 0. lia.
  - destruct Hsep as [Hle Hsep]. apply Forall_cons in Hall as [Hcur Hall].
    specialize (IH s Hsep Hall). rewrite totalLength_cons.
    unfold in_bounds in Hcur. lia.
Qed.

(** Merging neither loses nor adds a frame: on segments whose starts
    ascend, as the detector emits them, a frame lies in a merged segment
    exactly when it lies in one of the segments that were merged. *)
Theorem mergeOverlapping_covers_same_frames (segs : list Segment) (lo i : Z) :
  starts_ascending lo segs ->
  covered (mergeOverlapping segs) i <-> covered segs i.
Proof.
  intros Hasc. destruct segs as [|first rest]; [done|].
  destruct Hasc as [_ Hasc].
  rewrite mergeOverlapping_cons, merge_from_covered by done.
  unfold covered at 2. by rewrite Exists_cons.
Qed.

Lemma mergeOverlapping_covers_same_frames_witness :
  covered (mergeOverlapping [{| start := 0; end_ := 5 |}; {| start := 3; end_ := 4 |};
                             {| start := 7; end_ := 9 |}]) 4
  <-> covered [{| start := 0; end_ := 5 |}; {| start := 3; end_ := 4 |};
               {| start := 7; end_ := 9 |}] 4.
Proof.
  apply (mergeOverlapping_covers_same_frames
           [{| start := 0; end_ := 5 |}; {| start := 3; end_ := 4 |};
            {| start := 7; end_ := 9 |}] 0 4).
  cbn. lia.
Defined.

Lemma mergeOverlapping_bounds (segs : list Segment) (len : Z) :
  Forall (in_bounds len) segs ->
  Forall (in_bounds len) (mergeOverlapping segs)
  /\ disjoint_in_order (mergeOverlapping segs)
  /\ (segs <> [] -> mergeOverlapping segs <> []
                    /\ 1 <= totalLength (mergeOverlapping segs) <= len).
Proof.
  intros Hall. destruct segs as [|first rest]; [done|].
  rewrite mergeOverlapping_cons.
  apply Forall_cons in Hall as [Hfirst Hrest].
  pose proof (merge_from_in_bounds len rest first Hfirst Hrest) as Hb.
  destruct (merge_from_separated rest first) as (cur & rest' & Heq & Hstart & Hsep).
  rewrite Heq in *. split; [done|]. split; [done|]. intros _. split; [done|].
  pose proof (separated_totalLength len rest' cur Hsep Hb) as Htot.
  unfold in_bounds in Hfirst. lia.
Qed.

(** Whatever the order of its input, merging segments that are non-empty
    and inside a buffer of [len] frames gives segments that are non-empty,
    inside the buffer and disjoint, each ending before the next starts; so
    the frames kept, at least one, are never more than the buffer has. *)
Theorem mergeOverlapping_disjoint_within_buffer (segs : list Segment) (len : Z) :
  Forall (in_bounds len) segs ->
  Forall (in_bounds len) (mergeOverlapping segs)
  /\ disjoint_in_order (mergeOverlapping segs)
  /\ (segs = [] \/ 1 <= totalLength (mergeOverlapping segs) <= len).
Proof.
  intros Hall. destruct (mergeOverlapping_bounds segs len Hall) as (H1 & H2 & H3).
  split; [done|]. split; [done|].
  destruct segs as [|s segs]; [by left|]. right. by apply H3.
Qed.

Lemma mergeOverlapping_disjoint_within_buffer_witness :
  Forall (in_bounds 10)
    (mergeOverlapping [{| start := 7; end_ := 9 |}; {| start := 0; end_ := 8 |}])
  /\ disjoint_in_order
       (mergeOverlapping [{| start := 7; end_ := 9 |}; {| start := 0; end_ := 8 |}])
  /\ ([{| start := 7; end_ := 9 |}; {| start := 0; end_ := 8 |}] = []
      \/ 1 <= totalLength
                (mergeOverlapping [{| start := 7; end_ := 9 |}; {| start := 0; end_ := 8 |}])
         <= 10).
Proof.
  apply (mergeOverlapping_disjoint_within_buffer
           [{| start := 7; end_ := 9 |}; {| start := 0; end_ := 8 |}] 10).
  repeat constructor; cbn; lia.
Defined.

(** ** Silence removal: the composed buffer *)

Lemma paddingSamples_nonneg (rate : Z) : 0 <= rate -> 0 <= paddingSamples rate.
Proof.
  intros Hr. unfold paddingSamples, Math_floor, Qfloor, Qmult, inject_Z.
  cbn [Qnum Qden]. apply Z.div_pos; lia.
Qed.

Lemma subarray_slice (ch : list number) (seg : Segment) :
  in_bounds (Z.of_nat (length ch)) seg ->
  subarray ch (start seg) (end_ seg) = slice ch seg
  /\ Z.of_nat (length (slice ch seg)) = end_ seg - start seg.
Proof.
  intros (H0 & Hlt & Hle). unfold slice. split.
  - rewrite <- (Z2Nat.id (start seg)) at 1 by lia.
    rewrite <- (Z2Nat.id (end_ seg)) at 1 by lia.
    rewrite subarray_nat. f_equal. lia.
  - rewrite length_take, length_drop. lia.
Qed.

Lemma length_keep_segments (ch : list number) (segs : list Segment) :
  Forall (in_bounds (Z.of_nat (length ch))) segs ->
  Z.of_nat (length (keep_segments segs ch)) = totalLength segs.
Proof.
  induction segs as [|s segs IH]; intros Hall; [done|].
  apply Forall_cons in Hall as [Hs Hall].
  unfold keep_segments in *. cbn [flat_map].
  rewrite length_app, totalLength_cons, Nat2Z.inj_add, IH by done.
  destruct (subarray_slice ch s Hs) as [_ ->]. done.
Qed.

Lemma totalLength_nonneg len (segs : list Segment) :
  Forall (in_bounds len) segs -> 0 <= totalLength segs.
Proof.
  induction segs as [|s segs IH]; intros Hall; [done|].
  apply Forall_cons in Hall as [(H0 & Hlt & Hle) Hall].
  rewrite totalLength_cons. specialize (IH Hall). lia.
Qed.

(** One segment: every channel of the new buffer receives the frames of
    the segment at the running offset. *)
Lemma copy_segment_spec (b : AudioBuffer) rate T (F : nat -> list number)
    (off : Z) (seg : Segment) :
  Forall (fun ch => length ch = AudioBuffer.length b) (AudioBuffer.channelData b) ->
  in_bounds (Z.of_nat (AudioBuffer.length b)) seg -> 0 <= off ->
  (forall j, (j < numberOfChannels b)%nat ->
     off + (end_ seg - start seg) <= Z.of_nat (length (F j))) ->
  copy_segment b (numberOfChannels b)
    (AudioBuffer.mk rate T (map F (seq 0 (numberOfChannels b))), off) seg
  = Ok (AudioBuffer.mk rate T
          (map (fun j => take (Z.to_nat off) (F j) ++ slice (channel j b) seg
                         ++ drop (Z.to_nat off + length (slice (channel j b) seg)) (F j))
               (seq 0 (numberOfChannels b))),
        off + (end_ seg - start seg)).
Proof.
  intros Hlen Hseg Hoff Hfit. unfold copy_segment.
  match goal with
  | |- context [for_each ?body _ _] =>
      pose proof (for_each_channels body rate T F
        (fun j => take (Z.to_nat off) (F j) ++ slice (channel j b) seg
                  ++ drop (Z.to_nat off + length (slice (channel j b) seg)) (F j))
        (numberOfChannels b) 0 []) as Hloop
  end.
  cbn [app] in Hloop. rewrite Hloop; [done|done|].
  intros j chs Hj Hlook. unfold numberOfChannels in Hj.
  destruct (lookup_lt_is_Some_2 (AudioBuffer.channelData b) j) as [src Hsrc]; [lia|].
  assert (Hsl : length src = AudioBuffer.length b).
  { eapply Forall_lookup_1 in Hlen; [|exact Hsrc]. done. }
  rewrite <- Hsl in Hseg.
  destruct (subarray_slice src seg Hseg) as [Hsub Hslen].
  unfold set_channel, getChannelData, TypedArray_set, channel.
  rewrite Hsrc. change (default [] (Some src)) with src.
  cbn [mbind result_bind AudioBuffer.channelData AudioBuffer.sampleRate
       AudioBuffer.length].
  rewrite Hlook. cbn [mbind result_bind]. rewrite Hsub.
  specialize (Hfit j ltac:(unfold numberOfChannels; lia)).
  rewrite decide_True by lia. done.
Qed.

Lemma copy_segment_eq b c newBuffer offset seg :
  copy_segment b c (newBuffer, offset) seg
  = (newBuffer' ← for_each (fun newBuffer c =>
         originalChannel ← getChannelData b c;
         set_channel newBuffer c (subarray originalChannel (start seg) (end_ seg))
           (Z.to_nat offset))
       (seq 0 c) newBuffer;
     Ok (newBuffer', offset + (end_ seg - start seg))).
Proof. reflexivity. Qed.

(** The loop over the merged segments. *)
Lemma copy_segments_spec (b : AudioBuffer) rate T (segs : list Segment) :
  forall done,
  Forall (fun ch => length ch = AudioBuffer.length b) (AudioBuffer.channelData b) ->
  Forall (in_bounds (Z.of_nat (AudioBuffer.length b))) done ->
  Forall (in_bounds (Z.of_nat (AudioBuffer.length b))) segs ->
  for_each (copy_segment b (numberOfChannels b)) segs
    (AudioBuffer.mk rate T
       (map (fun j => keep_segments done (channel j b)
                      ++ replicate (Z.to_nat (totalLength segs)) (Fin 0))
            (seq 0 (numberOfChannels b))),
     totalLength done)
  = Ok (AudioBuffer.mk rate T
          (map (fun j => keep_segments (done ++ segs) (channel j b))
               (seq 0 (numberOfChannels b))),
        totalLength (done ++ segs)).
Proof.
  induction segs as [|s segs IH]; intros done Hlen Hdone Hsegs.
  - cbn [for_each]. rewrite app_nil_r. do 3 f_equal.
    apply map_ext. intros j. apply app_nil_r.
  - apply Forall_cons in Hsegs as [Hs Hsegs].
    assert (Hchan : forall j, (j < numberOfChannels b)%nat ->
              length (channel j b) = AudioBuffer.length b).
    { intros j Hj. unfold channel, numberOfChannels in *.
      destruct (lookup_lt_is_Some_2 (AudioBuffer.channelData b) j) as [src Hsrc]; [lia|].
      rewrite Hsrc. eapply Forall_lookup_1 in Hlen; [|exact Hsrc]. done. }
    assert (Hkeep : forall j l, (j < numberOfChannels b)%nat ->
              Forall (in_bounds (Z.of_nat (AudioBuffer.length b))) l ->
              Z.of_nat (length (keep_segments l (channel j b))) = totalLength l).
    { intros j l Hj Hl. apply length_keep_segments. by rewrite Hchan. }
    pose proof (totalLength_nonneg _ _ Hdone) as Hd0.
    pose proof (totalLength_nonneg _ _ Hsegs) as Hs0.
    cbn [for_each].
    rewrite copy_segment_spec; [|done|done|done|].
    2:{ intros j Hj. rewrite length_app, length_replicate, Nat2Z.inj_add, Hkeep by done.
        rewrite totalLength_cons. unfold in_bounds in Hs. lia. }
    cbn [mbind result_bind].
    replace (map _ (seq 0 (numberOfChannels b)))
      with (map (fun j => keep_segments (done ++ [s]) (channel j b)
                          ++ replicate (Z.to_nat (totalLength segs)) (Fin 0))
                (seq 0 (numberOfChannels b))).
    2:{ apply map_ext_in. intros j Hj. apply in_seq in Hj.
        assert (Hk : length (keep_segments done (channel j b))
                     = Z.to_nat (totalLength done)).
        { rewrite <- (Hkeep j done) by (lia || done). lia. }
        assert (Hsl : Z.of_nat (length (slice (channel j b) s)) = end_ s - start s).
        { apply subarray_slice. rewrite Hchan by lia. done. }
        rewrite take_app_length' by done.
        rewrite drop_app_add' by done.
        rewrite drop_replicate, totalLength_cons.
        replace (Z.to_nat (end_ s - start s + totalLength segs)
                 - length (slice (channel j b) s))%nat
          with (Z.to_nat (totalLength segs)) by lia.
        unfold keep_segments. rewrite flat_map_app. cbn [flat_map].
        by rewrite app_nil_r, <- !app_assoc. }
    replace (totalLength done + (end_ s - start s)) with (totalLength (done ++ [s])).
    2:{ rewrite totalLength_app, totalLength_cons. change (totalLength []) with 0. lia. }
    rewrite (IH (done ++ [s])); [|done| |done].
    + by rewrite <- app_assoc.
    + apply Forall_app. split; [done|]. by apply Forall_singleton.
Qed.

Lemma removeSilence_segments_spec (pow10 : Q -> Q) (b : AudioBuffer)
    (thresholdDb : Z) (channelData : list number) :
  wf_buffer b -> getChannelData b 0 = Ok channelData ->
  let detected := detectSegments channelData
                    (Fin (pow10 (inject_Z thresholdDb / 20)%Q))
                    (paddingSamples (AudioBuffer.sampleRate b)) in
  let segs := mergeOverlapping detected in
  detected <> [] ->
  removeSilence pow10 thresholdDb b
  = Ok (AudioBuffer.mk (AudioBuffer.sampleRate b) (Z.to_nat (totalLength segs))
          (map (keep_segments segs) (AudioBuffer.channelData b)))
  /\ 1 <= totalLength segs <= Z.of_nat (AudioBuffer.length b)
  /\ Forall (in_bounds (Z.of_nat (AudioBuffer.length b))) segs.
Proof.
  intros Hwf Hch detected segs Hne.
  destruct Hwf as (Hc & Hl & Hr & Hlen).
  assert (Hlen0 : length channelData = AudioBuffer.length b).
  { unfold getChannelData in Hch.
    destruct (AudioBuffer.channelData b !! 0%nat) as [ch|] eqn:H0; [|done].
    injection Hch as <-. eapply Forall_lookup_1 in Hlen; [|exact H0]. done. }
  assert (Hpad : 0 <= paddingSamples (AudioBuffer.sampleRate b))
    by (apply paddingSamples_nonneg; lia).
  destruct (detectSegments_inv channelData (Fin (pow10 (inject_Z thresholdDb / 20)%Q))
              (paddingSamples (AudioBuffer.sampleRate b)) Hpad) as (Hb & _ & _).
  fold detected in Hb. rewrite Hlen0 in Hb.
  destruct (mergeOverlapping_bounds detected _ Hb) as (Hmb & _ & Htot).
  destruct (Htot Hne) as [_ Htotal]. fold segs in Hmb, Htotal.
  split; [|by split].
  unfold removeSilence. rewrite Hch. cbn [mbind result_bind].
  fold detected. fold segs.
  replace (0 <? length detected)%nat with true
    by (symmetry; apply Nat.ltb_lt; destruct detected; [done | cbn; lia]).
  replace (0 <? totalLength segs) with true by (symmetry; apply Z.ltb_lt; lia).
  unfold createBuffer. rewrite decide_False by lia. cbn [mbind result_bind].
  rewrite <- (map_const_seq _ _ 0).
  pose proof (copy_segments_spec b (AudioBuffer.sampleRate b)
                (Z.to_nat (totalLength segs)) segs [] Hlen ltac:(constructor) Hmb)
    as Hcopy.
  cbn [app] in Hcopy. change (totalLength []) with 0 in Hcopy.
  unfold keep_segments at 1 in Hcopy. cbn [flat_map app] in Hcopy.
  rewrite Hcopy. cbn [mbind result_bind fst]. do 2 f_equal.
  pose proof (map_lookup_seq (fun o => keep_segments segs (default [] o))
                (AudioBuffer.channelData b) []) as Hmap.
  cbn [app length] in Hmap. exact Hmap.
Qed.

(** When the detector finds sound, silence removal returns the frames of
    the merged segments and nothing else: every channel of the result is
    the concatenation, segment after segment, of the frames that channel
    has inside the merged segments of channel 0.  The result keeps the
    sample rate and the channel count, and has at least one frame and at
    most as many as the input. *)
Theorem removeSilence_keeps_merged_segments (pow10 : Q -> Q) (b : AudioBuffer)
    (thresholdDb : Z) (channelData : list number) :
  wf_buffer b -> getChannelData b 0 = Ok channelData ->
  let detected := detectSegments channelData
                    (Fin (pow10 (inject_Z thresholdDb / 20)%Q))
                    (paddingSamples (AudioBuffer.sampleRate b)) in
  let segs := mergeOverlapping detected in
  detected <> [] ->
  removeSilence pow10 thresholdDb b
  = Ok (AudioBuffer.mk (AudioBuffer.sampleRate b) (Z.to_nat (totalLength segs))
          (map (keep_segments segs) (AudioBuffer.channelData b)))
  /\ 1 <= totalLength segs <= Z.of_nat (AudioBuffer.length b).
Proof.
  intros Hwf Hch detected segs Hne.
  destruct (removeSilence_segments_spec pow10 b thresholdDb channelData Hwf Hch Hne)
    as (Hrun & Htotal & _).
  split; [exact Hrun | exact Htotal].
Qed.

Lemma wf_loud_example :
  wf_buffer (AudioBuffer.mk 44100 4 [[Fin 0; Fin (1 # 2); Fin 0; Fin 0];
                                     [Fin 1; Fin (1 # 4); Fin (1 # 8); Fin 0]]).
Proof. repeat split; cbn; try lia. repeat constructor. Qed.

Lemma removeSilence_keeps_merged_segments_witness :
  removeSilence pow10_example (-20)
    (AudioBuffer.mk 44100 4 [[Fin 0; Fin (1 # 2); Fin 0; Fin 0];
                             [Fin 1; Fin (1 # 4); Fin (1 # 8); Fin 0]])
  = Ok (AudioBuffer.mk 44100 4 [[Fin 0; Fin (1 # 2); Fin 0; Fin 0];
                                [Fin 1; Fin (1 # 4); Fin (1 # 8); Fin 0]]).
Proof.
  apply (removeSilence_keeps_merged_segments pow10_example _ (-20)
           [Fin 0; Fin (1 # 2); Fin 0; Fin 0] wf_loud_example eq_refl).
  vm_compute. discriminate.
Defined.

(** ** Silence removal below the threshold *)

Lemma detectSegments_quiet channelData thr padding :
  Forall (fun x => num_gt (Math_abs x) thr = false) channelData ->
  detectSegments channelData thr padding = [].
Proof.
  intros Hquiet. unfold detectSegments.
  assert (Hfold : forall idxs,
    fold_left (scan_step channelData thr padding) idxs (-1, []) = (-1, [])).
  { induction idxs as [|i idxs IH]; [done|]. cbn [fold_left].
    replace (scan_step channelData thr padding (-1, []) i) with ((-1, []) : Z * list Segment);
      [done|].
    unfold scan_step. change (-1 =? -1) with true. cbn [negb].
    rewrite andb_false_r, andb_true_r.
    destruct (channelData !! i) as [x|] eqn:Hx; cbn [read_number].
    - eapply Forall_lookup_1 in Hquiet; [|exact Hx]. cbn beta in Hquiet.
      by rewrite Hquiet.
    - by destruct thr. }
  by rewrite Hfold.
Qed.

(** A channel 0 without a single frame above the threshold (frames exactly
    at the threshold and NaN frames included) is all silence to the
    remover, whatever the other channels hold: the result is one frame of
    silence with the channel count and the sample rate of the input. *)
Theorem removeSilence_nothing_above_threshold (pow10 : Q -> Q) (b : AudioBuffer)
    (thresholdDb : Z) (channelData : list number) :
  wf_buffer b -> getChannelData b 0 = Ok channelData ->
  Forall (fun x => num_gt (Math_abs x) (Fin (pow10 (inject_Z thresholdDb / 20)%Q)) = false)
         channelData ->
  removeSilence pow10 thresholdDb b = Ok (one_frame_of_silence b).
Proof.
  intros Hwf Hch Hquiet. unfold removeSilence. rewrite Hch. cbn [mbind result_bind].
  rewrite detectSegments_quiet by done. cbn [length Nat.ltb Nat.leb].
  by apply createBuffer_one_frame.
Qed.

Lemma removeSilence_nothing_above_threshold_witness :
  removeSilence pow10_example (-20)
    (AudioBuffer.mk 44100 2 [[Fin (1 # 10); Fin (-1 # 20)]; [Fin 1; Fin 1]])
  = Ok (AudioBuffer.mk 44100 1 [[Fin 0]; [Fin 0]]).
Proof.
  apply (removeSilence_nothing_above_threshold pow10_example
           (AudioBuffer.mk 44100 2 [[Fin (1 # 10); Fin (-1 # 20)]; [Fin 1; Fin 1]])
           (-20) [Fin (1 # 10); Fin (-1 # 20)]).
  - repeat split; cbn; try lia. repeat constructor.
  - reflexivity.
  - repeat constructor.
Defined.

Lemma removeSilence_segments_or_silence (pow10 : Q -> Q) (b : AudioBuffer)
    (thresholdDb : Z) :
  wf_buffer b ->
  exists b',
    removeSilence pow10 thresholdDb b = Ok b'
    /\ wf_buffer b'
    /\ AudioBuffer.sampleRate b' = AudioBuffer.sampleRate b
    /\ numberOfChannels b' = numberOfChannels b
    /\ (AudioBuffer.length b' <= AudioBuffer.length b)%nat.
Proof.
  intros Hwf.
  assert (Hch : exists channelData, getChannelData b 0 = Ok channelData).
  { destruct Hwf as (Hc & _). unfold getChannelData, numberOfChannels in *.
    destruct (AudioBuffer.channelData b) as [|ch0 chs]; [simpl in Hc; lia|].
    by exists ch0. }
  destruct Hch as [channelData Hch].
  destruct (detectSegments channelData (Fin (pow10 (inject_Z thresholdDb / 20)%Q))
              (paddingSamples (AudioBuffer.sampleRate b))) as [|seg detected] eqn:Hdet.
  - exists (one_frame_of_silence b). split.
    + unfold removeSilence. rewrite Hch. cbn [mbind result_bind]. rewrite Hdet.
      cbn [length Nat.ltb Nat.leb]. by apply createBuffer_one_frame.
    + destruct Hwf as (Hc & Hl & Hr & _).
      unfold one_frame_of_silence, wf_buffer, numberOfChannels.
      cbn [AudioBuffer.sampleRate AudioBuffer.length AudioBuffer.channelData].
      rewrite length_replicate. repeat split; [done | lia | done | | lia].
      apply Forall_replicate. done.
  - pose proof (removeSilence_segments_spec pow10 b thresholdDb channelData Hwf Hch)
      as Hspec.
    cbv zeta in Hspec. rewrite Hdet in Hspec.
    destruct (Hspec ltac:(discriminate)) as (Hrun & Htotal & Hbounds).
    eexists. split; [exact Hrun|].
    destruct Hwf as (Hc & Hl & Hr & Hlen).
    unfold wf_buffer, numberOfChannels.
    cbn [AudioBuffer.sampleRate AudioBuffer.length AudioBuffer.channelData].
    rewrite length_map. repeat split; [done | lia | done | | lia].
    apply List.Forall_forall. intros ch Hch'.
    apply in_map_iff in Hch' as (ch0 & <- & Hin).
    rewrite List.Forall_forall in Hlen. specialize (Hlen ch0 Hin).
    rewrite <- Hlen in Hbounds.
    pose proof (length_keep_segments ch0 _ Hbounds). lia.
Qed.

(** Silence removal never fails on a well-formed buffer, and it keeps the
    buffer well-formed: the result has at least one frame and at most as
    many as the input, every channel array as long as the buffer, and the
    sample rate and the channel count of the input. *)
Theorem removeSilence_preserves_format (pow10 : Q -> Q) (b : AudioBuffer)
    (thresholdDb : Z) :
  wf_buffer b ->
  exists b',
    removeSilence pow10 thresholdDb b = Ok b'
    /\ wf_buffer b'
    /\ AudioBuffer.sampleRate b' = AudioBuffer.sampleRate b
    /\ numberOfChannels b' = numberOfChannels b
    /\ (AudioBuffer.length b' <= AudioBuffer.length b)%nat.
Proof.
  intros Hwf.
  destruct (removeSilence_segments_or_silence pow10 b thresholdDb Hwf) as (b' & Hb').
  by exists b'.
Qed.

Lemma removeSilence_preserves_format_witness :
  exists b',
    removeSilence pow10_example (-50) stereo_example = Ok b'
    /\ wf_buffer b'
    /\ AudioBuffer.sampleRate b' = 44100
    /\ numberOfChannels b' = 2%nat
    /\ (AudioBuffer.length b' <= 2)%nat.
Proof.
  exact (removeSilence_preserves_format pow10_example stereo_example (-50)
           wf_stereo_example).
Defined.

(** ** Normalization never rescales *)

(** Whatever the buffer, the normalizer of [processAudio], which creates
    its gain node in the realtime context, never returns a rescaled
    buffer: outside the guard 0 < peak < 1 it returns its input as it is,
    and inside the guard it throws, a TypeError when the gain 1 / peak is
    outside the range of [float] and a NotSupportedError or an
    InvalidAccessError otherwise.  So [processAudio] with silence removal
    switched off returns the source buffer or fails. *)
Theorem normalize_never_rescales (pow10 : Q -> Q)
    (resample : Q -> list number -> nat -> number) (b : AudioBuffer) :
  (num_gt (maxAmp b) (of_Z 0) && num_lt (maxAmp b) (of_Z 1) = false
   /\ normalize resample RealtimeContext b = Ok b
   \/ num_gt (maxAmp b) (of_Z 0) && num_lt (maxAmp b) (of_Z 1) = true
      /\ (fits_float (num_div (of_Z 1) (maxAmp b)) = false
          /\ normalize resample RealtimeContext b = Throw TypeError
          \/ fits_float (num_div (of_Z 1) (maxAmp b)) = true
             /\ (normalize resample RealtimeContext b = Throw NotSupportedError
                 \/ normalize resample RealtimeContext b = Throw InvalidAccessError)))
  /\ forall settings,
       shouldRemoveSilence settings = false ->
       processAudio pow10 resample settings (Some b) = Ok b
       \/ exists e, processAudio pow10 resample settings (Some b) = Throw e.
Proof.
  assert (Hnorm :
    num_gt (maxAmp b) (of_Z 0) && num_lt (maxAmp b) (of_Z 1) = false
    /\ normalize resample RealtimeContext b = Ok b
    \/ num_gt (maxAmp b) (of_Z 0) && num_lt (maxAmp b) (of_Z 1) = true
       /\ (fits_float (num_div (of_Z 1) (maxAmp b)) = false
           /\ normalize resample RealtimeContext b = Throw TypeError
           \/ fits_float (num_div (of_Z 1) (maxAmp b)) = true
              /\ (normalize resample RealtimeContext b = Throw NotSupportedError
                  \/ normalize resample RealtimeContext b = Throw InvalidAccessError))).
  { unfold normalize.
    destruct (num_gt (maxAmp b) (of_Z 0) && num_lt (maxAmp b) (of_Z 1));
      [right; split; [done|] | by left].
    unfold AudioParam_setValueAtTime.
    destruct (fits_float (num_div (of_Z 1) (maxAmp b))); [right | by left].
    split; [done|]. cbn [mbind result_bind].
    unfold new_OfflineAudioContext.
    destruct (decide _); [by left | right]. done. }
  split; [exact Hnorm|].
  intros settings Hsil. unfold processAudio. rewrite Hsil. cbn [mbind result_bind].
  destruct (shouldNormalize settings); [|by left].
  destruct Hnorm as [[_ ->] | [_ [[_ ->] | [_ [-> | ->]]]]]; [by left | right; eauto ..].
Qed.

(** A peak of 2^-130, a value a [Float32Array] holds: the gain 2^130 is
    not a [float], and the normalizer throws a TypeError. *)
Lemma normalize_tiny_peak_throws (resample : Q -> list number -> nat -> number) :
  maxAmp tiny_example = Fin (1 # 2 ^ 130)
  /\ (exists gain,
        num_div (of_Z 1) (maxAmp tiny_example) = Fin gain
        /\ (gain == inject_Z (2 ^ 130))%Q)
  /\ fits_float (num_div (of_Z 1) (maxAmp tiny_example)) = false
  /\ normalize resample RealtimeContext tiny_example = Throw TypeError.
Proof.
  split; [vm_compute; reflexivity|]. split; [|split; vm_compute; reflexivity].
  eexists. split; [vm_compute; reflexivity|]. reflexivity.
Qed.

(** ** Quantization: range and order *)

Lemma Qtrunc_floor (q : Q) : 0 <= Qnum q -> Qtrunc q = Qfloor q.
Proof.
  intros H. unfold Qtrunc. destruct q as [n d]. cbn [Qnum Qden Qfloor] in *.
  apply Z.quot_div_nonneg; lia.
Qed.

Lemma Qtrunc_ceiling (q : Q) : Qnum q <= 0 -> Qtrunc q = Qceiling q.
Proof.
  intros H. unfold Qtrunc, Qceiling. destruct q as [n d].
  cbn [Qnum Qden Qfloor Qopp] in *.
  rewrite <- (Z.opp_involutive n) at 1.
  rewrite Z.quot_opp_l by lia. f_equal. apply Z.quot_div_nonneg; lia.
Qed.

Lemma Qtrunc_mono (a b : Q) : (a <= b)%Q -> Qtrunc a <= Qtrunc b.
Proof.
  intros Hab.
  destruct (Z.lt_ge_cases (Qnum a) 0) as [Ha | Ha];
    destruct (Z.lt_ge_cases (Qnum b) 0) as [Hb | Hb].
  - rewrite !Qtrunc_ceiling by lia. by apply Qceiling_resp_le.
  - rewrite Qtrunc_ceiling, Qtrunc_floor by lia.
    transitivity 0.
    + change 0 with (Qceiling 0). apply Qceiling_resp_le.
      unfold Qle. cbn. lia.
    + change 0 with (Qfloor 0). apply Qfloor_resp_le.
      unfold Qle. cbn. lia.
  - exfalso. unfold Qle in Hab.
    assert (0 <= Qnum a * QDen b) by (apply Z.mul_nonneg_nonneg; lia).
    assert (Qnum b * QDen a < 0) by (apply Z.mul_neg_pos; lia). lia.
  - rewrite !Qtrunc_floor by lia. by apply Qfloor_resp_le.
Qed.

Lemma clampQ_mono (x y : Q) : (x <= y)%Q -> (clampQ x <= clampQ y)%Q.
Proof.
  intros Hxy. unfold clampQ, Qltb.
  destruct (Z.ltb_spec (Qnum x * QDen 1) (Qnum 1 * QDen x)) as [Hx1|Hx1];
  destruct (Z.ltb_spec (Qnum y * QDen 1) (Qnum 1 * QDen y)) as [Hy1|Hy1];
  destruct (Z.ltb_spec (Qnum (-1) * QDen x) (Qnum x * QDen (-1))) as [Hx2|Hx2];
  destruct (Z.ltb_spec (Qnum (-1) * QDen y) (Qnum y * QDen (-1))) as [Hy2|Hy2];
  unfold Qle in *; cbn in *; try lia; try nia.
Qed.

Lemma quantize_sample_finite_range (q : Q) :
  -32768 <= quantize_sample (Some (Fin q)) <= 32767.
Proof.
  rewrite quantize_sample_rule.
  pose proof (Qtrunc_scaled_bounds q 32768 ltac:(lia)) as Hb1.
  pose proof (Qtrunc_scaled_bounds q 32767 ltac:(lia)) as Hb2.
  change (inject_Z 32768) with (32768 : Q) in *.
  change (inject_Z 32767) with (32767 : Q) in *.
  destruct (Qltb (clampQ q) (-1 # 2)) eqn:Hneg; [|lia].
  split; [lia|].
  assert (Qtrunc (clampQ q * 32768) <= 0); [|lia].
  unfold Qtrunc, Qltb in *. destruct (clampQ q) as [n d]. cbn in *.
  apply Z.ltb_lt in Hneg. apply Z.quot_le_upper_bound; lia.
Qed.

Lemma quantize_sample_range (read : option number) :
  -32768 <= quantize_sample read <= 32767.
Proof.
  destruct read as [[q| | |]|]; [apply quantize_sample_finite_range | | | |];
    vm_compute; split; discriminate.
Qed.

(** No sample wraps around: whatever is read from the channel (a finite
    value, an infinity, NaN, or nothing past the end), the quantized value
    is a 16-bit signed integer, and the two bytes the serializer stores for
    it read back, little-endian and in two's complement, as that value. *)
Theorem quantize_sample_fits_int16 (read : option number) :
  -32768 <= quantize_sample read <= 32767
  /\ wrap_signed 16 (le_decode (le_bytes 2 (quantize_sample read)))
     = quantize_sample read.
Proof.
  pose proof (quantize_sample_range read) as Hr. split; [done|].
  rewrite le_decode_le_bytes. unfold wrap_signed.
  change (256 ^ Z.of_nat 2) with 65536. change (2 ^ (16 - 1)) with 32768.
  change (2 ^ 16) with 65536.
  rewrite Zplus_mod_idemp_l. rewrite Z.mod_small by lia. lia.
Qed.

(** Quantization preserves the order of samples: a sample that is not
    smaller than another is never written as a smaller integer (also
    across -1/2, where the scale changes from 32768 to 32767). *)
Theorem quantize_sample_monotone (x y : Q) :
  (x <= y)%Q ->
  quantize_sample (Some (Fin x)) <= quantize_sample (Some (Fin y)).
Proof.
  intros Hxy. rewrite !quantize_sample_rule.
  pose proof (clampQ_mono x y Hxy) as Hc.
  destruct (Qltb (clampQ x) (-1 # 2)) eqn:Hx; destruct (Qltb (clampQ y) (-1 # 2)) eqn:Hy.
  - apply Qtrunc_mono. apply Qmult_le_compat_r; [done | discriminate].
  - transitivity (Qtrunc ((-1 # 2) * 32768)).
    + apply Qtrunc_mono. apply Qmult_le_compat_r; [|discriminate].
      unfold Qltb in Hx. apply Z.ltb_lt in Hx. unfold Qle. lia.
    + transitivity (Qtrunc ((-1 # 2) * 32767)); [vm_compute; discriminate|].
      apply Qtrunc_mono. apply Qmult_le_compat_r; [|discriminate].
      unfold Qltb in Hy. apply Z.ltb_ge in Hy. unfold Qle. lia.
  - exfalso. unfold Qltb in Hx, Hy. apply Z.ltb_ge in Hx. apply Z.ltb_lt in Hy.
    unfold Qle in Hc. cbn in *. nia.
  - apply Qtrunc_mono. apply Qmult_le_compat_r; [done | discriminate].
Qed.

Lemma quantize_sample_monotone_witness :
  quantize_sample (Some (Fin (-3 # 4))) <= quantize_sample (Some (Fin (-1 # 2))).
Proof. apply (quantize_sample_monotone (-3 # 4) (-1 # 2)). unfold Qle. cbn. lia. Defined.

(** ** The block loop of the MP3 branch *)

Lemma mp3_chunk_count_spec (n : nat) :
  (n <= mp3_chunk_count n * 1152 < n + 1152)%nat.
Proof.
  unfold mp3_chunk_count.
  pose proof (Nat.div_mod_eq (n + 1151) 1152) as Hdm.
  pose proof (Nat.mod_upper_bound (n + 1151) 1152 ltac:(lia)) as Hlt.
  lia.
Qed.

Lemma concat_push_chunk (mp3Data : list (list Z)) (mp3buf : list Z) :
  concat (push_chunk mp3Data mp3buf) = concat mp3Data ++ mp3buf.
Proof.
  unfold push_chunk. destruct mp3buf as [|x mp3buf]; cbn [length Nat.ltb Nat.leb].
  - by rewrite app_nil_r.
  - rewrite concat_app. cbn [concat]. by rewrite app_nil_r.
Qed.

Section Mp3Loop.

Variable Mp3Encoder : Type.
Variable encodeBuffer : Mp3Encoder -> list Z -> option (list Z) -> Mp3Encoder * list Z.

Lemma encode_block_spec (pcmLeft : list Z) (pcmRight : option (list Z)) k enc mp3Data :
  encode_block Mp3Encoder encodeBuffer pcmLeft pcmRight ((k * 1152)%nat, enc, mp3Data)
  = Ok ((S k * 1152)%nat,
        (encodeBuffer enc (mp3_chunk pcmLeft k)
           ((fun r => mp3_chunk r k) <$> pcmRight)).1,
        push_chunk mp3Data
          (encodeBuffer enc (mp3_chunk pcmLeft k)
             ((fun r => mp3_chunk r k) <$> pcmRight)).2).
Proof.
  unfold encode_block, sampleBlockSize, mp3_chunk.
  rewrite subarray_nat.
  replace (k * 1152 + 1152 - k * 1152)%nat with 1152%nat by lia.
  replace ((fun pcmRight0 : list Z =>
              subarray pcmRight0 (Z.of_nat (k * 1152)) (Z.of_nat (k * 1152 + 1152)))
           <$> pcmRight)
    with ((fun r : list Z => take 1152 (drop (k * 1152) r)) <$> pcmRight).
  2:{ destruct pcmRight as [r|]; [|done]. cbn [fmap option_fmap option_map].
      rewrite subarray_nat. do 2 f_equal. lia. }
  destruct (encodeBuffer _ _ _) as [enc' buf]. cbn [fst snd].
  do 3 f_equal. lia.
Qed.

Lemma encode_blocks_loop (pcmLeft : list Z) (pcmRight : option (list Z)) m :
  forall k fuel enc mp3Data,
  (k + m = mp3_chunk_count (length pcmLeft))%nat -> (m < fuel)%nat ->
  exists i' mp3Data',
    while_loop fuel (fun '(i, _, _) => (i <? length pcmLeft)%nat)
      (encode_block Mp3Encoder encodeBuffer pcmLeft pcmRight)
      ((k * 1152)%nat, enc, mp3Data)
    = Some (Ok (i',
                (fold_left (fun '(enc, bytes) '(l, r) =>
                              let '(enc', mp3buf) := encodeBuffer enc l r in
                              (enc', bytes ++ mp3buf))
                   (map (fun k => (mp3_chunk pcmLeft k,
                                   (fun r => mp3_chunk r k) <$> pcmRight))
                        (seq k m))
                   (enc, concat mp3Data)).1,
                mp3Data'))
    /\ concat mp3Data'
       = (fold_left (fun '(enc, bytes) '(l, r) =>
                       let '(enc', mp3buf) := encodeBuffer enc l r in
                       (enc', bytes ++ mp3buf))
            (map (fun k => (mp3_chunk pcmLeft k,
                            (fun r => mp3_chunk r k) <$> pcmRight))
                 (seq k m))
            (enc, concat mp3Data)).2.
Proof.
  pose proof (mp3_chunk_count_spec (length pcmLeft)) as HK.
  induction m as [|m IH]; intros k fuel enc mp3Data Hk Hfuel.
  - destruct fuel as [|fuel]; [lia|]. cbn [while_loop seq map fold_left fst snd].
    replace (k * 1152 <? length pcmLeft)%nat with false
      by (symmetry; apply Nat.ltb_ge; rewrite Nat.add_0_r in Hk; subst k; lia).
    by exists (k * 1152)%nat, mp3Data.
  - destruct fuel as [|fuel]; [lia|]. cbn [while_loop].
    replace (k * 1152 <? length pcmLeft)%nat with true
      by (symmetry; apply Nat.ltb_lt; nia).
    rewrite encode_block_spec.
    cbn [seq map fold_left].
    destruct (encodeBuffer enc (mp3_chunk pcmLeft k)
                ((fun r => mp3_chunk r k) <$> pcmRight)) as [enc' buf] eqn:Henc.
    cbn [fst snd].
    destruct (IH (S k) fuel enc' (push_chunk mp3Data buf)) as (i' & d' & Hloop & Hcat);
      [lia | lia |].
    rewrite concat_push_chunk in Hloop, Hcat.
    exists i', d'. by split.
Qed.

End Mp3Loop.

Lemma concat_mp3_chunks {A : Type} (l : list A) m : forall k,
  concat (map (mp3_chunk l) (seq k m)) = take (m * 1152) (drop (k * 1152) l).
Proof.
  induction m as [|m IH]; intros k; [done|].
  cbn [seq map concat]. rewrite IH. unfold mp3_chunk.
  replace (S k * 1152)%nat with (k * 1152 + 1152)%nat by lia.
  rewrite <- drop_drop, take_take_drop. f_equal.
Qed.

Lemma concat_all_mp3_chunks {A : Type} (l : list A) (n : nat) :
  length l = n ->
  concat (map (mp3_chunk l) (seq 0 (mp3_chunk_count n))) = l.
Proof.
  intros Hn. rewrite concat_mp3_chunks. cbn [Nat.mul drop].
  apply take_ge. pose proof (mp3_chunk_count_spec n). lia.
Qed.

Lemma length_mp3_chunk {A : Type} (l : list A) (k : nat) :
  length (mp3_chunk l k) = (1152 `min` (length l - k * 1152))%nat.
Proof. unfold mp3_chunk. by rewrite length_take, length_drop. Qed.

(** The MP3 branch hands the encoder every PCM sample exactly once and in
    order.  The block loop ends; it calls [encodeBuffer] once per chunk,
    ceil(n / 1152) times for [n] samples, and the blob holds the bytes of
    these calls in order, followed by those of [flush] (testing a result
    for emptiness before pushing it loses no byte).  Chunk [k] starts at
    sample [k * 1152], is never empty and holds 1152 samples unless the
    array ends before; the left chunks concatenated are the left array,
    and so are the right chunks of a stereo buffer. *)
Theorem encode_mp3_feeds_every_block_once (Mp3Encoder : Type)
    (new_Mp3Encoder : nat -> Z -> Z -> Mp3Encoder)
    (encodeBuffer : Mp3Encoder -> list Z -> option (list Z) -> Mp3Encoder * list Z)
    (flush : Mp3Encoder -> Mp3Encoder * list Z)
    (audioBuffer : AudioBuffer) (bitrate : Z)
    (pcmLeft : list Z) (pcmRight : option (list Z)) :
  mp3_pcm audioBuffer = Ok (pcmLeft, pcmRight) ->
  let chunks := mp3_chunks pcmLeft pcmRight in
  let fed := feed_encoder encodeBuffer chunks
               (new_Mp3Encoder (numberOfChannels audioBuffer)
                  (AudioBuffer.sampleRate audioBuffer) bitrate) in
  encode_mp3 Mp3Encoder new_Mp3Encoder encodeBuffer flush audioBuffer bitrate
  = Ok (fed.2 ++ (flush fed.1).2)
  /\ length chunks = mp3_chunk_count (length pcmLeft)
  /\ concat (map fst chunks) = pcmLeft
  /\ (forall r, pcmRight = Some r -> length r = length pcmLeft ->
        concat (map (fun c => default [] c.2) chunks) = r)
  /\ (forall k c, chunks !! k = Some c ->
        length c.1 = (1152 `min` (length pcmLeft - k * 1152))%nat
        /\ (1 <= length c.1)%nat).
Proof.
  intros Hpcm chunks fed. split; [|split; [|split; [|split]]].
  - unfold encode_mp3. rewrite Hpcm. cbn [mbind result_bind].
    unfold encode_blocks_fuel.
    pose proof (mp3_chunk_count_spec (length pcmLeft)) as HK.
    destruct (encode_blocks_loop Mp3Encoder encodeBuffer pcmLeft pcmRight
                (mp3_chunk_count (length pcmLeft)) 0 (S (length pcmLeft))
                (new_Mp3Encoder (numberOfChannels audioBuffer)
                   (AudioBuffer.sampleRate audioBuffer) bitrate) [])
      as (i' & d' & Hloop & Hcat); [lia | lia |].
    change (0 * 1152)%nat with 0%nat in Hloop. rewrite Hloop.
    cbn [mbind result_bind concat] in *.
    subst fed chunks. unfold feed_encoder, mp3_chunks.
    set (fed := fold_left _ _ _) in *.
    destruct (flush fed.1) as [enc' buf]. cbn [snd].
    by rewrite concat_push_chunk, Hcat.
  - unfold chunks, mp3_chunks. by rewrite length_map, length_seq.
  - unfold chunks, mp3_chunks. rewrite map_map. cbn [fst].
    by apply concat_all_mp3_chunks.
  - intros r -> Hr. unfold chunks, mp3_chunks. rewrite map_map.
    cbn [snd fmap option_fmap option_map default].
    by apply (concat_all_mp3_chunks r).
  - intros k c Hc. unfold chunks, mp3_chunks in Hc.
    rewrite lookup_map in Hc.
    destruct (seq 0 (mp3_chunk_count (length pcmLeft)) !! k) as [k'|] eqn:Hk; [|done].
    apply lookup_seq in Hk as [-> Hk]. injection Hc as <-. cbn [fst Nat.add].
    rewrite length_mp3_chunk. split; [done|].
    pose proof (mp3_chunk_count_spec (length pcmLeft)). lia.
Qed.

Lemma encode_mp3_feeds_every_block_once_witness :
  encode_mp3 unit (fun _ _ _ => ()) (fun _ l _ => ((), l)) (fun _ => ((), []))
    stereo_example 320
  = Ok [16383; -16383].
Proof.
  exact (proj1 (encode_mp3_feeds_every_block_once unit (fun _ _ _ => ())
                  (fun _ l _ => ((), l)) (fun _ => ((), [])) stereo_example 320
                  [16383; -16383] (Some [-32767; 32767]) eq_refl)).
Defined.

(** ** Reordering the files of the Merger *)

Lemma splice_remove_perm {A : Type} (l : list A) (i : nat) (x : A) :
  l !! i = Some x -> Permutation (x :: splice_remove A l i) l.
Proof.
  intros Hx. rewrite <- (take_drop_middle l i x Hx) at 2.
  unfold splice_remove. apply Permutation_middle.
Qed.

Lemma length_splice_remove {A : Type} (l : list A) (i : nat) :
  (i < length l)%nat -> length (splice_remove A l i) = (length l - 1)%nat.
Proof.
  intros Hi. unfold splice_remove. rewrite length_app, length_take, length_drop. lia.
Qed.

Lemma splice_insert_perm {A : Type} (l : list A) (j : nat) (x : A) :
  Permutation (splice_insert A l j x) (x :: l).
Proof.
  unfold splice_insert. rewrite <- (take_drop j l) at 3.
  symmetry. apply Permutation_middle.
Qed.

Lemma splice_insert_lookup {A : Type} (l : list A) (j : nat) (x : A) :
  (j <= length l)%nat -> splice_insert A l j x !! j = Some x.
Proof.
  intros Hj. unfold splice_insert. apply list_lookup_middle.
  rewrite length_take. lia.
Qed.

Lemma splice_remove_insert {A : Type} (l : list A) (j : nat) (x : A) :
  (j <= length l)%nat -> splice_remove A (splice_insert A l j x) j = l.
Proof.
  intros Hj. unfold splice_remove, splice_insert.
  assert (Htake : length (take j l) = j) by (rewrite length_take; lia).
  rewrite take_app_length' by done.
  replace (S j) with (j + 1)%nat by lia.
  rewrite drop_app_add' by done. cbn [drop]. rewrite drop_0.
  apply take_drop.
Qed.

(** Dragging the file at position [i] onto the file at position [j] moves
    it there and changes nothing else: the list keeps its length and its
    items (it is a permutation of the old one), the dragged file ends at
    position [j], the other files keep their relative order, and both drag
    references are cleared, so that a second drop without a new drag
    changes nothing. *)
Theorem handleDrop_moves_dragged_file (FileItem : Type) (undefined : FileItem)
    (s : MergerState FileItem) (i j : nat) :
  (i < length (files FileItem s))%nat -> (j < length (files FileItem s))%nat ->
  let s' := handleDrop FileItem undefined
              (handleDragEnter FileItem j (handleDragStart FileItem i s)) in
  Permutation (files FileItem s') (files FileItem s)
  /\ length (files FileItem s') = length (files FileItem s)
  /\ files FileItem s' !! j = files FileItem s !! i
  /\ splice_remove FileItem (files FileItem s') j
     = splice_remove FileItem (files FileItem s) i
  /\ handleDrop FileItem undefined s' = s'.
Proof.
  intros Hi Hj s'. subst s'.
  destruct (lookup_lt_is_Some_2 (files FileItem s) i Hi) as [x Hx].
  assert (Hs' : handleDrop FileItem undefined
                  (handleDragEnter FileItem j (handleDragStart FileItem i s))
                = {| files := splice_insert FileItem
                                (splice_remove FileItem (files FileItem s) i) j x;
                     dragItem := None; dragOverItem := None |}).
  { unfold handleDrop.
    cbn [handleDragEnter handleDragStart files dragItem dragOverItem].
    by rewrite Hx. }
  rewrite Hs'. cbn [files].
  pose proof (length_splice_remove (files FileItem s) i Hi) as Hrm.
  assert (Hperm : Permutation
                    (splice_insert FileItem (splice_remove FileItem (files FileItem s) i) j x)
                    (files FileItem s)).
  { etransitivity; [apply splice_insert_perm | by apply splice_remove_perm]. }
  split; [exact Hperm|]. split; [by apply Permutation_length|].
  split; [rewrite Hx; apply splice_insert_lookup; lia|].
  split; [apply splice_remove_insert; lia | done].
Qed.

Lemma handleDrop_moves_dragged_file_witness :
  files nat (handleDrop nat 0%nat
               (handleDragEnter nat 0 (handleDragStart nat 2
                  {| files := [10; 20; 30]%nat; dragItem := None; dragOverItem := None |})))
  !! 0%nat = Some 30%nat.
Proof.
  exact (proj1 (proj2 (proj2
    (handleDrop_moves_dragged_file nat 0%nat
       {| files := [10; 20; 30]%nat; dragItem := None; dragOverItem := None |}
       2 0 ltac:(cbn; lia) ltac:(cbn; lia))))).
Defined.

(** ** File names *)

Lemma extension_char_spec (c : ascii) :
  extension_char c = true <-> c <> "."%char /\ c <> "/"%char.
Proof.
  unfold extension_char.
  rewrite andb_true_iff, !negb_true_iff, !Ascii.eqb_neq. done.
Qed.

Lemma extension_tail_spec (ext : string) :
  extension_tail ext = true <-> plain_extension ext.
Proof.
  unfold plain_extension. induction ext as [|c ext IH].
  - cbn. split; [discriminate | intros [H _]; done].
  - cbn [extension_tail list_ascii_of_string].
    rewrite andb_true_iff, extension_char_spec, Forall_cons.
    destruct ext as [|c' ext].
    + cbn. split; [intros [H _]; repeat split; (discriminate || tauto || constructor)
                  | intros [_ [H _]]; done].
    + rewrite IH. split.
      * intros [Hc [_ Hall]]. split; [discriminate | done].
      * intros [_ [Hc Hall]]. split; [done|]. split; [discriminate | done].
Qed.

Lemma extension_tail_dot (x y : string) :
  extension_tail (x ++ String "." y) = false.
Proof.
  induction x as [|c x IH]; [done|].
  cbn [String.append extension_tail]. rewrite IH.
  destruct (x ++ String "." y)%string eqn:Hx.
  - destruct x; discriminate.
  - apply andb_false_r.
Qed.

Lemma remove_extension_strips (base ext : string) :
  extension_tail ext = true ->
  remove_extension (base ++ String "." ext) = base.
Proof.
  intros Hext. induction base as [|c base IH].
  - cbn [String.append remove_extension extension_here].
    by rewrite Ascii.eqb_refl, Hext.
  - cbn [String.append remove_extension extension_here].
    rewrite extension_tail_dot, andb_false_r. by rewrite IH.
Qed.

Lemma remove_extension_keeps (name : string) :
  (forall base ext, name = (base ++ String "." ext)%string -> extension_tail ext = false) ->
  remove_extension name = name.
Proof.
  induction name as [|c name IH]; intros Hno; [done|].
  cbn [remove_extension extension_here].
  destruct ((c =? ".")%char && extension_tail name) eqn:Hhere.
  - apply andb_true_iff in Hhere as [Hc Hext]. apply Ascii.eqb_eq in Hc. subst c.
    rewrite (Hno EmptyString name eq_refl) in Hext. discriminate.
  - f_equal. apply IH. intros base ext ->. by apply (Hno (String c base) ext).
Qed.

(** The part of a file name that names the downloads.  A name that ends
    in a dot followed by an extension -- one character or more, none of
    them a dot or a slash -- loses that dot and the extension, and only
    them, whatever stands in front (other dots included); a name that
    does not end in such an extension is kept as it is. *)
Theorem remove_extension_strips_last_extension (name : string) :
  (forall base ext, plain_extension ext ->
     remove_extension (base ++ String "." ext) = base)
  /\ ((forall base ext, name = (base ++ String "." ext)%string -> ~ plain_extension ext) ->
      remove_extension name = name).
Proof.
  split.
  - intros base ext Hext. by apply remove_extension_strips, extension_tail_spec.
  - intros Hno. apply remove_extension_keeps. intros base ext Hname.
    destruct (extension_tail ext) eqn:Hext; [|done].
    apply extension_tail_spec in Hext. by destruct (Hno base ext Hname).
Qed.

(** ** Clip selection *)

Lemma existsb_includes (index : nat) (l : list nat) :
  existsb (fun item => (item =? index)%nat) l = true <-> In index l.
Proof.
  rewrite existsb_exists. split.
  - intros (x & Hx & Heq). apply Nat.eqb_eq in Heq. by subst.
  - intros Hin. exists index. split; [done | apply Nat.eqb_refl].
Qed.

Lemma toggleClipSelection_In (index j : nat) (prevSelected : list nat) :
  In j (toggleClipSelection index prevSelected)
  <-> (In j prevSelected /\ j <> index) \/ (j = index /\ ~ In index prevSelected).
Proof.
  unfold toggleClipSelection.
  destruct (existsb _ prevSelected) eqn:Hinc.
  - apply existsb_includes in Hinc. rewrite filter_In, negb_true_iff, Nat.eqb_neq.
    split; [by left | intros [H | [_ H]]; done].
  - assert (Hnot : ~ In index prevSelected).
    { intros Hin. apply existsb_includes in Hin. congruence. }
    rewrite in_app_iff. cbn [In]. split.
    + intros [H | [<- | []]]; [left | by right].
      split; [done|]. intros ->. done.
    + intros [[H _] | [-> _]]; [by left | right; by left].
Qed.

Lemma filter_all (index : nat) (l : list nat) :
  ~ In index l -> List.filter (fun item => negb (item =? index)%nat) l = l.
Proof.
  induction l as [|x l IH]; intros Hnot; [done|].
  cbn [List.filter In] in *.
  destruct (Nat.eqb_spec x index) as [->|Hne]; [tauto|].
  cbn [negb]. f_equal. apply IH. tauto.
Qed.

Lemma toggleClipSelection_NoDup (index : nat) (prevSelected : list nat) :
  NoDup prevSelected -> NoDup (toggleClipSelection index prevSelected).
Proof.
  intros Hnd. unfold toggleClipSelection.
  destruct (existsb _ prevSelected) eqn:Hinc.
  - apply NoDup_ListNoDup, List.NoDup_filter, NoDup_ListNoDup, Hnd.
  - apply NoDup_app. split; [done|]. split; [|apply NoDup_singleton].
    intros x Hx Hx'. apply list_elem_of_singleton in Hx'. subst x.
    apply list_elem_of_In, existsb_includes in Hx. congruence.
Qed.

(** Toggling a clip changes the selection by that clip only: the clip is
    selected afterwards exactly when it was not before, and every other
    clip stays as it was.  A selection without duplicates stays without
    duplicates.  The order of selection is the order in which clips are
    merged: toggling twice a clip that was not selected gives the
    selection back, order included, while toggling twice a selected clip
    moves it behind the others. *)
Theorem toggleClipSelection_flips_one_clip (index : nat) (prevSelected : list nat) :
  (forall j, In j (toggleClipSelection index prevSelected)
             <-> (In j prevSelected /\ j <> index)
                 \/ (j = index /\ ~ In index prevSelected))
  /\ (NoDup prevSelected -> NoDup (toggleClipSelection index prevSelected))
  /\ (~ In index prevSelected ->
      toggleClipSelection index (toggleClipSelection index prevSelected) = prevSelected)
  /\ (In index prevSelected ->
      toggleClipSelection index (toggleClipSelection index prevSelected)
      = List.filter (fun item => negb (item =? index)%nat) prevSelected ++ [index]).
Proof.
  split; [intros j; apply toggleClipSelection_In|]. split; [|split].
  - apply toggleClipSelection_NoDup.
  - intros Hnot. unfold toggleClipSelection at 2.
    replace (existsb _ prevSelected) with false.
    2:{ symmetry. apply not_true_is_false. intros H.
        by apply existsb_includes in H. }
    unfold toggleClipSelection.
    replace (existsb _ (prevSelected ++ [index])) with true.
    2:{ symmetry. apply existsb_includes, in_app_iff. right. by left. }
    rewrite List.filter_app, filter_all by done. cbn [List.filter].
    rewrite Nat.eqb_refl. cbn [negb]. apply app_nil_r.
  - intros Hin. unfold toggleClipSelection at 2.
    replace (existsb _ prevSelected) with true
      by (symmetry; by apply existsb_includes).
    unfold toggleClipSelection.
    replace (existsb _ (List.filter _ prevSelected)) with false; [done|].
    symmetry. apply not_true_is_false. intros H.
    apply existsb_includes, filter_In in H as [_ H].
    by rewrite Nat.eqb_refl in H.
Qed.

(** On a selection without duplicates whose indices are clips of the list,
    the box Select All is checked exactly when the list is not empty and
    every clip is selected, and clicking it flips it (on a list that is
    not empty).  Both toggles keep the selection without duplicates and
    within the list. *)
Theorem allClipsSelected_iff_every_clip_selected (clips : nat)
    (selectedClips : list nat) :
  valid_selection clips selectedClips ->
  (allClipsSelected selectedClips clips = true
   <-> (0 < clips)%nat /\ forall index, (index < clips)%nat -> In index selectedClips)
  /\ ((0 < clips)%nat ->
      allClipsSelected (toggleSelectAll selectedClips clips) clips
      = negb (allClipsSelected selectedClips clips))
  /\ valid_selection clips (toggleSelectAll selectedClips clips)
  /\ (forall index, (index < clips)%nat ->
        valid_selection clips (toggleClipSelection index selectedClips)).
Proof.
  intros [Hnd Hrange]. split; [|split; [|split]].
  - unfold allClipsSelected. rewrite andb_true_iff, Nat.eqb_eq, Nat.ltb_lt.
    assert (Hsub : selectedClips ⊆+ seq 0 clips).
    { apply NoDup_submseteq; [done|]. intros x Hx.
      rewrite List.Forall_forall in Hrange. apply list_elem_of_In in Hx.
      apply list_elem_of_In, in_seq. specialize (Hrange x Hx). lia. }
    split.
    + intros [Hlen Hpos]. split; [done|]. intros index Hindex.
      assert (Hperm : selectedClips ≡ₚ seq 0 clips).
      { apply submseteq_length_Permutation; [done|]. rewrite length_seq. lia. }
      apply list_elem_of_In. rewrite Hperm. apply list_elem_of_In, in_seq. lia.
    + intros [Hpos Hall]. split; [|done].
      apply submseteq_length in Hsub as Hle. rewrite length_seq in Hle.
      assert (Hsup : seq 0 clips ⊆+ selectedClips).
      { apply NoDup_submseteq; [apply NoDup_ListNoDup, seq_NoDup|].
        intros x Hx. apply list_elem_of_In, in_seq in Hx.
        apply list_elem_of_In, Hall. lia. }
      apply submseteq_length in Hsup. rewrite length_seq in Hsup. lia.
  - intros Hpos. unfold toggleSelectAll.
    destruct (allClipsSelected selectedClips clips); unfold allClipsSelected; cbn [negb].
    + cbn [length]. apply andb_false_iff. left. apply Nat.eqb_neq. lia.
    + rewrite length_seq, Nat.eqb_refl. apply Nat.ltb_lt. lia.
  - unfold toggleSelectAll, valid_selection.
    destruct (allClipsSelected selectedClips clips).
    + split; [apply NoDup_nil_2 | constructor].
    + split; [apply NoDup_ListNoDup, seq_NoDup|].
      apply List.Forall_forall. intros x Hx. apply in_seq in Hx. lia.
  - intros index Hindex. split.
    + by apply toggleClipSelection_NoDup.
    + apply List.Forall_forall. intros x Hx.
      apply toggleClipSelection_In in Hx as [[Hx _] | [-> _]]; [|done].
      rewrite List.Forall_forall in Hrange. by apply Hrange.
Qed.

Lemma allClipsSelected_iff_every_clip_selected_witness :
  allClipsSelected [2; 0; 1]%nat 3 = true
  <-> (0 < 3)%nat /\ forall index, (index < 3)%nat -> In index [2; 0; 1]%nat.
Proof.
  apply (allClipsSelected_iff_every_clip_selected 3 [2; 0; 1]%nat).
  split; [apply (bool_decide_unpack _); vm_compute; exact I | repeat constructor; lia].
Defined.

(** ** The clipper's state *)

Lemma app_step_invariant (s : App.t) (ev : AppEvent) :
  (App.appState s <> EDITING \/ exists b, App.sourceBuffer s = Some b) ->
  App.appState (app_step s ev) <> EDITING
  \/ exists b, App.sourceBuffer (app_step s ev) = Some b.
Proof.
  intros Hinv. destruct ev as [file|[b|]| |m]; cbn.
  - unfold handleFile_begin. destruct (negb _); cbn; [done | by left].
  - right. by exists b.
  - by left.
  - by left.
  - done.
Qed.

(** Whatever files are chosen, however their decoding ends and whenever
    the user starts over or changes mode, the clipper is in its editing
    state only with a decoded buffer at hand.  So [renderContent] shows
    the waveform editor whenever the state is EDITING, and the uploader
    only in the idle state, with the error of the last handler: the
    fallback uploader for an editing state without buffer is never
    rendered. *)
Theorem editing_state_has_source_buffer (events : list AppEvent) :
  let s := fold_left app_step events initialApp in
  (App.appState s <> EDITING \/ exists b, App.sourceBuffer s = Some b)
  /\ (forall err, renderContent s = UploaderView err ->
        App.appState s = IDLE /\ err = App.error s)
  /\ (App.mode s = clipper -> App.appState s = EDITING ->
      exists b, renderContent s = WaveformEditorView b (App.originalFileName s)).
Proof.
  intros s.
  assert (Hinv : App.appState s <> EDITING \/ exists b, App.sourceBuffer s = Some b).
  { subst s. induction events as [|ev events IH] using rev_ind.
    - left. discriminate.
    - rewrite fold_left_app. cbn [fold_left]. by apply app_step_invariant. }
  split; [exact Hinv|]. unfold renderContent. split.
  - intros err.
    destruct (App.mode s); try discriminate.
    destruct (App.appState s); try discriminate.
    + intros [= <-]. done.
    + destruct Hinv as [H | [b Hb]]; [done | rewrite Hb; discriminate].
  - intros Hm He. rewrite Hm, He.
    destruct Hinv as [H | [b Hb]]; [done|]. exists b. by rewrite Hb.
Qed.

(** ** The download of the toolkit without effects *)




(** ** Merging and serializing *)

Lemma flat_map_ext_In {A B : Type} (f g : A -> list B) (l : list A) :
  (forall a, In a l -> f a = g a) -> flat_map f l = flat_map g l.
Proof.
  induction l as [|a l IH]; intros H; [done|].
  cbn [flat_map]. rewrite (H a) by (by left). f_equal. apply IH.
  intros b Hb. apply H. by right.
Qed.

Lemma frame_bytes_map (H : nat -> list number) (l : list nat) (k : nat) :
  frame_bytes (map H l) k
  = flat_map (fun j => le_bytes 2 (quantize_sample (H j !! k))) l.
Proof. unfold frame_bytes. by rewrite flat_map_concat_map, map_map, <- flat_map_concat_map. Qed.

(** The data chunk of channels that are concatenations. *)
Lemma wav_data_concat (c : nat) (F G : nat -> list number) (n1 n2 : nat) :
  (forall j, (j < c)%nat -> length (F j) = n1) ->
  wav_data (map (fun j => F j ++ G j) (seq 0 c)) (n1 + n2)
  = wav_data (map F (seq 0 c)) n1 ++ wav_data (map G (seq 0 c)) n2.
Proof.
  intros Hlen. unfold wav_data. rewrite seq_app, flat_map_app. cbn [Nat.add]. f_equal.
  - apply flat_map_ext_In. intros k Hk. apply in_seq in Hk.
    rewrite !frame_bytes_map. apply flat_map_ext_In. intros j Hj. apply in_seq in Hj.
    by rewrite lookup_app_l by (rewrite Hlen; lia).
  - rewrite <- (Nat.add_0_r n1) at 1. rewrite <- fmap_add_seq.
    change (Nat.add n1 <$> seq 0 n2) with (map (Nat.add n1) (seq 0 n2)).
    rewrite flat_map_concat_map, map_map, <- flat_map_concat_map.
    apply flat_map_ext_In. intros k Hk.
    rewrite !frame_bytes_map. apply flat_map_ext_In. intros j Hj. apply in_seq in Hj.
    rewrite lookup_app_r by (rewrite Hlen; lia).
    do 3 f_equal. rewrite Hlen by lia. lia.
Qed.

Lemma channels_as_map (b : AudioBuffer) :
  map (fun j => channel j b) (seq 0 (numberOfChannels b)) = AudioBuffer.channelData b.
Proof.
  pose proof (map_lookup_seq (default []) (AudioBuffer.channelData b) []) as Hmap.
  cbn [app length] in Hmap. unfold channel, numberOfChannels.
  rewrite Hmap. apply map_id.
Qed.

Lemma wav_data_concatenate (first : AudioBuffer) (bs : list AudioBuffer) :
  Forall wf_buffer bs -> Forall (compatible first) bs ->
  wav_data (AudioBuffer.channelData (concatenate first bs)) (total_frames bs)
  = flat_map (fun b => wav_data (AudioBuffer.channelData b) (AudioBuffer.length b)) bs.
Proof.
  unfold concatenate. cbn [AudioBuffer.channelData].
  induction bs as [|b bs IH]; intros Hwf Hcompat.
  - cbn [flat_map]. unfold total_frames. cbn [fold_left]. done.
  - apply Forall_cons in Hwf as [(_ & _ & _ & Hlen) Hwf].
    apply Forall_cons in Hcompat as [[Hc _] Hcompat].
    rewrite total_frames_cons. cbn [flat_map].
    rewrite (wav_data_concat (numberOfChannels first) (fun j => channel j b)
               (fun j => flat_map (channel j) bs)).
    + rewrite IH by done. f_equal. rewrite <- Hc. by rewrite channels_as_map.
    + intros j Hj. unfold channel, numberOfChannels in *.
      destruct (lookup_lt_is_Some_2 (AudioBuffer.channelData b) j) as [ch Hch]; [lia|].
      rewrite Hch. eapply Forall_lookup_1 in Hlen; [|exact Hch]. done.
Qed.

(** Merging commutes with serializing: for files of one format, the
    merged download is a header for the common channel count and sample
    rate and for the sum of the frame counts, followed by the data chunks
    of the WAV files of the inputs, one after the other in the order of
    the list. *)
Theorem handleMerge_concatenates_data_chunks (first : AudioBuffer)
    (others : list AudioBuffer) :
  Forall wf_buffer (first :: others) -> others <> [] ->
  Forall (compatible first) others ->
  exists chunks,
    Forall2 (fun b chunk =>
               bufferToWave b (AudioBuffer.length b)
               = Ok (riff_header (numberOfChannels first) (AudioBuffer.sampleRate first)
                       (AudioBuffer.length b) ++ chunk))
            (first :: others) chunks
    /\ handleMerge (first :: others)
       = Downloaded "merged_output.wav"
           (riff_header (numberOfChannels first) (AudioBuffer.sampleRate first)
              (total_frames (first :: others)) ++ concat chunks).
Proof.
  intros Hwf Hne Hcompat.
  assert (Hfirst : wf_buffer first) by (by apply Forall_cons in Hwf as [H _]).
  assert (Hall : Forall (compatible first) (first :: others))
    by (apply Forall_cons; split; [by split | done]).
  exists (map (fun b => wav_data (AudioBuffer.channelData b) (AudioBuffer.length b))
              (first :: others)).
  split.
  - apply Forall2_fmap_r, Forall_Forall2_diag.
    eapply Forall_impl; [exact Hall|]. intros b [Hc Hr]. cbn beta.
    by rewrite bufferToWave_spec, Hc, Hr.
  - assert (Hlen : (length (first :: others) <? 2)%nat = false)
      by (destruct others; done).
    unfold handleMerge. rewrite Hlen, first_mismatch_none by exact Hcompat.
    cbv zeta.
    rewrite (merge_copy_spec (fun _ => numberOfChannels first) first
               (first :: others) Hfirst); [| |exact Hwf|exact Hall|discriminate].
    2:{ apply Forall_forall. reflexivity. }
    rewrite bufferToWave_spec. unfold try_merge. do 2 f_equal.
    + unfold concatenate, numberOfChannels. cbn [AudioBuffer.channelData].
      by rewrite length_map, length_seq.
    + rewrite wav_data_concatenate by done.
      by rewrite flat_map_concat_map.
Qed.

Lemma handleMerge_concatenates_data_chunks_witness :
  exists chunks,
    Forall2 (fun b chunk =>
               bufferToWave b (AudioBuffer.length b)
               = Ok (riff_header 1 44100 (AudioBuffer.length b) ++ chunk))
            [merge_example_a; merge_example_b] chunks
    /\ handleMerge [merge_example_a; merge_example_b]
       = Downloaded "merged_output.wav" (riff_header 1 44100 3 ++ concat chunks).
Proof.
  apply (handleMerge_concatenates_data_chunks merge_example_a [merge_example_b]
           wf_merge_examples ltac:(discriminate)).
  repeat constructor.
Defined.

(** ** The peak of the normalizer *)

Lemma maxAmp_concat (b : AudioBuffer) :
  maxAmp b
  = fold_left (fun m x => Math_max m (Math_abs x))
      (concat (AudioBuffer.channelData b)) (of_Z 0).
Proof.
  unfold maxAmp. generalize (of_Z 0).
  induction (AudioBuffer.channelData b) as [|ch chs IH]; intros m; [done|].
  cbn [fold_left concat]. by rewrite fold_left_app, IH.
Qed.

Lemma peak_fold_finite (samples : list number) : forall m0 : Q,
  Forall (fun x => exists q, x = Fin q) samples ->
  exists m,
    fold_left (fun m x => Math_max m (Math_abs x)) samples (Fin m0) = Fin m
    /\ (m0 <= m)%Q
    /\ (forall q, In (Fin q) samples -> (Qabs q <= m)%Q)
    /\ (m = m0 \/ exists q, In (Fin q) samples /\ m = Qabs q).
Proof.
  induction samples as [|x samples IH]; intros m0 Hfin.
  - exists m0. cbn. repeat split; [apply Qle_refl | done | by left].
  - apply Forall_cons in Hfin as [[q ->] Hfin]. cbn [fold_left Math_abs].
    unfold Math_max at 2. cbn [num_lt]. unfold Qltb.
    destruct (Z.ltb_spec (Qnum m0 * QDen (Qabs q)) (Qnum (Qabs q) * QDen m0)) as [Hlt | Hge].
    + destruct (IH (Qabs q) Hfin) as (m & Hm & Hle & Hall & Hwit).
      exists m. split; [done|]. split; [|split].
      * apply Qle_trans with (Qabs q); [|done]. unfold Qle. lia.
      * intros q' [[= ->] | Hin]; [done | by apply Hall].
      * right. destruct Hwit as [-> | (q' & Hin & ->)].
        -- exists q. split; [by left | done].
        -- exists q'. split; [by right | done].
    + destruct (IH m0 Hfin) as (m & Hm & Hle & Hall & Hwit).
      exists m. split; [done|]. split; [done|]. split.
      * intros q' [[= ->] | Hin]; [|by apply Hall].
        apply Qle_trans with m0; [|done]. unfold Qle. lia.
      * destruct Hwit as [-> | (q' & Hin & ->)]; [by left|].
        right. exists q'. split; [by right | done].
Qed.

Lemma peak_fold_NaN (samples : list number) : forall m0,
  m0 = NaN \/ In NaN samples ->
  fold_left (fun m x => Math_max m (Math_abs x)) samples m0 = NaN.
Proof.
  induction samples as [|x samples IH]; intros m0 [Hm | Hin]; cbn [fold_left].
  - done.
  - destruct Hin.
  - apply IH. left. subst m0. done.
  - apply IH. destruct Hin as [-> | Hin]; [left | by right].
    cbn [Math_abs]. by destruct m0.
Qed.

(** The peak the normalizer computes.  On a buffer of finite samples it is
    the largest absolute value of a sample, 0 for a buffer of zeros: no
    sample exceeds it and, unless it is 0, some sample reaches it.  One NaN
    sample anywhere makes the peak NaN, and the normalizer then returns
    the buffer as it is. *)
Theorem maxAmp_is_the_peak (resample : Q -> list number -> nat -> number)
    (audioContext : BaseAudioContext) (b : AudioBuffer) :
  (Forall (Forall (fun x => exists q, x = Fin q)) (AudioBuffer.channelData b) ->
   exists m,
     maxAmp b = Fin m /\ (0 <= m)%Q
     /\ (forall ch q, In ch (AudioBuffer.channelData b) -> In (Fin q) ch ->
           (Qabs q <= m)%Q)
     /\ (m = 0%Q \/ exists ch q, In ch (AudioBuffer.channelData b) /\ In (Fin q) ch
                                 /\ m = Qabs q))
  /\ ((exists ch, In ch (AudioBuffer.channelData b) /\ In NaN ch) ->
      maxAmp b = NaN /\ normalize resample audioContext b = Ok b).
Proof.
  split.
  - intros Hfin. rewrite maxAmp_concat.
    destruct (peak_fold_finite (concat (AudioBuffer.channelData b)) 0)
      as (m & Hm & Hle & Hall & Hwit).
    { apply List.Forall_forall. intros x Hx. apply in_concat in Hx as (ch & Hch & Hx).
      rewrite List.Forall_forall in Hfin. specialize (Hfin ch Hch).
      rewrite List.Forall_forall in Hfin. by apply Hfin. }
    exists m. split; [exact Hm|]. split; [done|]. split.
    + intros ch q Hch Hq. apply Hall. apply in_concat. by exists ch.
    + destruct Hwit as [-> | (q & Hin & ->)]; [by left|].
      apply in_concat in Hin as (ch & Hch & Hq). right. by exists ch, q.
  - intros (ch & Hch & Hnan).
    assert (Hpeak : maxAmp b = NaN).
    { rewrite maxAmp_concat. apply peak_fold_NaN. right. apply in_concat. by exists ch. }
    split; [done|]. unfold normalize. by rewrite Hpeak.
Qed.
